(** * Rig orchestration of master-of-puppets: [core/rig.py] and
    [mop/ui/commands.py]

    A shallow embedding of the [Rig] class: module discovery and ordering,
    the build / unbuild cycle, publishing, construction, and module creation
    and deletion; and of the [reload_mop] command.  The scene
    host ([maya.cmds]) is an in-memory scene held in an explicit world; every
    method of [Rig] is a computation in a state-and-exception monad over that
    world.  The services the class only calls ([Module._build],
    [icarus.postscript.run_scripts], [icarus.dag], [icarus.attributes],
    [shapeshifter], [json]) are fields of a [Services] record. *)

From stdpp Require Import base option list strings gmap sets pretty.
From Stdlib Require Import ZArith Ascii.

Open Scope string_scope.
Open Scope list_scope.

(** ** Module handles

    A [Module] object wraps the scene node that defines it; two handles are
    equal (Python [==], used by [in] and [list.remove]) when they wrap the
    same node, so a handle is the node's name. *)
Abbreviation Module := string.

(** ** The module sorter, [Rig.sort_parent_module] and the loop of
    [Rig.rig_modules] *)

(** [modules.remove(x)]: drops the first occurrence of [x]. *)
Fixpoint remove_first (x : string) (l : list string) : list string :=
  match l with
  | [] => []
  | y :: l' => if decide (x = y) then l' else y :: remove_first x l'
  end.

(** [modules.pop()]: the last element and the list without it. *)
Definition pop (l : list string) : option (string * list string) :=
  match last l with
  | Some x => Some (x, take (length l - 1) l)
  | None => None
  end.

Section sorter.
(** [module.parent_module], read in a scene that the sort does not change. *)
Variable parent_module : Module → option Module.

(** The number of nested calls of [sort_parent_module] the interpreter still
    allows below the call [rig_modules] makes: its recursion limit less the
    frames in use. *)
Variable recursion_limit : nat.

(** The two Python lists are mutated in place; the function returns both.
    [depth] is the number of frames left for the call and the calls nested
    in it: [None] is a recursion that ran out of them, which the interpreter
    ends with a [RecursionError]. *)
Fixpoint sort_parent_module (depth : nat) (module : Module)
    (modules sorted_modules : list Module) : option (list Module * list Module) :=
  match depth with
  | 0 => None
  | S depth' =>
    match parent_module module with
    | Some parent =>
      if decide (parent ∈ modules) then
        match sort_parent_module depth' parent
                (remove_first parent modules) sorted_modules with
        | Some (modules', sorted') => Some (modules', sorted' ++ [module])
        | None => None
        end
      else Some (modules, sorted_modules ++ [module])
    | None => Some (modules, sorted_modules ++ [module])
    end
  end.

(** [while modules: module = modules.pop(); self.sort_parent_module(...)].
    [fuel] counts the rounds of the loop; each round removes a module, so
    the length of the list is enough. *)
Fixpoint sort_loop (fuel : nat) (modules sorted_modules : list Module)
    : option (list Module) :=
  match pop modules with
  | None => Some sorted_modules
  | Some (module, rest) =>
    match fuel with
    | 0 => None
    | S fuel' =>
      match sort_parent_module (S recursion_limit) module rest sorted_modules with
      | Some (modules', sorted') => sort_loop fuel' modules' sorted'
      | None => None
      end
    end
  end.

(** The sorting half of [rig_modules]: [sorted_modules = []] and the loop. *)
Definition sort_modules (modules : list Module) : option (list Module) :=
  sort_loop (length modules) modules [].

(** [n] steps up the parent chain. *)
Fixpoint ancestor (n : nat) (m : Module) : option Module :=
  match n with
  | 0 => Some m
  | S n' => match parent_module m with
            | Some p => ancestor n' p
            | None => None
            end
  end.

(** The parent relation has no cycle: no module is its own strict ancestor. *)
Definition acyclic : Prop := ∀ m n, ancestor (S n) m ≠ Some m.

(** The parent relation has a cycle through [m]. *)
Definition on_cycle (m : Module) : Prop := ∃ n, ancestor (S n) m = Some m.

(** In [l], every module whose parent is one of the modules of [input]
    comes strictly after that parent. *)
Definition parents_first (input l : list Module) : Prop :=
  ∀ j m p, l !! j = Some m → parent_module m = Some p → p ∈ input →
    ∃ i, (i < j)%nat ∧ l !! i = Some p.
End sorter.

(** [x] occurs strictly before [y] in [l]. *)
Definition before (x y : string) (l : list string) : Prop :=
  ∃ i j, l !! i = Some x ∧ l !! j = Some y ∧ i < j.

(** ** Values, exceptions and the scene *)

(** The Python exceptions the class and the host can raise. *)
Inductive exn :=
  | RuntimeError (msg : string)
  | ValueError (msg : string)
  | TypeError (msg : string)
  | AttributeError (msg : string)
  | KeyError (key : string)
  | RecursionError.

(** A decoded JSON document; objects keep their pairs in order, as
    [object_pairs_hook=OrderedDict] does. *)
#[warnings="-register-all"]
Inductive json :=
  | JNull
  | JBool (b : bool)
  | JNum (z : Z)
  | JStr (s : string)
  | JArr (items : list json)
  | JObj (pairs : list (string * json)).

(** What an attribute of a scene node holds. *)
Inductive value :=
  | VNone
  | VBool (b : bool)
  | VStr (s : string)
  | VList (l : list string).

Inductive level := INFO | WARNING | ERROR.

(** A scene node: its DAG parent and its attributes. *)
Record Node := {
  n_parent : option string;
  n_attrs : gmap string value
}.

(** The world the class runs in: the scene ([dag], node name to node),
    the attribute connections (destination plug to source plug, a plug is a
    node and an attribute name) and the records written to [logger]. *)
Record World := {
  dag : gmap string Node;
  conns : gmap (string * string) (string * string);
  log : list (level * string)
}.

Inductive result (A : Type) :=
  | Ok (a : A)
  | Raise (e : exn).
Arguments Ok {A} a.
Arguments Raise {A} e.

(** A computation: the world after it, and what it returned or raised.  A
    raising computation keeps the mutations made before the [raise]. *)
Definition M (A : Type) : Type := World → World * result A.

Definition ret {A} (a : A) : M A := λ w, (w, Ok a).
Definition raise {A} (e : exn) : M A := λ w, (w, Raise e).
Definition bind {A B} (m : M A) (k : A → M B) : M B :=
  λ w, match m w with
       | (w', Ok a) => k a w'
       | (w', Raise e) => (w', Raise e)
       end.

#[global] Instance M_ret : MRet M := @ret.
#[global] Instance M_bind : MBind M := λ A B k m, bind m k.

(** [try: m  except: pass]. *)
Definition try_pass (m : M unit) : M unit :=
  λ w, match m w with
       | (w', Ok _) => (w', Ok tt)
       | (w', Raise _) => (w', Ok tt)
       end.

(** [for x in l: body(x)], over a list evaluated before the loop. *)
Fixpoint for_each {A} (l : list A) (body : A → M unit) : M unit :=
  match l with
  | [] => ret tt
  | x :: l' => body x;; for_each l' body
  end.

(** An observer of the world that may raise. *)
Definition observe {A} (f : World → result A) : M A := λ w, (w, f w).

Definition logger (lv : level) (msg : string) : M unit :=
  λ w, ({| dag := dag w; conns := conns w; log := log w ++ [(lv, msg)] |}, Ok tt).

(** Python truthiness of an attribute value and of a decoded document. *)
Definition truthy (v : value) : bool :=
  match v with
  | VNone => false
  | VBool b => b
  | VStr s => negb (String.eqb s "")
  | VList l => match l with [] => false | _ => true end
  end.

Definition json_truthy (j : json) : bool :=
  match j with
  | JNull => false
  | JBool b => b
  | JNum z => negb (Z.eqb z 0)
  | JStr s => negb (String.eqb s "")
  | JArr l => match l with [] => false | _ => true end
  | JObj l => match l with [] => false | _ => true end
  end.

(** [spaces.get(key, default)] on an [OrderedDict] built from the pairs: a
    later pair with the same key replaces the value of an earlier one. *)
Fixpoint json_get (key : string) (pairs : list (string * json)) (default : json) : json :=
  match pairs with
  | [] => default
  | (k, v) :: rest =>
    if decide (k = key) then json_get key rest v else json_get key rest default
  end.

(** ** The scene host, [maya.cmds]

    Modelled from the spec: the scene-graph host of section 6 is not in the
    sources; it is the in-memory scene below, with the commands [Rig] calls.
    A plug ["node.attr"] is the pair of the node and the attribute name.
    Commands raise on a node or attribute that does not exist, as the host
    does; [delete] removes the named nodes only. *)
Module cmds.

Definition no_object (name : string) : exn :=
  ValueError ("No object matches name: " ++ name).

(** Attribute [a] of node [n], if both exist. *)
Definition attr (w : World) (n a : string) : option value :=
  match dag w !! n with
  | Some nd => n_attrs nd !! a
  | None => None
  end.

(** [cmds.ls('*')]. *)
Definition all_nodes (w : World) : list string := (map_to_list (dag w)).*1.
Definition ls : M (list string) := λ w, (w, Ok (all_nodes w)).

(** [name] ends with [suffix]. *)
Definition ends_with (suffix name : string) : bool :=
  let n := String.length name in
  let k := String.length suffix in
  (k <=? n)%nat && String.eqb (String.substring (n - k) k name) suffix.

(** [cmds.ls('*' + suffix)]. *)
Definition ls_suffix (suffix : string) : M (list string) :=
  λ w, (w, Ok (filter (λ n, ends_with suffix n = true) (all_nodes w))).

(** [cmds.objExists(n)]. *)
Definition objExists (n : string) : M bool :=
  λ w, (w, Ok (bool_decide (is_Some (dag w !! n)))).

Definition children (w : World) (n : string) : list string :=
  (filter (λ kv, n_parent kv.2 = Some n) (map_to_list (dag w))).*1.

(** [cmds.listRelatives(n)]: the children, [None] when there is none. *)
Definition listRelatives (n : string) : M (option (list string)) :=
  λ w, match dag w !! n with
       | None => (w, Raise (no_object n))
       | Some _ => (w, Ok (match children w n with [] => None | l => Some l end))
       end.

(** [x] has [root] among its strict DAG ancestors. *)
Fixpoint is_under (w : World) (fuel : nat) (root x : string) : bool :=
  match fuel with
  | 0 => false
  | S fuel' =>
    match dag w !! x with
    | Some nd =>
      match n_parent nd with
      | Some p => if decide (p = root) then true else is_under w fuel' root p
      | None => false
      end
    | None => false
    end
  end.

Definition descendants (w : World) (n : string) : list string :=
  filter (λ x, is_under w (size (dag w)) n x = true) (all_nodes w).

(** [cmds.listRelatives(n, allDescendents=True)]. *)
Definition listRelatives_allDescendents (n : string) : M (option (list string)) :=
  λ w, match dag w !! n with
       | None => (w, Raise (no_object n))
       | Some _ => (w, Ok (match descendants w n with [] => None | l => Some l end))
       end.

(** [cmds.getAttr(n + '.' + a)]. *)
Definition getAttr (n a : string) : M value :=
  λ w, match attr w n a with
       | Some v => (w, Ok v)
       | None => (w, Raise (no_object (n ++ "." ++ a)))
       end.

Definition write_attr (n a : string) (v : value) (w : World) : World :=
  {| dag := alter (λ nd, {| n_parent := n_parent nd;
                            n_attrs := <[a := v]> (n_attrs nd) |}) n (dag w);
     conns := conns w; log := log w |}.

(** [cmds.setAttr(n + '.' + a, v)]. *)
Definition setAttr (n a : string) (v : value) : M unit :=
  λ w, match attr w n a with
       | Some _ => (write_attr n a v w, Ok tt)
       | None => (w, Raise (no_object (n ++ "." ++ a)))
       end.

(** [cmds.addAttr(n, longName=a, ..., defaultValue=v)]. *)
Definition addAttr (n a : string) (v : value) : M unit :=
  λ w, match dag w !! n with
       | None => (w, Raise (no_object n))
       | Some nd =>
         match n_attrs nd !! a with
         | Some _ => (w, Raise (RuntimeError ("Found attribute with the same name: " ++ a)))
         | None => (write_attr n a v w, Ok tt)
         end
       end.

(** [cmds.attributeQuery(a, node=n, exists=True)]. *)
Definition attributeQuery_exists (a n : string) : M bool :=
  λ w, match dag w !! n with
       | None => (w, Raise (no_object n))
       | Some nd => (w, Ok (bool_decide (is_Some (n_attrs nd !! a))))
       end.

(** [cmds.connectionInfo(n + a, sourceFromDestination=True)]: the plug
    that drives the given one; [None] is the empty string the host
    returns for a plug that nothing drives. *)
Definition connectionInfo_sourceFromDestination (dst : string * string)
    : M (option (string * string)) :=
  λ w, (w, Ok (conns w !! dst)).

(** [cmds.disconnectAttr(src, dst)]: an error unless [src] drives [dst]. *)
Definition disconnectAttr (src : option (string * string)) (dst : string * string)
    : M unit :=
  λ w, match src with
       | Some s =>
         if decide (conns w !! dst = Some s)
         then ({| dag := dag w; conns := delete dst (conns w); log := log w |}, Ok tt)
         else (w, Raise (RuntimeError "There is no connection to disconnect"))
       | None => (w, Raise (RuntimeError "There is no connection to disconnect"))
       end.

Definition delete_node (n : string) : M unit :=
  λ w, match dag w !! n with
       | None => (w, Raise (no_object n))
       | Some _ =>
         ({| dag := delete n (dag w);
             conns := filter (λ c, c.1.1 ≠ n ∧ c.2.1 ≠ n) (conns w);
             log := log w |}, Ok tt)
       end.

(** [cmds.delete(l)]. *)
Definition delete (l : list string) : M unit := for_each l delete_node.

End cmds.

(** ** The services the class calls

    Each is known by its interface only.  [recursion_limit] is what the
    interpreter leaves to the recursion of [sort_parent_module].  [all_rig_modules] maps a module
    type to the constructor of its class, called with the positional and
    the keyword arguments; [module_build], [module_update] and
    [module_publish] are the methods [_build], [update] and [publish] of the
    class of the module they are given.  [json_loads] is [None] where
    [json.loads] raises [ValueError]. *)
Record Services := {
  all_rig_modules : gmap string (list value → gmap string value → M Module);
  module_build : Module → M unit;
  module_update : Module → M unit;
  module_publish : Module → M unit;
  run_scripts : string → M unit;
  json_loads : string → option json;
  json_dumps : json → string;
  get_attributes_state : string → World → result json;
  set_attributes_state : string → json → M unit;
  get_shape_data : string → World → result json;
  create_space_switching : string → json → json → M unit;
  reset_node : string → M unit;
  recursion_limit : nat
}.

(** ** Fields of a node ([icarus.core.fields])

    Modelled from the spec: the field classes are not in the sources; a field
    of a node is an attribute stored on it (sections 3 and 6), read with
    [getAttr] and written with [setAttr]. *)
Module field.

(** A field holding a list of nodes ([controllers], [deform_joints]). *)
Definition get_list (n a : string) : M (list string) :=
  v ← cmds.getAttr n a;
  match v with
  | VList l => ret l
  | _ => raise (TypeError "object is not iterable")
  end.

(** A field holding one node or [None] ([parent_joint]). *)
Definition get_object (n a : string) : M (option string) :=
  v ← cmds.getAttr n a;
  match v with
  | VStr s => ret (Some s)
  | VNone => ret None
  | _ => raise (TypeError "not a node")
  end.

Definition set_object (n a : string) (o : option string) : M unit :=
  cmds.setAttr n a (match o with Some s => VStr s | None => VNone end).

(** [field.get() + '.attr'], or [field.get()] as the node a host command
    is given: the field must hold a node name. *)
Definition get_name (n a : string) : M string :=
  o ← get_object n a;
  match o with
  | Some s => ret s
  | None => raise (TypeError "unsupported operand type(s) for +: 'NoneType' and 'str'")
  end.

End field.

(** Modelled from the spec: the [Module] class is not in the sources; its
    [parent_module] is the optional reference to another module of section
    3, stored on the module's node. *)
Definition module_parent (w : World) (m : Module) : option Module :=
  match cmds.attr w m "parent_module" with
  | Some (VStr p) => Some p
  | _ => None
  end.

(** ** The [Rig] class

    The rig is the scene node ["RIG"]; [self.is_built], [self.modules_group]
    and [self.skeleton_group] are fields of that node.  The [undoable]
    decorator only groups the host's undo records and is left out.  The
    constructor and the creation of the three groups, which run before any
    of the methods below, are in [RigSetup]. *)
Module Rig.
Section rig.
Variable svc : Services.

Definition rig_node : string := "RIG".
Definition marker : string := "is_build_node".

(** [all_rig_modules[module_type](node, rig=self)] on an existing node:
    the class is looked up, the handle binds the node. *)
Definition wrap_module (node : string) : M Module :=
  module_type ← cmds.getAttr node "module_type";
  match module_type with
  | VStr t =>
    match all_rig_modules svc !! t with
    | Some _ => ret node
    | None => raise (KeyError t)
    end
  | _ => raise (KeyError "module_type")
  end.

Fixpoint wrap_modules (nodes : list string) : M (list Module) :=
  match nodes with
  | [] => ret []
  | node :: rest =>
    module ← wrap_module node;
    modules ← wrap_modules rest;
    ret (module :: modules)
  end.

(** The unsorted [modules] list of [rig_modules]. *)
Definition discover_modules : M (list Module) :=
  group ← field.get_name rig_node "modules_group";
  relatives ← cmds.listRelatives group;
  wrap_modules (default [] relatives).

(** The sorting loop of [rig_modules], reading [parent_module] in the
    current scene. *)
Definition sort_in_scene (modules : list Module) : M (list Module) :=
  λ w, match sort_modules (module_parent w) (recursion_limit svc) modules with
       | Some sorted_modules => (w, Ok sorted_modules)
       | None => (w, Raise RecursionError)
       end.

(** [Rig.rig_modules]. *)
Definition rig_modules : M (list Module) :=
  modules ← discover_modules;
  sort_in_scene modules.

(** [Rig.skeleton]. *)
Definition skeleton : M (list string) :=
  group ← field.get_name rig_node "skeleton_group";
  relatives ← cmds.listRelatives_allDescendents group;
  match relatives with
  | Some l => ret (reverse l)
  | None => raise (TypeError "argument to reversed() must be a sequence")
  end.

Fixpoint keep_build_nodes (nodes : list string) : M (list string) :=
  match nodes with
  | [] => ret []
  | node :: rest =>
    tagged ← cmds.attributeQuery_exists marker node;
    build_nodes ← keep_build_nodes rest;
    ret (if tagged : bool then node :: build_nodes else build_nodes)
  end.

(** [Rig.build_nodes]. *)
Definition build_nodes : M (list string) :=
  all_nodes ← cmds.ls;
  keep_build_nodes all_nodes.

(** [Rig.add_module]. *)
Definition add_module (module_type : string) (args : list value)
    (kwargs : gmap string value) : M Module :=
  built ← cmds.getAttr rig_node "is_built";
  if truthy built then
    raise (RuntimeError "Cannot add module when the rig is built.")
  else
    match all_rig_modules svc !! module_type with
    | None => raise (ValueError ("Module Type " ++ module_type ++ " is not valid"))
    | Some new => new args (<["rig" := VStr rig_node]> kwargs)
    end.

(** [Rig.get_module]. *)
Definition get_module (module_node_name : string) : M (option Module) :=
  modules ← rig_modules;
  match list_find (λ module, module = module_node_name) modules with
  | Some (_, module) => ret (Some module)
  | None =>
    logger WARNING ("Found no module named " ++ module_node_name ++ ".");;
    ret None
  end.

(** [module.parent_joint.get() in deform_joints]. *)
Definition in_joints (parent_joint : option string) (deform_joints : list string)
    : bool :=
  match parent_joint with
  | Some j => bool_decide (j ∈ deform_joints)
  | None => false
  end.

(** The body of the loop of [delete_module]. *)
Definition repair_parent_joint (module_to_del : Module)
    (deform_joints : list string) (module : Module) : M unit :=
  parent_joint ← field.get_object module "parent_joint";
  if in_joints parent_joint deform_joints then
    new_parent_joint ← field.get_object module_to_del "parent_joint";
    field.set_object module "parent_joint" new_parent_joint;;
    module_update svc module
  else ret tt.

(** [Rig.delete_module]. *)
Definition delete_module (module_node_name : string) : M unit :=
  built ← cmds.getAttr rig_node "is_built";
  if truthy built then
    logger ERROR "Cannot delete a module if the rig is built."
  else
    found ← get_module module_node_name;
    match found with
    | None =>
      raise (AttributeError "'NoneType' object has no attribute 'deform_joints'")
    | Some module_to_del =>
      deform_joints ← field.get_list module_to_del "deform_joints";
      modules ← rig_modules;
      for_each modules (repair_parent_joint module_to_del deform_joints);;
      cmds.delete [module_to_del];;
      cmds.delete deform_joints
    end.

(** [json.loads] of what [getAttr] returned. *)
Definition loads (v : value) : M json :=
  match v with
  | VStr s =>
    match json_loads svc s with
    | Some j => ret j
    | None => raise (ValueError "not a JSON document")
    end
  | _ => raise (TypeError "expected string or buffer")
  end.

(** First loop of [build], body for one controller. *)
Definition restore_attributes_state (ctl : string) : M unit :=
  attributes_state ← cmds.getAttr ctl "attributes_state";
  if truthy attributes_state then
    state ← loads attributes_state;
    set_attributes_state svc ctl state
  else ret tt.

(** First loop of [build], body for one module. *)
Definition build_module (module : Module) : M unit :=
  logger INFO ("Building: " ++ module);;
  module_build svc module;;
  controllers ← field.get_list module "controllers";
  for_each controllers restore_attributes_state;;
  placement_group ← field.get_name module "placement_group";
  cmds.setAttr placement_group "visibility" (VBool false).

(** From the first snapshot to [build_nodes]; the sets of node names are
    lists without repetition, the difference keeps the host's order. *)
Definition build_pass : M (list string) :=
  nodes_before_build ← cmds.ls;
  modules ← rig_modules;
  for_each modules build_module;;
  nodes_after_build ← cmds.ls;
  ret (list_difference nodes_after_build nodes_before_build).

(** Second loop of [build], body for one controller. *)
Definition restore_parent_spaces (ctl : string) : M unit :=
  parent_spaces ← cmds.getAttr ctl "parent_space_data";
  if negb (truthy parent_spaces) then ret tt
  else
    spaces ← loads parent_spaces;
    match spaces with
    | JObj pairs =>
      let parents := json_get "parents" pairs (JArr []) in
      let space_type := json_get "space_type" pairs (JStr "parent") in
      if json_truthy parents then
        create_space_switching svc ctl parents space_type
      else ret tt
    | _ => ret tt
    end.

(** Second loop of [build]. *)
Definition parent_space_pass : M unit :=
  modules ← rig_modules;
  for_each modules (λ module,
    controllers ← field.get_list module "controllers";
    for_each controllers restore_parent_spaces).

(** [Rig._tag_nodes_for_unbuild]. *)
Definition _tag_nodes_for_unbuild (nodes : list string) : M unit :=
  for_each nodes (λ node, cmds.addAttr node marker (VBool true)).

(** [build] after [build_nodes] is computed. *)
Definition build_finish (build_nodes : list string) : M unit :=
  parent_space_pass;;
  run_scripts svc "post_build";;
  _tag_nodes_for_unbuild build_nodes;;
  cmds.setAttr rig_node "is_built" (VBool true);;
  logger INFO "Building the rig took {}s".

(** [Rig.build]; the clock is only logged. *)
Definition build : M unit :=
  run_scripts svc "pre_build";;
  build_nodes ← build_pass;
  build_finish build_nodes.

(** [Rig.reset_pose]. *)
Definition reset_pose : M unit :=
  controls ← cmds.ls_suffix "_ctl";
  for_each controls (reset_node svc).

(** First loop of [unbuild], body for one controller. *)
Definition capture_state (ctl : string) : M unit :=
  try_pass (
    shape_data ← observe (get_shape_data svc ctl);
    cmds.setAttr ctl "shape_data" (VStr (json_dumps svc shape_data)));;
  attributes_state ← observe (get_attributes_state svc ctl);
  cmds.setAttr ctl "attributes_state" (VStr (json_dumps svc attributes_state)).

(** First loop of [unbuild], body for one module. *)
Definition capture_module (module : Module) : M unit :=
  controllers ← field.get_list module "controllers";
  for_each controllers capture_state;;
  placement_group ← field.get_name module "placement_group";
  cmds.setAttr placement_group "visibility" (VBool true).

(** Second loop of [unbuild], body for one joint. *)
Definition disconnect_joint (node : string) : M unit :=
  for_each ["translate"; "rotate"; "scale"] (λ attribute,
    input_attr ← cmds.connectionInfo_sourceFromDestination (node, attribute);
    cmds.disconnectAttr input_attr (node, attribute)).

(** [unbuild] up to the deletion of the build nodes. *)
Definition unbuild_purge : M unit :=
  modules ← rig_modules;
  for_each modules capture_module;;
  joints ← skeleton;
  for_each joints disconnect_joint;;
  nodes ← build_nodes;
  cmds.delete nodes.

(** [unbuild] after the deletion. *)
Definition unbuild_flags : M unit :=
  modules ← rig_modules;
  for_each modules (λ module, cmds.setAttr module "is_built" (VBool false));;
  cmds.setAttr rig_node "is_built" (VBool false).

(** [Rig.unbuild]. *)
Definition unbuild : M unit :=
  run_scripts svc "pre_unbuild";;
  reset_pose;;
  unbuild_purge;;
  unbuild_flags;;
  run_scripts svc "post_unbuild".

(** [Rig.publish]. *)
Definition publish : M unit :=
  run_scripts svc "pre_publish";;
  group ← field.get_name rig_node "skeleton_group";
  cmds.setAttr group "visibility" (VBool false);;
  modules ← rig_modules;
  for_each modules (λ module,
    logger INFO ("Publishing: " ++ module);;
    module_publish svc module);;
  run_scripts svc "post_publish".

End rig.
End Rig.

(** ** A JSON codec for the documents the rig stores

    [json] itself is Python's; this codec stands in for it where a concrete
    scene is run.  It reads objects, arrays, strings without escapes,
    integers and the three literals, and rejects everything else. *)
Module Codec.

Definition quote : Ascii.ascii := "034"%char.
Definition q : string := String quote EmptyString.

Fixpoint skip_ws (s : string) : string :=
  match s with
  | String " " r => skip_ws r
  | _ => s
  end.

(** The characters up to the closing quote, and what follows it. *)
Fixpoint read_string (s : string) : option (string * string) :=
  match s with
  | EmptyString => None
  | String c r =>
    if Ascii.eqb c quote then Some (EmptyString, r)
    else if Ascii.eqb c "\"%char then None
    else match read_string r with
         | Some (body, rest) => Some (String c body, rest)
         | None => None
         end
  end.

Definition digit (c : Ascii.ascii) : option Z :=
  let n := Ascii.nat_of_ascii c in
  if (48 <=? n)%nat && (n <=? 57)%nat then Some (Z.of_nat (n - 48)) else None.

Fixpoint read_digits (s : string) (acc : Z) : Z * string :=
  match s with
  | String c r =>
    match digit c with
    | Some d => read_digits r (10 * acc + d)%Z
    | None => (acc, s)
    end
  | EmptyString => (acc, s)
  end.

Definition read_literal (word : string) (j : json) (s : string)
    : option (json * string) :=
  if String.prefix word s
  then Some (j, String.substring (String.length word)
                  (String.length s - String.length word) s)
  else None.

Fixpoint read_value (fuel : nat) (s : string) : option (json * string) :=
  match fuel with
  | 0 => None
  | S fuel' =>
    match skip_ws s with
    | String "{" r =>
      match skip_ws r with
      | String "}" r' => Some (JObj [], r')
      | _ => read_members fuel' r []
      end
    | String "[" r =>
      match skip_ws r with
      | String "]" r' => Some (JArr [], r')
      | _ => read_items fuel' r []
      end
    | String "t" _ => read_literal "true" (JBool true) (skip_ws s)
    | String "f" _ => read_literal "false" (JBool false) (skip_ws s)
    | String "n" _ => read_literal "null" JNull (skip_ws s)
    | String "-" (String c r) =>
      match digit c with
      | Some d => let '(z, rest) := read_digits r d in Some (JNum (- z), rest)
      | None => None
      end
    | String c r =>
      if Ascii.eqb c quote then
        match read_string r with
        | Some (body, rest) => Some (JStr body, rest)
        | None => None
        end
      else
        match digit c with
        | Some d => let '(z, rest) := read_digits r d in Some (JNum z, rest)
        | None => None
        end
    | EmptyString => None
    end
  end
with read_items (fuel : nat) (s : string) (acc : list json)
    : option (json * string) :=
  match fuel with
  | 0 => None
  | S fuel' =>
    match read_value fuel' s with
    | Some (v, rest) =>
      match skip_ws rest with
      | String "," r => read_items fuel' r (acc ++ [v])
      | String "]" r => Some (JArr (acc ++ [v]), r)
      | _ => None
      end
    | None => None
    end
  end
with read_members (fuel : nat) (s : string) (acc : list (string * json))
    : option (json * string) :=
  match fuel with
  | 0 => None
  | S fuel' =>
    match skip_ws s with
    | String c r =>
      if Ascii.eqb c quote then
        match read_string r with
        | Some (key, rest) =>
          match skip_ws rest with
          | String ":" r' =>
            match read_value fuel' r' with
            | Some (v, rest') =>
              match skip_ws rest' with
              | String "," r'' => read_members fuel' r'' (acc ++ [(key, v)])
              | String "}" r'' => Some (JObj (acc ++ [(key, v)]), r'')
              | _ => None
              end
            | None => None
            end
          | _ => None
          end
        | None => None
        end
      else None
    | EmptyString => None
    end
  end.

Definition loads (s : string) : option json :=
  match read_value (2 * String.length s + 2) s with
  | Some (j, rest) =>
    match skip_ws rest with
    | EmptyString => Some j
    | _ => None
    end
  | None => None
  end.

Fixpoint join (sep : string) (l : list string) : string :=
  match l with
  | [] => ""
  | [x] => x
  | x :: r => x ++ sep ++ join sep r
  end.

Fixpoint dumps (j : json) : string :=
  match j with
  | JNull => "null"
  | JBool true => "true"
  | JBool false => "false"
  | JNum z => pretty z
  | JStr s => q ++ s ++ q
  | JArr l => "[" ++ join ", " (map dumps l) ++ "]"
  | JObj l =>
    "{" ++ join ", " (map (λ kv, (q ++ kv.1 ++ q ++ ": " ++ dumps kv.2)%string) l) ++ "}"
  end.

End Codec.

(** ** A concrete rig: three chained modules and the services of a small studio

    Used to run the class on explicit scenes. *)
Module Studio.

Definition node (parent : option string) (attrs : list (string * value)) : Node :=
  {| n_parent := parent; n_attrs := list_to_map attrs |}.

Definition transform (parent : option string) (attrs : list (string * value)) : Node :=
  node parent (("visibility", VBool true) :: attrs).

(** Host commands the services use. *)
Definition createNode (name : string) : M unit :=
  λ w, ({| dag := <[name := transform None []]> (dag w);
           conns := conns w; log := log w |}, Ok tt).

Definition connectAttr (src dst : string * string) : M unit :=
  λ w, ({| dag := dag w; conns := <[dst := src]> (conns w); log := log w |}, Ok tt).

Definition parent (child : string) (new_parent : option string) : M unit :=
  λ w, ({| dag := alter (λ nd, {| n_parent := new_parent; n_attrs := n_attrs nd |})
                    child (dag w);
           conns := conns w; log := log w |}, Ok tt).

(** The [chain] module class. *)
Definition chain_build (module : Module) : M unit :=
  joints ← field.get_list module "deform_joints";
  createNode (module +:+ "_rig");;
  for_each joints (λ joint,
    for_each ["translate"; "rotate"; "scale"] (λ attribute,
      connectAttr (module +:+ "_rig", attribute) (joint, attribute)));;
  cmds.setAttr module "is_built" (VBool true).

Definition chain_update (module : Module) : M unit :=
  parent_joint ← field.get_object module "parent_joint";
  joints ← field.get_list module "deform_joints";
  for_each (take 1 joints) (λ joint,
    parent joint (Some (default "SKELETON" parent_joint))).

Definition chain_new (args : list value) (kwargs : gmap string value) : M Module :=
  let name := match kwargs !! "name" with Some (VStr n) => n | _ => "chain" end in
  λ w, ({| dag :=
             <[name := node (Some "MODULES")
                 [("module_type", VStr "chain"); ("parent_module", VNone);
                  ("parent_joint", default VNone (kwargs !! "parent_joint"));
                  ("deform_joints", VList []); ("controllers", VList []);
                  ("placement_group", VStr (name +:+ "_placement"));
                  ("is_built", VBool false)]]>
             (<[name +:+ "_placement" := transform (Some name) []]> (dag w));
           conns := conns w; log := log w |}, Ok name).

Definition shape_of (ctl : string) (w : World) : result json :=
  match cmds.attr w ctl "curve" with
  | Some (VStr curve) => Ok (JStr curve)
  | _ => Raise (RuntimeError "no shape to read")
  end.

(** Services that create nodes only inside the modules' build routines. *)
Definition services : Services := {|
  all_rig_modules := {[ "chain" := chain_new ]};
  module_build := chain_build;
  module_update := chain_update;
  module_publish := λ _, ret tt;
  run_scripts := λ _, ret tt;
  json_loads := Codec.loads;
  json_dumps := Codec.dumps;
  get_attributes_state := λ _ _, Ok (JObj [("locked", JArr [])]);
  set_attributes_state := λ _ _, ret tt;
  get_shape_data := shape_of;
  create_space_switching := λ ctl parents _,
    match parents with
    | JArr (JStr target :: _) => connectAttr (target, "worldMatrix") (ctl, "space")
    | _ => ret tt
    end;
  reset_node := λ ctl, cmds.setAttr ctl "translate" (VStr "0 0 0");
  recursion_limit := 1000
|}.

(** The same studio, with a space switch that creates its constraint node
    and a [post_build] script that creates a node. *)
Definition services_with_extras : Services := {|
  all_rig_modules := all_rig_modules services;
  module_build := module_build services;
  module_update := module_update services;
  module_publish := module_publish services;
  run_scripts := λ phase,
    if decide (phase = "post_build") then createNode "post_build_locator" else ret tt;
  json_loads := json_loads services;
  json_dumps := json_dumps services;
  get_attributes_state := get_attributes_state services;
  set_attributes_state := set_attributes_state services;
  get_shape_data := get_shape_data services;
  create_space_switching := λ ctl _ _, createNode (ctl +:+ "_space");
  reset_node := reset_node services;
  recursion_limit := recursion_limit services
|}.

Definition module_node (parent_module parent_joint : value) (name : string) : Node :=
  node (Some "MODULES")
    [("module_type", VStr "chain"); ("parent_module", parent_module);
     ("parent_joint", parent_joint);
     ("deform_joints", VList [name +:+ "_jnt"]);
     ("controllers", VList [name +:+ "_ctl"]);
     ("placement_group", VStr (name +:+ "_placement"));
     ("is_built", VBool false)].

Definition control (name : string) (parent_space_data : string)
    (extra : list (string * value)) : Node :=
  transform (Some name)
    ([("translate", VStr "1 2 3"); ("shape_data", VStr "");
      ("attributes_state", VStr "");
      ("parent_space_data", VStr parent_space_data)] ++ extra).

(** [{"parents": ["spine_ctl"], "space_type": "parent"}]. *)
Definition arm_spaces : string :=
  Codec.dumps (JObj [("parents", JArr [JStr "spine_ctl"]); ("space_type", JStr "parent")]).

Definition rig_fields (is_built : bool) : Node :=
  transform None
    [("is_initialized", VBool true); ("is_built", VBool is_built);
     ("modules_group", VStr "MODULES"); ("extras_group", VStr "EXTRAS");
     ("skeleton_group", VStr "SKELETON")].

Definition nodes (spine_spaces : string) : gmap string Node :=
  list_to_map
    [("RIG", rig_fields false);
     ("MODULES", transform (Some "RIG") []);
     ("EXTRAS", transform (Some "RIG") []);
     ("SKELETON", transform (Some "RIG") []);
     ("root", module_node VNone VNone "root");
     ("spine", module_node (VStr "root") (VStr "root_jnt") "spine");
     ("arm", module_node (VStr "spine") (VStr "spine_jnt") "arm");
     ("root_placement", transform (Some "root") []);
     ("spine_placement", transform (Some "spine") []);
     ("arm_placement", transform (Some "arm") []);
     ("root_ctl", control "root" "" [("curve", VStr "square")]);
     ("spine_ctl", control "spine" spine_spaces [("curve", VStr "circle")]);
     ("arm_ctl", control "arm" arm_spaces []);
     ("root_jnt", transform (Some "SKELETON") []);
     ("spine_jnt", transform (Some "root_jnt") []);
     ("arm_jnt", transform (Some "spine_jnt") [])].

(** An unbuilt rig: root, spine under root, arm under spine. *)
Definition scene : World := {| dag := nodes ""; conns := ∅; log := [] |}.

(** The same rig with a corrupt parent-space blob on the spine control. *)
Definition scene_bad_json : World :=
  {| dag := nodes "{bad json"; conns := ∅; log := [] |}.

(** The same rig, flagged as built. *)
Definition scene_flagged_built : World :=
  {| dag := <["RIG" := rig_fields true]> (nodes ""); conns := ∅; log := [] |}.

(** A rig without modules or joints. *)
Definition empty_rig : World :=
  {| dag := list_to_map
       [("RIG", rig_fields false);
        ("MODULES", transform (Some "RIG") []);
        ("EXTRAS", transform (Some "RIG") []);
        ("SKELETON", transform (Some "RIG") [])];
     conns := ∅; log := [] |}.

End Studio.

(** ** Small parent graphs for the sorter *)

(** A and B are each other's parent. *)
Definition two_cycle (m : Module) : option Module :=
  if decide (m = "A") then Some "B"
  else if decide (m = "B") then Some "A"
  else None.

(** The chain A <- B <- C. *)
Definition three_chain (m : Module) : option Module :=
  if decide (m = "C") then Some "B"
  else if decide (m = "B") then Some "A"
  else None.

(** Every parent reference stored in the scene points to a node of lower
    rank: a decidable certificate that the scene's parent relation has no
    cycle. *)
Definition rank_ok (rank : Module → nat) (m : Module) (nd : Node) : bool :=
  match n_attrs nd !! "parent_module" with
  | Some (VStr p) => bool_decide (rank p < rank m)%nat
  | _ => true
  end.

Definition ranked (rank : Module → nat) (w : World) : bool :=
  bool_decide (map_Forall (λ m nd, rank_ok rank m nd = true) (dag w)).

(** Depth of the modules of the studio rig in their chain. *)
Definition studio_rank (m : Module) : nat :=
  if decide (m = "arm") then 2
  else if decide (m = "spine") then 1
  else 0.

(** ** Frames: what a computation leaves unchanged *)

(** A computation that never changes the world. *)
Definition readonly {A} (f : M A) : Prop := ∀ w, (f w).1 = w.

(** A computation whose every run relates the worlds before and after. *)
Definition preserves {A} (R : relation World) (f : M A) : Prop :=
  ∀ w w' r, f w = (w', r) → R w w'.

(** Node [n] carries the [is_build_node] marker. *)
Definition tagged (w : World) (n : string) : Prop :=
  is_Some (cmds.attr w n Rig.marker).

#[global] Instance tagged_dec w n : Decision (tagged w n).
Proof. unfold tagged. apply _. Defined.

(** The scene is untouched (connections and log may differ). *)
Definition same_dag : relation World := λ w w', dag w' = dag w.

(** The same nodes exist and the same nodes carry the marker. *)
Definition quiet : relation World := λ w w',
  dom (dag w') = dom (dag w) ∧ ∀ n, tagged w' n ↔ tagged w n.

(** What a module's build routine may do to the node set: no node is
    deleted and no node receives the marker. *)
Definition additive : relation World := λ w w',
  dom (dag w) ⊆ dom (dag w') ∧ ∀ n, tagged w' n → tagged w n.

(** A marker that is set stays set. *)
Definition keeps_marks : relation World := λ w w',
  ∀ n, cmds.attr w n Rig.marker = Some (VBool true) →
       cmds.attr w' n Rig.marker = Some (VBool true).

(** Attribute [a] keeps its value on every node. *)
Definition keeps_attr (a : string) : relation World := λ w w',
  ∀ n, cmds.attr w' n a = cmds.attr w n a.

(** While the module to delete keeps [goal] as its [parent_joint], every
    [parent_joint] in the scene is either left as it is or set to [goal]. *)
Definition repairs (target : Module) (goal : option value) : relation World := λ w w',
  cmds.attr w target "parent_joint" = goal →
  cmds.attr w' target "parent_joint" = goal
  ∧ ∀ n, cmds.attr w' n "parent_joint" = cmds.attr w n "parent_joint"
         ∨ cmds.attr w' n "parent_joint" = goal.

(** The attributes [unbuild] rewrites on the nodes it keeps. *)
Definition volatile : list string :=
  ["shape_data"; "attributes_state"; "visibility"; "is_built"].

(** What [unbuild] may do to a node it keeps: the parent and every other
    attribute stay, a visibility that is on stays on, an [is_built] flag
    that is off stays off. *)
Definition settles (nd nd' : Node) : Prop :=
  n_parent nd' = n_parent nd
  ∧ (∀ a, a ∉ volatile → n_attrs nd' !! a = n_attrs nd !! a)
  ∧ (n_attrs nd !! "visibility" = Some (VBool true) →
     n_attrs nd' !! "visibility" = Some (VBool true))
  ∧ (n_attrs nd !! "is_built" = Some (VBool false) →
     n_attrs nd' !! "is_built" = Some (VBool false)).

(** Every node of the later world was a node of the earlier one, and
    settled. *)
Definition survives : relation World := λ w w',
  ∀ n nd', dag w' !! n = Some nd' → ∃ nd, dag w !! n = Some nd ∧ settles nd nd'.

(** The writes of [unbuild]. *)
Definition settling_write (a : string) (v : value) : Prop :=
  a = "shape_data" ∨ a = "attributes_state"
  ∨ (a = "visibility" ∧ v = VBool true)
  ∨ (a = "is_built" ∧ v = VBool false).

(** The studio with an attribute-state service that fails. *)
Definition studio_without_attribute_states : Services := {|
  all_rig_modules := all_rig_modules Studio.services;
  module_build := module_build Studio.services;
  module_update := module_update Studio.services;
  module_publish := module_publish Studio.services;
  run_scripts := run_scripts Studio.services;
  json_loads := json_loads Studio.services;
  json_dumps := json_dumps Studio.services;
  get_attributes_state := λ _ _, Raise (RuntimeError "no attribute to read");
  set_attributes_state := set_attributes_state Studio.services;
  get_shape_data := get_shape_data Studio.services;
  create_space_switching := create_space_switching Studio.services;
  reset_node := reset_node Studio.services;
  recursion_limit := recursion_limit Studio.services
|}.

(** The studio with an interpreter that has no frame left for a nested call
    of [sort_parent_module]. *)
Definition studio_without_recursion : Services := {|
  all_rig_modules := all_rig_modules Studio.services;
  module_build := module_build Studio.services;
  module_update := module_update Studio.services;
  module_publish := module_publish Studio.services;
  run_scripts := run_scripts Studio.services;
  json_loads := json_loads Studio.services;
  json_dumps := json_dumps Studio.services;
  get_attributes_state := get_attributes_state Studio.services;
  set_attributes_state := set_attributes_state Studio.services;
  get_shape_data := get_shape_data Studio.services;
  create_space_switching := create_space_switching Studio.services;
  reset_node := reset_node Studio.services;
  recursion_limit := 0
|}.

(** The joint a node names as its [parent_joint], as [delete_module] reads
    it. *)
Definition parent_joint_of (w : World) (n : string) : option string :=
  match cmds.attr w n "parent_joint" with
  | Some (VStr j) => Some j
  | _ => None
  end.

(** A node whose [parent_joint] is not among [joints] keeps it. *)
Definition keeps_independent (joints : list string) (n : string) : relation World :=
  λ w w', Rig.in_joints (parent_joint_of w n) joints = false →
          cmds.attr w' n "parent_joint" = cmds.attr w n "parent_joint".

(** The same nodes exist. *)
Definition same_nodes : relation World := λ w w', dom (dag w') = dom (dag w).

(** What winding a rig down may do: every node of the later world was a
    node of the earlier one, with the same parent and the same
    [skeleton_group] field, and every connection of the later world was a
    connection of the earlier one. *)
Definition unwinds : relation World := λ w w',
  (∀ n nd', dag w' !! n = Some nd' →
     ∃ nd, dag w !! n = Some nd ∧ n_parent nd' = n_parent nd
           ∧ n_attrs nd' !! "skeleton_group" = n_attrs nd !! "skeleton_group")
  ∧ (∀ plug source, conns w' !! plug = Some source → conns w !! plug = Some source).

(** The transform channels [unbuild] disconnects on each joint. *)
Definition channels : list string := ["translate"; "rotate"; "scale"].

(** The log is left as it is. *)
Definition keeps_log : relation World := λ w w', log w' = log w.

(** The lines [publish] writes for a list of modules. *)
Definition publishing (modules : list Module) : list (level * string) :=
  (λ module, (INFO, "Publishing: " +:+ module)) <$> modules.

(** ** Construction of the rig: [Rig.__init__] and the three groups *)

(** The host commands that create and place a node. *)
Module cmds_edit.

(** The name the host gives a new node: [name] when it is free, otherwise
    [name] followed by the first number that makes it free. *)
Fixpoint numbered (w : World) (name : string) (k fuel : nat) : string :=
  match fuel with
  | 0 => name +:+ pretty k
  | S fuel =>
    if bool_decide (is_Some (dag w !! (name +:+ pretty k)))
    then numbered w name (S k) fuel
    else name +:+ pretty k
  end.

Definition unique_name (w : World) (name : string) : string :=
  if bool_decide (is_Some (dag w !! name))
  then numbered w name 1 (size (dag w))
  else name.

(** [cmds.createNode('transform', name=name)]: a new transform at the top
    level; returns the name it got. *)
Definition createNode (name : string) : M string :=
  λ w, let node := unique_name w name in
       ({| dag := <[node := {| n_parent := None;
                               n_attrs := {["visibility" := VBool true]} |}]> (dag w);
           conns := conns w; log := log w |}, Ok node).

(** [cmds.parent(child, new_parent)]. *)
Definition parent (child new_parent : string) : M unit :=
  λ w, match dag w !! child with
       | None => (w, Raise (cmds.no_object child))
       | Some nd =>
         match dag w !! new_parent with
         | None => (w, Raise (cmds.no_object new_parent))
         | Some _ =>
           if decide (n_parent nd = Some new_parent)
           then (w, Raise (RuntimeError "Maya command error"))
           else ({| dag := <[child := {| n_parent := Some new_parent;
                                         n_attrs := n_attrs nd |}]> (dag w);
                    conns := conns w; log := log w |}, Ok tt)
         end
       end.

End cmds_edit.

Module RigSetup.
Section setup.
Variable svc : Services.

(** [super(Rig, self).__init__('RIG')]: the constructor of [IcarusNode],
    which is not in the sources. *)
Variable icarus_node_init : string → M unit.

(** [icarus.config.default_modules]: module types with the keywords of their
    constructors, in iteration order. *)
Variable default_modules : list (string * gmap string value).

(** One of the three blocks of [_create_basic_hierarchy]: the group [name],
    referenced by the field [fld] of the rig. *)
Definition create_group (name fld : string) : M unit :=
  present ← cmds.objExists name;
  if present : bool then ret tt
  else
    node ← cmds_edit.createNode name;
    field.set_object Rig.rig_node fld (Some node);;
    group ← field.get_name Rig.rig_node fld;
    cmds_edit.parent group Rig.rig_node.

(** [Rig._create_basic_hierarchy]. *)
Definition _create_basic_hierarchy : M unit :=
  create_group "MODULES" "modules_group";;
  create_group "EXTRAS" "extras_group";;
  create_group "SKELETON" "skeleton_group".

(** [Rig._add_default_modules]. *)
Definition _add_default_modules : M unit :=
  for_each default_modules (λ default,
    Rig.add_module svc default.1 [] default.2;; ret tt).

(** [Rig.__init__]. *)
Definition __init__ : M unit :=
  icarus_node_init Rig.rig_node;;
  is_initialized ← cmds.getAttr Rig.rig_node "is_initialized";
  if truthy is_initialized then ret tt
  else
    _create_basic_hierarchy;;
    _add_default_modules;;
    cmds.setAttr Rig.rig_node "is_initialized" (VBool true).

End setup.
End RigSetup.

(** The three groups and the fields that reference them. *)
Definition groups : list (string * string) :=
  [("MODULES", "modules_group"); ("EXTRAS", "extras_group");
   ("SKELETON", "skeleton_group")].

(** A rig node before its construction. *)
Definition bare_rig_node : Node :=
  Studio.transform None
    [("is_initialized", VBool false); ("is_built", VBool false);
     ("modules_group", VNone); ("extras_group", VNone);
     ("skeleton_group", VNone)].

(** A scene that holds only the rig node. *)
Definition bare_scene : World :=
  {| dag := {["RIG" := bare_rig_node]}; conns := ∅; log := [] |}.

(** The same scene with a foreign node named [SKELETON]. *)
Definition clash_scene : World :=
  {| dag := <["SKELETON" := Studio.transform None []]> {["RIG" := bare_rig_node]};
     conns := ∅; log := [] |}.

(** * The GUI commands: [mop/ui/commands.py] *)
Module commands.

(** [term in module] on strings: [term] occurs in [module]. *)
Fixpoint contains (term module : string) : bool :=
  String.prefix term module
  || match module with
     | EmptyString => false
     | String _ rest => contains term rest
     end.

(** The Python session: [sys.modules], the state of the GUI and the log. *)
Record Session (V U : Type) := {
  sys_modules : gmap string V;
  ui : U;
  out : list (level * string)
}.
Arguments sys_modules {V U} s.
Arguments ui {V U} s.
Arguments out {V U} s.

(** A step that raises ends the command, a step that returns hands its
    value to the next. *)
Definition and_then {S A B} (m : S → S * result A) (k : A → S → S * result B)
    : S → S * result B :=
  λ s, match m s with
       | (s', Ok a) => k a s'
       | (s', Raise e) => (s', Raise e)
       end.

Section reload.
Context {V U : Type}.

(** [import mop.ui], [mop.ui.is_running()], [mop.ui.close()] and
    [mop.ui.show()]: the GUI package is not in the sources. *)
Variable import_ui : Session V U → Session V U * result unit.
Variable is_running : Session V U → Session V U * result bool.
Variable close : Session V U → Session V U * result unit.
Variable show : Session V U → Session V U * result unit.

Definition search : list string := ["mop"; "shapeshifter"; "facseditor"].

(** The inner loop: [module] is appended at the first term that occurs in
    it, and the loop is left. *)
Fixpoint append_if_found (terms : list string) (module : string)
    (mop_modules : list string) : list string :=
  match terms with
  | [] => mop_modules
  | term :: terms =>
    if contains term module then mop_modules ++ [module]
    else append_if_found terms module mop_modules
  end.

(** The loop over the names in [sys.modules]. *)
Fixpoint collect (modules : list string) (mop_modules : list string) : list string :=
  match modules with
  | [] => mop_modules
  | module :: modules => collect modules (append_if_found search module mop_modules)
  end.

(** [del sys.modules[module]]. *)
Definition del_module (module : string) : Session V U → Session V U * result unit :=
  λ s, match sys_modules s !! module with
       | Some _ => ({| sys_modules := delete module (sys_modules s);
                       ui := ui s; out := out s |}, Ok tt)
       | None => (s, Raise (KeyError module))
       end.

Fixpoint del_modules (mop_modules : list string)
    : Session V U → Session V U * result unit :=
  match mop_modules with
  | [] => λ s, (s, Ok tt)
  | module :: mop_modules =>
    and_then (del_module module) (λ _, del_modules mop_modules)
  end.

Definition info (msg : string) : Session V U → Session V U * result unit :=
  λ s, ({| sys_modules := sys_modules s; ui := ui s;
           out := out s ++ [(INFO, msg)] |}, Ok tt).

(** [reload_mop]. *)
Definition reload_mop : Session V U → Session V U * result unit :=
  and_then import_ui (λ _,
  and_then is_running (λ running,
  and_then close (λ _,
  and_then (λ s, (s, Ok (collect (map_to_list (sys_modules s)).*1 []))) (λ mop_modules,
  and_then (del_modules mop_modules) (λ _,
  and_then (if running : bool then show else λ s, (s, Ok tt)) (λ _,
  info "Reloaded mop modules.")))))).

End reload.

(** A module of the package: one of the search terms occurs in its name. *)
Definition mop_module (module : string) : bool :=
  existsb (λ term, contains term module) search.

(** The session without the modules of the package. *)
Definition purged {V U} (s : Session V U) : Session V U :=
  {| sys_modules := filter (λ entry, mop_module entry.1 = false) (sys_modules s);
     ui := ui s; out := out s |}.

(** A session whose GUI state is whether the window is open. *)
Definition window_is_running : Session unit bool → Session unit bool * result bool :=
  λ s, (s, Ok (ui s)).

Definition window (open : bool) : Session unit bool → Session unit bool * result unit :=
  λ s, ({| sys_modules := sys_modules s; ui := open; out := out s |}, Ok tt).

Definition session : Session unit bool :=
  {| sys_modules := list_to_map
       [("os", tt); ("mop", tt); ("mop.ui", tt); ("mop.ui.commands", tt);
        ("json", tt); ("mop.vendor.shapeshifter", tt); ("facseditor", tt);
        ("maya.cmds", tt); ("desktop", tt)];
     ui := true; out := [] |}.

End commands.

(** * Properties *)

(** ** The module sorter *)

Lemma pop_Some l x r : pop l = Some (x, r) → l = r ++ [x].
Proof.
  unfold pop. destruct (last l) as [y|] eqn:E; [|done].
  intros [= <- <-]. apply last_Some in E as [l' ->].
  rewrite length_app. simpl.
  replace (length l' + 1 - 1) with (length l') by lia.
  by rewrite take_app_length.
Qed.

Lemma pop_None l : pop l = None → l = [].
Proof.
  unfold pop. destruct (last l) eqn:E; [done|]. intros _. by apply last_None.
Qed.

Lemma remove_first_perm x l : x ∈ l → l ≡ₚ x :: remove_first x l.
Proof.
  induction l as [|y l IH]; [by intros ?%elem_of_nil|].
  intros Hx. simpl. case_decide as E; [by subst|].
  apply elem_of_cons in Hx as [?|Hx]; [done|].
  rewrite (IH Hx) at 1. apply Permutation_swap.
Qed.

Lemma remove_first_ne x y l : y ∈ l → y ≠ x → y ∈ remove_first x l.
Proof.
  intros Hy Hne. induction l as [|z l IH]; [done|].
  simpl. case_decide; subst.
  - apply elem_of_cons in Hy as [?|?]; [done|done].
  - apply elem_of_cons in Hy as [->|?]; [left|right; auto].
Qed.

Lemma remove_first_elem x y l : y ∈ remove_first x l → y ∈ l.
Proof.
  induction l as [|z l IH]; [done|]. simpl. case_decide.
  - by right.
  - intros [->|?]%elem_of_cons; [by left|right; auto].
Qed.

Section sorter_facts.
Variable parent_module : Module → option Module.
Variable recursion_limit : nat.

Lemma sort_parent_module_inv depth m modules sorted modules' sorted' :
  sort_parent_module parent_module depth m modules sorted = Some (modules', sorted') →
  modules' ++ sorted' ≡ₚ m :: modules ++ sorted
  ∧ ∃ tail, sorted' = sorted ++ tail ++ [m].
Proof.
  revert m modules modules' sorted'.
  induction depth as [|depth IH]; intros m modules modules' sorted'; [done|].
  simpl. destruct (parent_module m) as [p|]; [case_decide as Hin|].
  - destruct (sort_parent_module _ _ _ _ _) as [[ms ss]|] eqn:E; [|done].
    intros [= <- <-]. apply IH in E as [Hperm [tail ->]]. split.
    + rewrite (remove_first_perm p modules Hin).
      rewrite app_assoc, Hperm.
      rewrite <- (Permutation_cons_append _ m). simpl.
      by rewrite Permutation_swap.
    + exists (tail ++ [p]). by rewrite <- !app_assoc.
  - intros [= <- <-]. split; [|by exists []].
    by rewrite app_assoc, <- Permutation_cons_append, Permutation_middle.
  - intros [= <- <-]. split; [|by exists []].
    by rewrite app_assoc, <- Permutation_cons_append, Permutation_middle.
Qed.

Lemma sort_parent_module_total depth m modules sorted :
  length modules < depth →
  is_Some (sort_parent_module parent_module depth m modules sorted).
Proof.
  revert m modules. induction depth as [|depth IH]; intros m modules Hlen; [lia|].
  simpl. destruct (parent_module m) as [p|]; [case_decide as Hin|]; [|done..].
  destruct (IH p (remove_first p modules)) as [[ms ss] ->]; [|done].
  apply remove_first_perm, Permutation_length in Hin. simpl in Hin. lia.
Qed.

(** A module with fewer than [depth] ancestors is sorted within [depth]
    frames, whatever the working list. *)
Lemma sort_parent_module_shallow depth m modules sorted :
  ancestor parent_module depth m = None →
  is_Some (sort_parent_module parent_module depth m modules sorted).
Proof.
  revert m modules. induction depth as [|depth IH]; intros m modules Hanc; [done|].
  simpl in *. destruct (parent_module m) as [p|]; [case_decide as Hin|]; [|done..].
  by destruct (IH p (remove_first p modules) Hanc) as [[ms ss] ->].
Qed.

Lemma sort_parent_module_sub depth m modules sorted modules' sorted' :
  sort_parent_module parent_module depth m modules sorted = Some (modules', sorted') →
  ∀ x, x ∈ modules' → x ∈ modules.
Proof.
  revert m modules modules' sorted'.
  induction depth as [|depth IH]; intros m modules modules' sorted'; [done|].
  simpl. destruct (parent_module m) as [p|]; [case_decide as Hin|].
  - destruct (sort_parent_module _ _ _ _ _) as [[ms ss]|] eqn:E; [|done].
    intros [= <- <-] x Hx. eapply remove_first_elem, IH; [exact E|done].
  - by intros [= <- <-].
  - by intros [= <- <-].
Qed.

Lemma sort_loop_inv fuel modules sorted l :
  sort_loop parent_module recursion_limit fuel modules sorted = Some l →
  l ≡ₚ modules ++ sorted.
Proof.
  revert modules sorted.
  induction fuel as [|fuel IH]; intros modules sorted; cbn [sort_loop];
    destruct (pop modules) as [[m rest]|] eqn:E;
    try (apply pop_None in E as ->; by intros [= ->]); [done|].
  apply pop_Some in E as ->.
  destruct (sort_parent_module _ _ _ _ _) as [[ms ss]|] eqn:E; [|done].
  intros ->%IH. apply sort_parent_module_inv in E as [-> _].
  rewrite <- app_assoc. simpl. apply Permutation_middle.
Qed.

(** The loop returns when every call of [sort_parent_module] it makes
    does. *)
Lemma sort_loop_returns (fits : list Module → Prop) fuel modules sorted :
  (∀ m rest sorted, fits (rest ++ [m]) →
     ∃ ms ss, sort_parent_module parent_module (S recursion_limit) m rest sorted
              = Some (ms, ss) ∧ fits ms) →
  (length modules ≤ fuel)%nat → fits modules →
  is_Some (sort_loop parent_module recursion_limit fuel modules sorted).
Proof.
  intros Hcall. revert modules sorted.
  induction fuel as [|fuel IH]; intros modules sorted Hlen Hfits; cbn [sort_loop];
    destruct (pop modules) as [[m rest]|] eqn:E; try done;
    apply pop_Some in E as ->; rewrite length_app in Hlen; simpl in Hlen; [lia|].
  destruct (Hcall m rest sorted Hfits) as (ms & ss & E & Hms).
  rewrite E. apply IH; [|done].
  apply sort_parent_module_inv in E as [E [tail ->]].
  apply Permutation_length in E. simpl in E. rewrite !length_app in E.
  simpl in E. lia.
Qed.

(** The rounds of the loop never run out: with as many rounds as the list
    is long, more rounds change nothing, so that the loop fails only where
    the recursion does. *)
Lemma sort_loop_rounds fuel fuel' modules sorted :
  (length modules ≤ fuel)%nat → (length modules ≤ fuel')%nat →
  sort_loop parent_module recursion_limit fuel modules sorted
  = sort_loop parent_module recursion_limit fuel' modules sorted.
Proof.
  revert fuel' modules sorted.
  induction fuel as [|fuel IH]; intros fuel' modules sorted Hlen Hlen';
    destruct fuel' as [|fuel']; cbn [sort_loop];
    destruct (pop modules) as [[m rest]|] eqn:E; try done;
    apply pop_Some in E as ->; rewrite length_app in Hlen, Hlen';
    simpl in Hlen, Hlen'; try lia.
  destruct (sort_parent_module _ _ _ _ _) as [[ms ss]|] eqn:E; [|done].
  apply sort_parent_module_inv in E as [E [tail ->]].
  apply Permutation_length in E. simpl in E. rewrite !length_app in E.
  simpl in E. apply IH; lia.
Qed.

(** A list that is no longer than the recursion allows is sorted, with or
    without cycles. *)
Lemma sort_loop_total fuel modules sorted :
  (length modules ≤ fuel)%nat → (length modules ≤ S recursion_limit)%nat →
  is_Some (sort_loop parent_module recursion_limit fuel modules sorted).
Proof.
  apply (sort_loop_returns (λ l, (length l ≤ S recursion_limit)%nat)).
  intros m rest sorted' Hlen. rewrite length_app in Hlen. simpl in Hlen.
  destruct (sort_parent_module_total (S recursion_limit) m rest sorted')
    as [[ms ss] E]; [lia|].
  exists ms, ss. split; [done|].
  apply sort_parent_module_inv in E as [E [tail ->]].
  apply Permutation_length in E. simpl in E. rewrite !length_app in E.
  simpl in E. lia.
Qed.

(** So is a list in which no module has more ancestors than the recursion
    allows. *)
Lemma sort_loop_shallow fuel modules sorted :
  (length modules ≤ fuel)%nat →
  (∀ m, m ∈ modules → ancestor parent_module (S recursion_limit) m = None) →
  is_Some (sort_loop parent_module recursion_limit fuel modules sorted).
Proof.
  apply (sort_loop_returns
           (λ l, ∀ m, m ∈ l → ancestor parent_module (S recursion_limit) m = None)).
  intros m rest sorted' Hfits.
  destruct (sort_parent_module_shallow (S recursion_limit) m rest sorted')
    as [[ms ss] E]; [apply Hfits, elem_of_app; right; by left|].
  exists ms, ss. split; [done|]. intros x Hx. apply Hfits, elem_of_app. left.
  by eapply sort_parent_module_sub.
Qed.
End sorter_facts.

Section sorter_order.
Variable parent_module : Module → option Module.
Variable recursion_limit : nat.
Variable input : list Module.
Hypothesis no_cycle : acyclic parent_module.

Lemma parents_first_snoc l m :
  parents_first parent_module input l →
  (∀ p, parent_module m = Some p → p ∈ input → p ∈ l) →
  parents_first parent_module input (l ++ [m]).
Proof.
  intros Hl Hm j x p Hj Hpar Hin.
  destruct (decide (j < length l)%nat) as [Hlt|Hge].
  - rewrite lookup_app_l in Hj by done.
    destruct (Hl j x p Hj Hpar Hin) as (i & Hi & Hp).
    exists i. split; [done|]. rewrite lookup_app_l; [done|lia].
  - rewrite lookup_app_r in Hj by lia.
    destruct (j - length l)%nat as [|k] eqn:Ek; [|by destruct k].
    injection Hj as <-.
    apply Hm, list_elem_of_lookup in Hin as [i Hi]; [|done].
    exists i. pose proof (lookup_lt_Some _ _ _ Hi).
    split; [lia|]. by rewrite lookup_app_l.
Qed.

Lemma ancestor_parent n m p a :
  parent_module m = Some p → ancestor parent_module n p = Some a →
  ancestor parent_module (S n) m = Some a.
Proof. intros Hp Ha. simpl. by rewrite Hp. Qed.

Lemma sort_parent_module_order depth m modules sorted modules' sorted' :
  sort_parent_module parent_module depth m modules sorted = Some (modules', sorted') →
  parents_first parent_module input sorted →
  (∀ n a, ancestor parent_module (S n) m = Some a → a ∈ input →
          a ∈ modules ∨ a ∈ sorted) →
  parents_first parent_module input sorted'.
Proof.
  revert m modules modules' sorted'.
  induction depth as [|depth IH]; intros m modules modules' sorted'; [done|].
  simpl. destruct (parent_module m) as [p|] eqn:Hp; [case_decide as Hin|].
  - destruct (sort_parent_module _ _ _ _ _) as [[ms ss]|] eqn:E; [|done].
    intros [= <- <-] Hsorted Hanc.
    apply parents_first_snoc.
    + eapply IH; [exact E|done|].
      intros n a Ha Hain.
      destruct (Hanc (S n) a Ha Hain) as [Hm|Hs]; [|by right].
      left. apply remove_first_ne; [done|].
      intros ->. by apply (no_cycle p n).
    + intros p' Hp' _. assert (p' = p) as -> by congruence.
      apply sort_parent_module_inv in E as [_ [tail ->]].
      rewrite !elem_of_app. right. right. by apply list_elem_of_singleton.
  - intros [= <- <-] Hsorted Hanc. apply parents_first_snoc; [done|].
    intros p' Hp' Hpin. assert (p' = p) as -> by congruence.
    by destruct (Hanc 0%nat p eq_refl Hpin).
  - intros [= <- <-] Hsorted Hanc. apply parents_first_snoc; [done|].
    intros p' Hp'. congruence.
Qed.

Lemma sort_loop_order fuel modules sorted l :
  sort_loop parent_module recursion_limit fuel modules sorted = Some l →
  parents_first parent_module input sorted →
  (∀ a, a ∈ input → a ∈ modules ∨ a ∈ sorted) →
  parents_first parent_module input l.
Proof.
  revert modules sorted.
  induction fuel as [|fuel IH]; intros modules sorted; cbn [sort_loop];
    destruct (pop modules) as [[m rest]|] eqn:E;
    try (by intros [= ->]).
  apply pop_Some in E as ->.
  destruct (sort_parent_module _ _ _ _ _) as [[ms ss]|] eqn:E; [|done].
  intros Hl Hsorted Hcover.
  pose proof (sort_parent_module_inv _ _ _ _ _ _ _ E) as [Hperm _].
  eapply IH; [exact Hl| |].
  - eapply sort_parent_module_order; [exact E|done|].
    intros n a Ha Hain.
    destruct (Hcover a Hain) as [Hm|?]; [|by right].
    apply elem_of_app in Hm as [?|Hm]; [by left|].
    apply list_elem_of_singleton in Hm as ->. by destruct (no_cycle m n).
  - intros a Hain. apply elem_of_app. rewrite Hperm, elem_of_cons, elem_of_app.
    destruct (Hcover a Hain) as [Hm|?]; [|by auto].
    apply elem_of_app in Hm as [?|Hm]; [by auto|].
    apply list_elem_of_singleton in Hm. by auto.
Qed.
End sorter_order.

(** ** Reasoning about computations *)

Lemma bind_Ok {A B} (m : M A) (k : A → M B) w w' b :
  (m ≫= k) w = (w', Ok b) → ∃ w1 a, m w = (w1, Ok a) ∧ k a w1 = (w', Ok b).
Proof.
  unfold mbind, M_bind, bind. destruct (m w) as [w1 [a|e]]; [eauto|done].
Qed.

Lemma bind_eq_Ok {A B} (m : M A) (k : A → M B) w w1 a :
  m w = (w1, Ok a) → (m ≫= k) w = k a w1.
Proof. intros H. unfold mbind, M_bind, bind. by rewrite H. Qed.

Lemma bind_eq_Raise {A B} (m : M A) (k : A → M B) w w1 e :
  m w = (w1, Raise e) → (m ≫= k) w = (w1, Raise e).
Proof. intros H. unfold mbind, M_bind, bind. by rewrite H. Qed.

Lemma for_each_cons {A} (x : A) l body :
  for_each (x :: l) body = (body x ≫= λ _, for_each l body).
Proof. done. Qed.

Lemma readonly_eq {A} (f : M A) w w' r : readonly f → f w = (w', r) → w' = w.
Proof. intros Hf E. specialize (Hf w). by rewrite E in Hf. Qed.

Lemma readonly_ret {A} (a : A) : readonly (ret a).
Proof. done. Qed.

Lemma readonly_raise {A} e : readonly (@raise A e).
Proof. done. Qed.

Lemma readonly_observe {A} (f : World → result A) : readonly (observe f).
Proof. done. Qed.

Lemma readonly_bind {A B} (m : M A) (k : A → M B) :
  readonly m → (∀ a, readonly (k a)) → readonly (m ≫= k).
Proof.
  intros Hm Hk w. unfold mbind, M_bind, bind.
  destruct (m w) as [w1 [a|e]] eqn:E; apply (readonly_eq _ _ _ _ Hm) in E as ->;
    [apply Hk|done].
Qed.

Lemma readonly_preserves {A} R `{!Reflexive R} (f : M A) : readonly f → preserves R f.
Proof. intros Hf w w' r E. by apply (readonly_eq _ _ _ _ Hf) in E as ->. Qed.

Lemma preserves_bind {A B} R `{!Transitive R} (m : M A) (k : A → M B) :
  preserves R m → (∀ a, preserves R (k a)) → preserves R (m ≫= k).
Proof.
  intros Hm Hk w w' r. unfold mbind, M_bind, bind.
  destruct (m w) as [w1 [a|e]] eqn:E.
  - intros E'. etrans; [by eapply Hm|by eapply Hk].
  - intros [= <- <-]. by eapply Hm.
Qed.

Lemma preserves_for_each {A} R `{!PreOrder R} (l : list A) body :
  (∀ x, x ∈ l → preserves R (body x)) → preserves R (for_each l body).
Proof.
  induction l as [|x l IH]; intros Hbody.
  - by intros w w' r [= <- <-].
  - rewrite for_each_cons. apply preserves_bind; [apply _| |intros _; apply IH].
    + apply Hbody. by left.
    + intros y Hy. apply Hbody. by right.
Qed.

Lemma preserves_try_pass R (m : M unit) : preserves R m → preserves R (try_pass m).
Proof.
  intros Hm w w' r. unfold try_pass.
  destruct (m w) as [w1 [[]|e]] eqn:E; intros [= <- <-]; by eapply Hm.
Qed.

Lemma preserves_weaken {A} (R R' : relation World) (f : M A) :
  (∀ w w', R w w' → R' w w') → preserves R f → preserves R' f.
Proof. intros HR Hf w w' r E. eapply HR, Hf, E. Qed.

(** One iteration of a completed loop, between a prefix and a suffix that
    both respect [R]. *)
Lemma for_each_elem {A} R `{!PreOrder R} (l : list A) body w w' x :
  (∀ y, y ∈ l → preserves R (body y)) → x ∈ l →
  for_each l body w = (w', Ok tt) →
  ∃ w1 w2, R w w1 ∧ body x w1 = (w2, Ok tt) ∧ R w2 w'.
Proof.
  intros Hbody Hx. revert w. induction l as [|y l IH]; intros w; [by apply elem_of_nil in Hx|].
  rewrite for_each_cons. intros (w1 & [] & E1 & E2)%bind_Ok.
  apply elem_of_cons in Hx as [->|Hx].
  - exists w, w1. split; [done|]. split; [done|].
    eapply preserves_for_each; [done| |exact E2]. intros z Hz. apply Hbody. by right.
  - destruct (IH (λ z Hz, Hbody z (list_elem_of_further _ _ _ Hz)) Hx w1 E2)
      as (wa & wb & Ha & Eb & Hb).
    exists wa, wb. split; [|done]. etrans; [|exact Ha].
    eapply Hbody; [by left|exact E1].
Qed.

Create HintDb readonly.

(** Running the model on an explicit scene. *)
Ltac by_run := vm_compute; reflexivity.
Ltac split_conj := repeat match goal with |- _ ∧ _ => split end.

(** Membership in an explicit list. *)
Ltac in_list := repeat first [apply list_elem_of_here | apply list_elem_of_further].

Ltac solve_readonly :=
  repeat first
    [ solve [eauto with readonly]
    | apply readonly_ret | apply readonly_raise | apply readonly_observe
    | apply readonly_bind; [|intros ?]
    | match goal with
      | |- readonly (match ?x with _ => _ end) => destruct x
      | |- readonly (if ?x then _ else _) => destruct x
      end ].

(** ** The host's queries are read-only *)

Lemma readonly_ls : readonly cmds.ls.
Proof. done. Qed.

Lemma readonly_ls_suffix suffix : readonly (cmds.ls_suffix suffix).
Proof. done. Qed.

Lemma readonly_listRelatives n : readonly (cmds.listRelatives n).
Proof. intros w. unfold cmds.listRelatives. by destruct (dag w !! n). Qed.

Lemma readonly_listRelatives_allDescendents n :
  readonly (cmds.listRelatives_allDescendents n).
Proof. intros w. unfold cmds.listRelatives_allDescendents. by destruct (dag w !! n). Qed.

Lemma readonly_getAttr n a : readonly (cmds.getAttr n a).
Proof. intros w. unfold cmds.getAttr. by destruct (cmds.attr w n a). Qed.

Lemma readonly_attributeQuery_exists a n : readonly (cmds.attributeQuery_exists a n).
Proof. intros w. unfold cmds.attributeQuery_exists. by destruct (dag w !! n). Qed.

Lemma readonly_connectionInfo dst :
  readonly (cmds.connectionInfo_sourceFromDestination dst).
Proof. done. Qed.

#[global] Hint Resolve readonly_ls readonly_ls_suffix readonly_listRelatives
  readonly_listRelatives_allDescendents readonly_getAttr
  readonly_attributeQuery_exists readonly_connectionInfo : readonly.

Lemma readonly_get_list n a : readonly (field.get_list n a).
Proof. unfold field.get_list. solve_readonly. Qed.

Lemma readonly_get_object n a : readonly (field.get_object n a).
Proof. unfold field.get_object. solve_readonly. Qed.

#[global] Hint Resolve readonly_get_list readonly_get_object : readonly.

Lemma readonly_get_name n a : readonly (field.get_name n a).
Proof. unfold field.get_name. solve_readonly. Qed.

#[global] Hint Resolve readonly_get_name : readonly.

Section rig_reads.
Variable svc : Services.

Lemma readonly_wrap_module node : readonly (Rig.wrap_module svc node).
Proof. unfold Rig.wrap_module. solve_readonly. Qed.

Lemma readonly_wrap_modules nodes : readonly (Rig.wrap_modules svc nodes).
Proof.
  induction nodes as [|node nodes IH]; simpl; [apply readonly_ret|].
  pose proof readonly_wrap_module. solve_readonly.
Qed.

Lemma readonly_discover_modules : readonly (Rig.discover_modules svc).
Proof. unfold Rig.discover_modules. pose proof readonly_wrap_modules. solve_readonly. Qed.

Lemma readonly_sort_in_scene modules : readonly (Rig.sort_in_scene svc modules).
Proof. intros w. unfold Rig.sort_in_scene. by destruct (sort_modules _ _ _). Qed.

Lemma readonly_rig_modules : readonly (Rig.rig_modules svc).
Proof.
  unfold Rig.rig_modules.
  pose proof readonly_discover_modules. pose proof readonly_sort_in_scene.
  solve_readonly.
Qed.

Lemma readonly_skeleton : readonly Rig.skeleton.
Proof. unfold Rig.skeleton. solve_readonly. Qed.

Lemma readonly_keep_build_nodes nodes : readonly (Rig.keep_build_nodes nodes).
Proof.
  induction nodes as [|node nodes IH]; simpl; [apply readonly_ret|]. solve_readonly.
Qed.

Lemma readonly_build_nodes : readonly Rig.build_nodes.
Proof. unfold Rig.build_nodes. pose proof readonly_keep_build_nodes. solve_readonly. Qed.

Lemma readonly_loads v : readonly (Rig.loads svc v).
Proof. unfold Rig.loads. solve_readonly. Qed.

Lemma discover_modules_snd w modules :
  (Rig.discover_modules svc w).2 = Ok modules →
  Rig.discover_modules svc w = (w, Ok modules).
Proof.
  intros H. pose proof (readonly_discover_modules w) as Hw.
  destruct (Rig.discover_modules svc w) as [w' r]. simpl in *. by subst.
Qed.

Lemma rig_modules_snd w modules :
  (Rig.rig_modules svc w).2 = Ok modules →
  Rig.rig_modules svc w = (w, Ok modules).
Proof.
  intros H. pose proof (readonly_rig_modules w) as Hw.
  destruct (Rig.rig_modules svc w) as [w' r]. simpl in *. by subst.
Qed.

End rig_reads.

#[global] Hint Resolve readonly_rig_modules readonly_skeleton readonly_build_nodes
  readonly_loads readonly_discover_modules : readonly.

(** ** Adding and looking up modules *)

Lemma getAttr_Some w n a v : cmds.attr w n a = Some v → cmds.getAttr n a w = (w, Ok v).
Proof. intros H. unfold cmds.getAttr. by rewrite H. Qed.

(** C5. [add_module] raises [RuntimeError] when the rig's [is_built] flag is
    true, raises [ValueError] when the module type is not a key of the module
    registry, and otherwise returns what the constructor of the registered
    class returns, called with [rig] bound to this rig.  In both error cases
    the world, and so the module set, is the one the call started from. *)
Theorem add_module_guards svc module_type args kwargs w built :
  cmds.attr w Rig.rig_node "is_built" = Some built →
  (truthy built = true →
     Rig.add_module svc module_type args kwargs w
     = (w, Raise (RuntimeError "Cannot add module when the rig is built.")))
  ∧ (truthy built = false → all_rig_modules svc !! module_type = None →
     Rig.add_module svc module_type args kwargs w
     = (w, Raise (ValueError ("Module Type " ++ module_type ++ " is not valid"))))
  ∧ (truthy built = false → ∀ new, all_rig_modules svc !! module_type = Some new →
     Rig.add_module svc module_type args kwargs w
     = new args (<["rig" := VStr Rig.rig_node]> kwargs) w).
Proof.
  intros Hbuilt. unfold Rig.add_module.
  rewrite (bind_eq_Ok _ _ _ _ _ (getAttr_Some _ _ _ _ Hbuilt)). cbv beta.
  repeat split.
  - by intros ->.
  - intros -> E. by destruct (all_rig_modules svc !! module_type).
  - intros -> new E. destruct (all_rig_modules svc !! module_type); congruence.
Qed.

Lemma add_module_guards_witness :
  Rig.add_module Studio.services "chain" [] ∅ Studio.scene_flagged_built
  = (Studio.scene_flagged_built,
     Raise (RuntimeError "Cannot add module when the rig is built."))
  ∧ Rig.add_module Studio.services "wheel" [] ∅ Studio.scene
    = (Studio.scene, Raise (ValueError "Module Type wheel is not valid"))
  ∧ (Rig.add_module Studio.services "chain" [] {["name" := VStr "leg"]} Studio.scene).2
    = Ok "leg".
Proof.
  split; [|split].
  - apply (add_module_guards Studio.services "chain" [] ∅
             Studio.scene_flagged_built (VBool true)); reflexivity.
  - apply (add_module_guards Studio.services "wheel" [] ∅
             Studio.scene (VBool false)); reflexivity.
  - rewrite (proj2 (proj2 (add_module_guards Studio.services "chain" []
               {["name" := VStr "leg"]} Studio.scene (VBool false) eq_refl))
               eq_refl Studio.chain_new eq_refl).
    reflexivity.
Defined.

Lemma list_find_absent (name : string) (modules : list Module) :
  name ∉ modules → list_find (λ module, module = name) modules = None.
Proof.
  intros Hname. apply list_find_None, Forall_forall. by intros x Hx ->.
Qed.

(** C10. On an unbuilt rig, [delete_module] with a name that matches no
    module raises: [get_module] logs its warning and returns [None], and
    [delete_module] raises [AttributeError] on that [None]; nothing else in
    the world changes. *)
Theorem delete_module_unknown_raises svc name w built modules :
  cmds.attr w Rig.rig_node "is_built" = Some built → truthy built = false →
  (Rig.rig_modules svc w).2 = Ok modules → name ∉ modules →
  let warned := {| dag := dag w; conns := conns w;
                   log := log w ++ [(WARNING, "Found no module named " +:+ name +:+ ".")] |} in
  Rig.get_module svc name w = (warned, Ok None)
  ∧ Rig.delete_module svc name w
    = (warned, Raise (AttributeError "'NoneType' object has no attribute 'deform_joints'")).
Proof.
  intros Hbuilt Hfalse Hmodules%rig_modules_snd Hname warned.
  assert (Rig.get_module svc name w = (warned, Ok None)) as Hget.
  { unfold Rig.get_module. rewrite (bind_eq_Ok _ _ _ _ _ Hmodules).
    by rewrite (list_find_absent _ _ Hname). }
  split; [done|]. unfold Rig.delete_module.
  rewrite (bind_eq_Ok _ _ _ _ _ (getAttr_Some _ _ _ _ Hbuilt)). cbv beta.
  rewrite Hfalse. by rewrite (bind_eq_Ok _ _ _ _ _ Hget).
Qed.

Lemma delete_module_unknown_raises_witness :
  (Rig.delete_module Studio.services "leg" Studio.scene).2
  = Raise (AttributeError "'NoneType' object has no attribute 'deform_joints'")
  ∧ (Rig.get_module Studio.services "leg" Studio.scene).2 = Ok None.
Proof.
  destruct (delete_module_unknown_raises Studio.services "leg" Studio.scene
              (VBool false) ["root"; "spine"; "arm"]) as [Hget Hdel].
  - reflexivity.
  - reflexivity.
  - vm_compute. reflexivity.
  - vm_compute. intros H. repeat (apply elem_of_cons in H as [H|H]; [discriminate|]).
    by apply elem_of_nil in H.
  - rewrite Hget, Hdel. split; reflexivity.
Defined.

(** ** The sorter on whole module sets *)

Lemma sort_modules_perm parent_module recursion_limit modules sorted :
  sort_modules parent_module recursion_limit modules = Some sorted →
  sorted ≡ₚ modules.
Proof. intros E. apply sort_loop_inv in E. by rewrite app_nil_r in E. Qed.

Lemma sort_modules_returns parent_module recursion_limit modules :
  (length modules ≤ S recursion_limit)%nat →
  ∃ sorted, sort_modules parent_module recursion_limit modules = Some sorted
            ∧ sorted ≡ₚ modules.
Proof.
  intros Hlen.
  destruct (sort_loop_total parent_module recursion_limit (length modules) modules [])
    as [l E]; [done|done|].
  exists l. split; [done|]. by eapply sort_modules_perm.
Qed.

Lemma sort_modules_shallow parent_module recursion_limit modules :
  (∀ m, m ∈ modules → ancestor parent_module (S recursion_limit) m = None) →
  ∃ sorted, sort_modules parent_module recursion_limit modules = Some sorted
            ∧ sorted ≡ₚ modules.
Proof.
  intros Hdepth.
  destruct (sort_loop_shallow parent_module recursion_limit (length modules) modules [])
    as [l E]; [done|done|].
  exists l. split; [done|]. by eapply sort_modules_perm.
Qed.

Lemma sort_modules_order parent_module recursion_limit modules sorted :
  acyclic parent_module →
  sort_modules parent_module recursion_limit modules = Some sorted →
  parents_first parent_module modules sorted.
Proof.
  intros Hacyc E. eapply sort_loop_order; [done|exact E| |by left].
  intros j m p Hj. by rewrite lookup_nil in Hj.
Qed.

Lemma acyclic_by_rank parent_module (rank : Module → nat) :
  (∀ m p, parent_module m = Some p → (rank p < rank m)%nat) → acyclic parent_module.
Proof.
  intros Hrank.
  assert (∀ n m a, ancestor parent_module (S n) m = Some a → (rank a < rank m)%nat) as H.
  { induction n as [|n IH]; intros m a; simpl.
    - destruct (parent_module m) as [p|] eqn:Hp; [|done].
      intros [= <-]. by apply Hrank.
    - destruct (parent_module m) as [p|] eqn:Hp; [|done].
      intros Ha. apply Hrank in Hp. apply IH in Ha. lia. }
  intros m n Hm. apply H in Hm. lia.
Qed.

Lemma ranked_acyclic rank w : ranked rank w = true → acyclic (module_parent w).
Proof.
  intros Hr. apply bool_decide_eq_true in Hr. apply (acyclic_by_rank _ rank).
  intros m p. unfold module_parent, cmds.attr.
  destruct (dag w !! m) as [nd|] eqn:Hm; [|done].
  specialize (Hr m nd Hm). unfold rank_ok in Hr.
  destruct (n_attrs nd !! "parent_module") as [[| |s|]|]; try done.
  intros [= <-]. by apply bool_decide_eq_true in Hr.
Qed.

(** C3. Amended: for every set of modules, also one whose [parent_module]
    relation contains a cycle, the sorter ends, and what it returns contains
    each input module exactly once.  It returns, with no error, whenever the
    set has at most one module more than the recursion may nest: a cycle is
    not detected.  Its only error is the interpreter's, [None] here, on a
    chain that needs more nested calls than are left. *)
Theorem sorter_returns_on_any_graph parent_module recursion_limit modules :
  ((length modules ≤ S recursion_limit)%nat →
   is_Some (sort_modules parent_module recursion_limit modules))
  ∧ ∀ sorted, sort_modules parent_module recursion_limit modules = Some sorted →
      sorted ≡ₚ modules ∧ (NoDup modules → NoDup sorted).
Proof.
  split.
  - intros Hlen.
    destruct (sort_modules_returns parent_module recursion_limit modules Hlen)
      as (sorted & E & _).
    by exists sorted.
  - intros sorted Hperm%sort_modules_perm. split; [done|]. by rewrite Hperm.
Qed.

Lemma sorter_returns_on_any_graph_witness :
  is_Some (sort_modules two_cycle 1 ["A"; "B"])
  ∧ ["A"; "B"] ≡ₚ ["A"; "B"] ∧ (NoDup ["A"; "B"] → NoDup ["A"; "B"]).
Proof.
  destruct (sorter_returns_on_any_graph two_cycle 1 ["A"; "B"]) as [Hreturns Hperm].
  split; [apply Hreturns; simpl; lia|].
  apply (Hperm ["A"; "B"]). reflexivity.
Defined.

(** C3, as stated, fails: A and B are each other's parent, and the sorter
    returns the two modules instead of an error. *)
Lemma sorter_accepts_cycle :
  on_cycle two_cycle "A" ∧ on_cycle two_cycle "B"
  ∧ sort_modules two_cycle 1000 ["A"; "B"] = Some ["A"; "B"]
  ∧ sort_modules two_cycle 1000 ["B"; "A"] = Some ["B"; "A"].
Proof.
  split; [by exists 1%nat|]. split; [by exists 1%nat|]. split; by_run.
Qed.

(** The only error of the sorter is the interpreter's: a chain that needs
    more nested calls than are left ends the recursion, with or without a
    cycle; whatever the sorter returns holds each input module once. *)
Lemma sorter_overflows :
  sort_modules three_chain 1 ["A"; "B"; "C"] = None
  ∧ sort_modules three_chain 2 ["A"; "B"; "C"] = Some ["A"; "B"; "C"]
  ∧ sort_modules two_cycle 0 ["A"; "B"] = None.
Proof. split_conj; by_run. Qed.

Lemma before_trans a b c (l : list Module) :
  NoDup l → before a b l → before b c l → before a c l.
Proof.
  intros Hl (i & j & Hi & Hj & Hij) (j' & k & Hj' & Hk & Hjk).
  assert (j = j') as <- by (eapply NoDup_lookup; eauto).
  exists i, k. repeat split; [done|done|lia].
Qed.

Lemma parents_first_before parent_module modules sorted m p :
  parents_first parent_module modules sorted →
  m ∈ sorted → parent_module m = Some p → p ∈ modules → before p m sorted.
Proof.
  intros Hpf [j Hj]%list_elem_of_lookup Hp Hin.
  destruct (Hpf j m p Hj Hp Hin) as (i & Hi & Hpi). by exists i, j.
Qed.

Lemma children_NoDup w n : NoDup (cmds.children w n).
Proof.
  unfold cmds.children.
  eapply sublist_NoDup; [apply (NoDup_fst_map_to_list (dag w))|].
  apply fmap_sublist, sublist_filter.
Qed.

Lemma elem_of_children w n x :
  x ∈ cmds.children w n ↔ ∃ nd, dag w !! x = Some nd ∧ n_parent nd = Some n.
Proof.
  unfold cmds.children. rewrite list_elem_of_fmap. split.
  - intros ([y nd] & -> & [Hp Hy%elem_of_map_to_list]%list_elem_of_filter). eauto.
  - intros (nd & Hx & Hp). exists (x, nd). split; [done|].
    apply list_elem_of_filter. split; [done|]. by apply elem_of_map_to_list.
Qed.

Section discovery.
Variable svc : Services.

Lemma wrap_modules_Ok nodes w w' modules :
  Rig.wrap_modules svc nodes w = (w', Ok modules) → modules = nodes.
Proof.
  revert w w' modules.
  induction nodes as [|node nodes IH]; intros w w' modules; simpl.
  - by intros [= _ <-].
  - intros (w1 & m & E1 & (w2 & ms & E2 & [= _ <-])%bind_Ok)%bind_Ok.
    apply IH in E2 as ->. f_equal.
    unfold Rig.wrap_module in E1.
    apply bind_Ok in E1 as (w3 & v & _ & E1).
    destruct v as [| |t|]; try done.
    destruct (all_rig_modules svc !! t); [|done]. by injection E1.
Qed.

(** The discovered modules are the children of the modules group. *)
Lemma discover_modules_Ok w w' modules :
  Rig.discover_modules svc w = (w', Ok modules) →
  ∃ group, cmds.attr w Rig.rig_node "modules_group" = Some (VStr group)
           ∧ is_Some (dag w !! group)
           ∧ modules = cmds.children w group.
Proof.
  unfold Rig.discover_modules.
  intros (w1 & group & E1 & (w2 & rel & E2 & E3)%bind_Ok)%bind_Ok.
  pose proof (readonly_eq _ _ _ _ (readonly_get_name _ _) E1) as ->.
  pose proof (readonly_eq _ _ _ _ (readonly_listRelatives _) E2) as ->.
  apply wrap_modules_Ok in E3 as ->.
  unfold field.get_name, field.get_object in E1.
  apply bind_Ok in E1 as (w3 & o & (w4 & v & E0 & E1')%bind_Ok & E1).
  unfold cmds.getAttr in E0.
  destruct (cmds.attr w Rig.rig_node "modules_group") as [v'|] eqn:Hattr; [|done].
  injection E0 as <- <-.
  destruct v' as [| |s|]; try done; injection E1' as <- <-; [done|].
  injection E1 as <-. exists s. split; [done|].
  unfold cmds.listRelatives in E2. destruct (dag w !! s) eqn:Hg; [|done].
  split; [done|]. injection E2 as <-. by destruct (cmds.children w s).
Qed.

Lemma discover_modules_NoDup w w' modules :
  Rig.discover_modules svc w = (w', Ok modules) → NoDup modules.
Proof. intros (g & _ & _ & ->)%discover_modules_Ok. apply children_NoDup. Qed.

End discovery.

(** C2. When the [parent_module] relation of the scene has no cycle, the
    sequence [rig_modules] returns contains each discovered module exactly
    once and places every module strictly after its parent module, and so
    after every module of its parent chain.  It does return one when the
    recursion has the frames it needs: when there are no more modules, or
    no module has more ancestors, than it may nest. *)
Theorem rig_modules_parents_first svc w modules :
  (Rig.discover_modules svc w).2 = Ok modules →
  acyclic (module_parent w) →
  ((length modules ≤ S (recursion_limit svc))%nat
   ∨ (∀ m, m ∈ modules →
        ancestor (module_parent w) (S (recursion_limit svc)) m = None) →
   ∃ sorted, Rig.rig_modules svc w = (w, Ok sorted))
  ∧ ∀ sorted, (Rig.rig_modules svc w).2 = Ok sorted →
      sorted ≡ₚ modules ∧ NoDup sorted
      ∧ (∀ m p, m ∈ modules → module_parent w m = Some p → p ∈ modules →
           before p m sorted)
      ∧ (∀ n m a, m ∈ modules → ancestor (module_parent w) (S n) m = Some a →
           (∀ k b, (k ≤ n)%nat → ancestor (module_parent w) (S k) m = Some b →
                   b ∈ modules) →
           before a m sorted).
Proof.
  intros Hdisc Hacyc.
  apply discover_modules_snd in Hdisc.
  assert (Rig.rig_modules svc w
          = Rig.sort_in_scene svc modules w) as Hrun.
  { unfold Rig.rig_modules. by rewrite (bind_eq_Ok _ _ _ _ _ Hdisc). }
  rewrite Hrun. unfold Rig.sort_in_scene. split.
  - intros Hfits.
    assert (∃ sorted, sort_modules (module_parent w) (recursion_limit svc) modules
                      = Some sorted ∧ sorted ≡ₚ modules) as (sorted & -> & _).
    { destruct Hfits; [by apply sort_modules_returns|by apply sort_modules_shallow]. }
    by exists sorted.
  - intros sorted Hsorted.
    destruct (sort_modules (module_parent w) (recursion_limit svc) modules)
      as [sorted'|] eqn:E; [|done].
    injection Hsorted as ->.
    pose proof (sort_modules_perm _ _ _ _ E) as Hperm.
    pose proof (sort_modules_order _ _ _ _ Hacyc E) as Hpf.
    assert (NoDup sorted) as Hnd.
    { rewrite Hperm. by eapply discover_modules_NoDup. }
    assert (∀ m p, m ∈ modules → module_parent w m = Some p → p ∈ modules →
              before p m sorted) as Hstep.
    { intros m p Hm Hp Hin. eapply parents_first_before; [done| |done|done].
      by rewrite Hperm. }
    split; [done|split; [done|split; [done|]]].
    induction n as [|n IH]; intros m a Hm Ha Hchain.
    + simpl in Ha. destruct (module_parent w m) as [p|] eqn:Hp; [|done].
      injection Ha as <-. apply Hstep; [done|done|].
      apply (Hchain 0%nat); [lia|]. simpl. by rewrite Hp.
    + change (ancestor (module_parent w) (S (S n)) m)
        with (match module_parent w m with
              | Some p => ancestor (module_parent w) (S n) p
              | None => None
              end) in Ha.
      destruct (module_parent w m) as [p|] eqn:Hp; [|done].
      assert (p ∈ modules) as Hpin.
      { apply (Hchain 0%nat); [lia|]. simpl. by rewrite Hp. }
      eapply before_trans; [done| |by apply Hstep].
      apply IH; [done|done|].
      intros k b Hk Hb. apply (Hchain (S k)); [lia|]. simpl. rewrite Hp. exact Hb.
Qed.

Lemma rig_modules_parents_first_witness :
  ∃ sorted, (Rig.rig_modules Studio.services Studio.scene).2 = Ok sorted
    ∧ before "root" "spine" sorted ∧ before "spine" "arm" sorted
    ∧ before "root" "arm" sorted.
Proof.
  destruct (rig_modules_parents_first Studio.services Studio.scene
              ["spine"; "arm"; "root"]) as [Hreturns Horder].
  - vm_compute. reflexivity.
  - apply (ranked_acyclic studio_rank). vm_compute. reflexivity.
  - destruct Hreturns as [sorted E]; [left; vm_compute; lia|].
    assert ((Rig.rig_modules Studio.services Studio.scene).2 = Ok sorted) as E2
      by (rewrite E; reflexivity).
    destruct (Horder sorted E2) as (_ & _ & Hstep & Hchain).
    exists sorted. split; [exact E2|]. split; [|split].
    + apply Hstep; [in_list|vm_compute; reflexivity|in_list].
    + apply Hstep; [in_list|vm_compute; reflexivity|in_list].
    + apply (Hchain 1%nat); [in_list|vm_compute; reflexivity|].
      intros [|[|k]] b Hk; [| |lia]; vm_compute; intros [= <-]; in_list.
Defined.

(** With no frame left for a nested call, [rig_modules] ends in the
    interpreter's error on the same scene: the arm needs its parent sorted
    first. *)
Lemma rig_modules_recursion_error :
  (Rig.rig_modules studio_without_recursion Studio.scene).2 = Raise RecursionError.
Proof. by_run. Qed.

(** The chain A <- B <- C of the claim: whatever the order in which the three
    modules are handed to the sorter, it returns A, B, C. *)
Lemma three_chain_any_order (modules : list Module) :
  modules ≡ₚ ["A"; "B"; "C"] →
  sort_modules three_chain 2 modules = Some ["A"; "B"; "C"].
Proof.
  intros H. symmetry in H. apply permutations_Permutation in H.
  vm_compute in H.
  repeat (apply elem_of_cons in H as [->|H]; [reflexivity|]).
  by apply elem_of_nil in H.
Qed.

(** ** Attribute writes *)

Lemma attr_write_attr_eq w n a v :
  is_Some (dag w !! n) → cmds.attr (cmds.write_attr n a v w) n a = Some v.
Proof.
  intros [nd Hn]. unfold cmds.attr, cmds.write_attr. simpl.
  rewrite lookup_alter_eq, Hn. simpl. apply lookup_insert_eq.
Qed.

Lemma attr_write_attr_ne w n a v n' a' :
  n ≠ n' ∨ a ≠ a' → cmds.attr (cmds.write_attr n a v w) n' a' = cmds.attr w n' a'.
Proof.
  intros Hne. unfold cmds.attr, cmds.write_attr. simpl.
  destruct (decide (n = n')) as [<-|Hn].
  - rewrite lookup_alter_eq. destruct (dag w !! n) as [nd|]; [|done]. simpl.
    destruct Hne as [?|?]; [done|]. by rewrite lookup_insert_ne.
  - by rewrite lookup_alter_ne.
Qed.

Lemma dom_write_attr w n a v : dom (dag (cmds.write_attr n a v w)) = dom (dag w).
Proof.
  unfold cmds.write_attr. simpl. apply set_eq. intros x.
  rewrite !elem_of_dom. destruct (decide (n = x)) as [<-|Hn].
  - rewrite lookup_alter_eq. by rewrite fmap_is_Some.
  - by rewrite lookup_alter_ne.
Qed.

Lemma attr_is_Some_node w n a : is_Some (cmds.attr w n a) → is_Some (dag w !! n).
Proof. unfold cmds.attr. destruct (dag w !! n); [eauto|by intros [? ?]]. Qed.

Lemma setAttr_Ok w w' n a v :
  cmds.setAttr n a v w = (w', Ok tt) →
  is_Some (cmds.attr w n a) ∧ w' = cmds.write_attr n a v w.
Proof.
  unfold cmds.setAttr. destruct (cmds.attr w n a) eqn:E; [|done].
  intros [= <-]. eauto.
Qed.

Lemma setAttr_run w w' n a v r :
  cmds.setAttr n a v w = (w', r) →
  (w' = w ∧ cmds.attr w n a = None) ∨
  (is_Some (cmds.attr w n a) ∧ w' = cmds.write_attr n a v w ∧ r = Ok tt).
Proof.
  unfold cmds.setAttr. destruct (cmds.attr w n a) eqn:E; intros [= <- <-]; eauto.
Qed.

Lemma addAttr_run w w' n a v r :
  cmds.addAttr n a v w = (w', r) →
  w' = w ∨ (is_Some (dag w !! n) ∧ cmds.attr w n a = None
            ∧ w' = cmds.write_attr n a v w ∧ r = Ok tt).
Proof.
  unfold cmds.addAttr, cmds.attr.
  destruct (dag w !! n) as [nd|] eqn:Hn; [|intros [= <- <-]; by left].
  destruct (n_attrs nd !! a) eqn:Ha; intros [= <- <-]; [by left|right; eauto].
Qed.

Lemma logger_dag lv msg w : dag (logger lv msg w).1 = dag w.
Proof. done. Qed.

#[global] Instance same_dag_preorder : PreOrder same_dag.
Proof. split; [done|]. intros x y z Hxy Hyz. unfold same_dag in *. congruence. Qed.

#[global] Instance quiet_preorder : PreOrder quiet.
Proof.
  split; [done|]. intros x y z [H1 H2] [H3 H4]. split; [congruence|].
  intros n. by rewrite H4, H2.
Qed.

#[global] Instance additive_preorder : PreOrder additive.
Proof.
  split; [done|]. intros x y z [H1 H2] [H3 H4]. split; [set_solver|auto].
Qed.

#[global] Instance keeps_marks_preorder : PreOrder keeps_marks.
Proof.
  split; [by intros x n Hn|]. intros x y z H1 H2 n Hn. by apply H2, H1.
Qed.

Lemma same_dag_quiet w w' : same_dag w w' → quiet w w'.
Proof.
  unfold same_dag, quiet, tagged, cmds.attr. intros ->. done.
Qed.

Lemma quiet_additive w w' : quiet w w' → additive w w'.
Proof. intros [H1 H2]. split; [by rewrite H1|]. intros n. by rewrite H2. Qed.

Lemma preserves_logger R lv msg :
  (∀ w w', dag w' = dag w → R w w') → preserves R (logger lv msg).
Proof. intros HR w w' r [= <- <-]. by apply HR. Qed.

(** ** Tagging the build nodes *)

Lemma preserves_addAttr_marks n :
  preserves keeps_marks (cmds.addAttr n Rig.marker (VBool true)).
Proof.
  intros w w' r [->|(Hn & Ha & -> & _)]%addAttr_run x Hx; [done|].
  destruct (decide (n = x)) as [<-|Hne]; [congruence|].
  rewrite attr_write_attr_ne; auto.
Qed.

Lemma addAttr_Ok w w' n a v :
  cmds.addAttr n a v w = (w', Ok tt) →
  is_Some (dag w !! n) ∧ cmds.attr w n a = None ∧ w' = cmds.write_attr n a v w.
Proof.
  unfold cmds.addAttr, cmds.attr.
  destruct (dag w !! n) as [nd|] eqn:Hn; [|done].
  destruct (n_attrs nd !! a) eqn:Ha; [done|]. intros [= <-]. eauto.
Qed.

Lemma tag_nodes_Ok nodes w w' :
  Rig._tag_nodes_for_unbuild nodes w = (w', Ok tt) →
  ∀ n, n ∈ nodes → cmds.attr w' n Rig.marker = Some (VBool true).
Proof.
  intros E n Hn. unfold Rig._tag_nodes_for_unbuild in E.
  destruct (for_each_elem keeps_marks _ _ _ _ n
              (λ y _, preserves_addAttr_marks y) Hn E) as (w1 & w2 & _ & E2 & H2).
  apply H2. apply addAttr_Ok in E2 as (Hnode & _ & ->).
  by apply attr_write_attr_eq.
Qed.

Lemma build_pass_Ok svc wa wb build_nodes :
  Rig.build_pass svc wa = (wb, Ok build_nodes) →
  build_nodes = list_difference (cmds.all_nodes wb) (cmds.all_nodes wa).
Proof.
  unfold Rig.build_pass.
  intros (w1 & before & [= <- <-] & (w2 & modules & E2 & (w3 & [] & E3 &
    (w4 & after & [= <- <-] & [= <- <-])%bind_Ok)%bind_Ok)%bind_Ok)%bind_Ok.
  done.
Qed.

Lemma attributeQuery_exists_eq w a n nd :
  dag w !! n = Some nd →
  cmds.attributeQuery_exists a n w = (w, Ok (bool_decide (is_Some (n_attrs nd !! a)))).
Proof. intros H. unfold cmds.attributeQuery_exists. by rewrite H. Qed.

Lemma keep_build_nodes_eq nodes w :
  (∀ n, n ∈ nodes → is_Some (dag w !! n)) →
  Rig.keep_build_nodes nodes w = (w, Ok (filter (tagged w) nodes)).
Proof.
  induction nodes as [|node nodes IH]; intros Hnodes; [done|].
  cbn [Rig.keep_build_nodes].
  destruct (Hnodes node) as [nd Hnd]; [by left|].
  rewrite (bind_eq_Ok _ _ _ _ _ (attributeQuery_exists_eq _ Rig.marker _ _ Hnd)).
  rewrite (bind_eq_Ok _ _ _ _ _ (IH (λ n Hn, Hnodes n (list_elem_of_further _ _ _ Hn)))).
  unfold ret. f_equal. f_equal. rewrite filter_cons.
  assert (tagged w node ↔ is_Some (n_attrs nd !! Rig.marker)) as Ht.
  { unfold tagged, cmds.attr. by rewrite Hnd. }
  destruct (decide (tagged w node));
    [rewrite bool_decide_eq_true_2 by tauto|rewrite bool_decide_eq_false_2 by tauto];
    done.
Qed.

Lemma elem_of_all_nodes w n : n ∈ cmds.all_nodes w ↔ is_Some (dag w !! n).
Proof.
  unfold cmds.all_nodes. rewrite list_elem_of_fmap. split.
  - intros ([x nd] & -> & H%elem_of_map_to_list). eauto.
  - intros [nd H]. exists (n, nd). split; [done|]. by apply elem_of_map_to_list.
Qed.

Lemma build_nodes_eq w :
  Rig.build_nodes w = (w, Ok (filter (tagged w) (cmds.all_nodes w))).
Proof.
  unfold Rig.build_nodes, mbind, M_bind, bind, cmds.ls.
  apply keep_build_nodes_eq. intros n. apply elem_of_all_nodes.
Qed.

(** C9. When [build] completes, the rig's [is_built] flag is true and every
    node of the ephemeral set, the nodes listed after the per-module pass
    that the snapshot taken before it does not list, carries the marker
    [is_build_node] with value true; [build_nodes] returns exactly the scene
    nodes that carry the marker. *)
Theorem build_tags_ephemeral_set svc w w1 :
  Rig.build svc w = (w1, Ok tt) →
  cmds.attr w1 Rig.rig_node "is_built" = Some (VBool true)
  ∧ (∃ wa wb,
       run_scripts svc "pre_build" w = (wa, Ok tt)
       ∧ Rig.build_pass svc wa
         = (wb, Ok (list_difference (cmds.all_nodes wb) (cmds.all_nodes wa)))
       ∧ ∀ n, n ∈ list_difference (cmds.all_nodes wb) (cmds.all_nodes wa) →
              cmds.attr w1 n Rig.marker = Some (VBool true))
  ∧ Rig.build_nodes w1 = (w1, Ok (filter (tagged w1) (cmds.all_nodes w1))).
Proof.
  unfold Rig.build.
  intros (wa & [] & Epre & (wb & bn & Epass & Efin)%bind_Ok)%bind_Ok.
  pose proof (build_pass_Ok _ _ _ _ Epass) as Hbn.
  unfold Rig.build_finish in Efin.
  apply bind_Ok in Efin as (wc & [] & _ & Efin).
  apply bind_Ok in Efin as (wd & [] & _ & Efin).
  apply bind_Ok in Efin as (we & [] & Etag & Efin).
  apply bind_Ok in Efin as (wf & [] & Eset & Elog).
  injection Elog as <-.
  apply setAttr_Ok in Eset as [Hflag ->].
  split; [|split; [|apply build_nodes_eq]].
  - unfold cmds.attr. simpl. apply attr_write_attr_eq.
    by eapply attr_is_Some_node.
  - exists wa, wb. split; [done|]. split; [by rewrite <- Hbn|].
    intros n Hn. rewrite <- Hbn in Hn.
    pose proof (tag_nodes_Ok _ _ _ Etag n Hn) as Hmark.
    unfold cmds.attr. simpl.
    change (cmds.attr (cmds.write_attr Rig.rig_node "is_built" (VBool true) we)
              n Rig.marker = Some (VBool true)).
    rewrite attr_write_attr_ne; [done|by right].
Qed.

Lemma run_Ok {A} (f : M A) w a : (f w).2 = Ok a → f w = ((f w).1, Ok a).
Proof. destruct (f w) as [w' r]. simpl. by intros ->. Qed.

Lemma build_tags_ephemeral_set_witness :
  let w1 := (Rig.build Studio.services Studio.scene).1 in
  cmds.attr w1 Rig.rig_node "is_built" = Some (VBool true)
  ∧ Rig.build_nodes w1 = (w1, Ok (filter (tagged w1) (cmds.all_nodes w1))).
Proof.
  intros w1.
  destruct (build_tags_ephemeral_set Studio.services Studio.scene w1) as (H1 & _ & H3).
  - apply (run_Ok (Rig.build Studio.services) Studio.scene tt). by_run.
  - split; [exact H1|exact H3].
Defined.

(** ** Parent-space blobs during [build] *)

(** A blob that is [None], empty, or a JSON document that is not an object
    is skipped. *)
Lemma restore_parent_spaces_skips svc ctl w v :
  cmds.attr w ctl "parent_space_data" = Some v →
  truthy v = false ∨ (∃ s j, v = VStr s ∧ json_loads svc s = Some j
                             ∧ ∀ pairs, j ≠ JObj pairs) →
  Rig.restore_parent_spaces svc ctl w = (w, Ok tt).
Proof.
  intros Hv Hcase. unfold Rig.restore_parent_spaces.
  rewrite (bind_eq_Ok _ _ _ _ _ (getAttr_Some _ _ _ _ Hv)). cbv beta.
  destruct Hcase as [->|(s & j & -> & Hj & Hobj)]; [done|].
  destruct (truthy (VStr s)); [|done]. simpl.
  unfold mbind, M_bind, bind, Rig.loads. rewrite Hj. simpl.
  destruct j; try done. by destruct (Hobj pairs).
Qed.

(** A non-empty blob that [json.loads] cannot decode raises out of the
    loop body: nothing catches the [ValueError]. *)
Lemma restore_parent_spaces_malformed svc ctl w s :
  cmds.attr w ctl "parent_space_data" = Some (VStr s) →
  s ≠ "" → json_loads svc s = None →
  Rig.restore_parent_spaces svc ctl w
  = (w, Raise (ValueError "not a JSON document")).
Proof.
  intros Hv Hs Hj. unfold Rig.restore_parent_spaces.
  rewrite (bind_eq_Ok _ _ _ _ _ (getAttr_Some _ _ _ _ Hv)). cbv beta.
  assert (truthy (VStr s) = true) as ->.
  { simpl. apply negb_true_iff. by apply String.eqb_neq. }
  simpl. unfold mbind, M_bind, bind, Rig.loads. by rewrite Hj.
Qed.

(** C4, failing input: the spine control stores ["{bad json"].  [build]
    raises [ValueError]; the rig is not flagged as built, the nodes created
    by the module pass are left without the marker, and the parent space of
    the arm control, whose blob is well formed, is not applied, while on the
    same rig with a sound blob it is. *)
Lemma build_aborts_on_malformed_parent_space_data :
  let aborted := Rig.build Studio.services Studio.scene_bad_json in
  let completed := Rig.build Studio.services Studio.scene in
  aborted.2 = Raise (ValueError "not a JSON document")
  ∧ cmds.attr aborted.1 Rig.rig_node "is_built" = Some (VBool false)
  ∧ (Rig.build_nodes aborted.1).2 = Ok []
  ∧ is_Some (dag aborted.1 !! "spine_rig")
  ∧ conns aborted.1 !! ("arm_ctl", "space") = None
  ∧ completed.2 = Ok tt
  ∧ conns completed.1 !! ("arm_ctl", "space") = Some ("spine_ctl", "worldMatrix").
Proof.
  cbv zeta. split_conj; first [by_run|vm_compute; eexists; reflexivity].
Qed.

(** ** [unbuild] on a rig that is not built *)

(** C7, failing input: a rig whose skeleton group has no descendant.
    [listRelatives] returns [None], [reversed] raises [TypeError]. *)
Lemma unbuild_raises_on_empty_skeleton :
  let run := Rig.unbuild Studio.services Studio.empty_rig in
  (Rig.build_nodes Studio.empty_rig).2 = Ok []
  ∧ cmds.attr Studio.empty_rig Rig.rig_node "is_built" = Some (VBool false)
  ∧ run.2 = Raise (TypeError "argument to reversed() must be a sequence").
Proof. cbv zeta. split_conj; by_run. Qed.

(** The same on a rig with joints: after a completed [build] and [unbuild]
    nothing drives the joints, and a second [unbuild] raises on the first
    [disconnectAttr]. *)
Lemma unbuild_twice_raises :
  let built := Rig.build Studio.services Studio.scene in
  let unbuilt := Rig.unbuild Studio.services built.1 in
  let again := Rig.unbuild Studio.services unbuilt.1 in
  built.2 = Ok tt ∧ unbuilt.2 = Ok tt
  ∧ (Rig.build_nodes unbuilt.1).2 = Ok []
  ∧ again.2 = Raise (RuntimeError "There is no connection to disconnect").
Proof. cbv zeta. split_conj; by_run. Qed.

(** ** Deleting nodes *)

Lemma delete_node_Ok n w w' :
  cmds.delete_node n w = (w', Ok tt) →
  is_Some (dag w !! n) ∧ dag w' = delete n (dag w).
Proof.
  unfold cmds.delete_node. destruct (dag w !! n) eqn:E; [|done].
  intros [= <-]. eauto.
Qed.

Lemma delete_Ok l w w' :
  cmds.delete l w = (w', Ok tt) →
  (∀ n, n ∈ l → dag w' !! n = None)
  ∧ (∀ n, n ∉ l → dag w' !! n = dag w !! n)
  ∧ (∀ n, n ∈ l → is_Some (dag w !! n)).
Proof.
  unfold cmds.delete. revert w. induction l as [|x l IH]; intros w.
  - intros [= <-]. split; [by intros n ?%elem_of_nil|]. split; [done|].
    by intros n ?%elem_of_nil.
  - rewrite for_each_cons. intros (w1 & [] & E1 & E2)%bind_Ok.
    apply delete_node_Ok in E1 as [Hx Hdag].
    destruct (IH _ E2) as (Hin & Hout & Hex).
    split; [|split].
    + intros n Hn. destruct (decide (n ∈ l)) as [?|Hnl]; [by apply Hin|].
      rewrite (Hout n Hnl), Hdag.
      apply elem_of_cons in Hn as [->|?]; [|done]. apply lookup_delete_eq.
    + intros n Hn. apply not_elem_of_cons in Hn as [Hne Hnl].
      rewrite (Hout n Hnl), Hdag. by apply lookup_delete_ne.
    + intros n Hn. apply elem_of_cons in Hn as [->|Hn]; [done|].
      specialize (Hex n Hn). rewrite Hdag in Hex.
      destruct (decide (x = n)) as [->|Hne];
        [by rewrite lookup_delete_eq in Hex; destruct Hex|].
      by rewrite lookup_delete_ne in Hex.
Qed.

Lemma attr_same_node w w' n a :
  dag w' !! n = dag w !! n → cmds.attr w' n a = cmds.attr w n a.
Proof. unfold cmds.attr. by intros ->. Qed.

(** ** [delete_module] *)

#[global] Instance keeps_attr_preorder a : PreOrder (keeps_attr a).
Proof.
  split; [by intros x n|]. intros x y z H1 H2 n. by rewrite H2, H1.
Qed.

#[global] Instance repairs_preorder target goal : PreOrder (repairs target goal).
Proof.
  split.
  - intros x Hx. split; [done|]. by left.
  - intros x y z H1 H2 Hx. destruct (H1 Hx) as [Hy H1'].
    destruct (H2 Hy) as [Hz H2']. split; [done|].
    intros n. destruct (H2' n) as [->|?]; [apply H1'|by right].
Qed.

Lemma keeps_attr_repairs target goal w w' :
  keeps_attr "parent_joint" w w' → repairs target goal w w'.
Proof. intros H Hw. split; [by rewrite H|]. intros n. left. apply H. Qed.

Lemma get_object_Ok n a w w' o :
  field.get_object n a w = (w', Ok o) →
  w' = w ∧ cmds.attr w n a = Some (match o with Some s => VStr s | None => VNone end).
Proof.
  intros E. pose proof (readonly_eq _ _ _ _ (readonly_get_object n a) E) as ->.
  split; [done|]. unfold field.get_object in E.
  apply bind_Ok in E as (w1 & v & E1 & E2).
  unfold cmds.getAttr in E1. destruct (cmds.attr w n a) as [v'|]; [|done].
  injection E1 as <- <-.
  by destruct v'; cbv [ret raise] in E2; simplify_eq.
Qed.

Lemma get_list_Ok n a w w' l :
  field.get_list n a w = (w', Ok l) → w' = w ∧ cmds.attr w n a = Some (VList l).
Proof.
  intros E. pose proof (readonly_eq _ _ _ _ (readonly_get_list n a) E) as ->.
  split; [done|]. unfold field.get_list in E.
  apply bind_Ok in E as (w1 & v & E1 & E2).
  unfold cmds.getAttr in E1. destruct (cmds.attr w n a) as [v'|]; [|done].
  injection E1 as <- <-.
  by destruct v'; cbv [ret raise] in E2; simplify_eq.
Qed.

Lemma bind_run {A B} (m : M A) (k : A → M B) w w' r :
  (m ≫= k) w = (w', r) →
  (∃ w1 a, m w = (w1, Ok a) ∧ k a w1 = (w', r))
  ∨ (∃ e, m w = (w', Raise e) ∧ r = Raise e).
Proof.
  unfold mbind, M_bind, bind. destruct (m w) as [w1 [a|e]]; [eauto|].
  intros [= <- <-]. eauto.
Qed.

Lemma preserves_repair svc target joints goal m :
  (∀ m', preserves (keeps_attr "parent_joint") (module_update svc m')) →
  preserves (repairs target goal) (Rig.repair_parent_joint svc target joints m).
Proof.
  intros Hupd w w' r E. unfold Rig.repair_parent_joint in E.
  apply bind_run in E as [(w1 & o & E1 & E)|(e & E1 & _)];
    [|by apply (readonly_eq _ _ _ _ (readonly_get_object _ _)) in E1 as ->].
  apply get_object_Ok in E1 as [-> _].
  destruct (Rig.in_joints o joints); [|by injection E as <-].
  apply bind_run in E as [(w1 & new & E1 & E)|(e & E1 & _)];
    [|by apply (readonly_eq _ _ _ _ (readonly_get_object _ _)) in E1 as ->].
  apply get_object_Ok in E1 as [-> Hnew].
  apply bind_run in E as [(w2 & [] & E2 & E)|(e & E2 & _)].
  - apply setAttr_Ok in E2 as [Hm ->].
    apply Hupd in E. intros Hw. rewrite Hnew in Hw. subst goal.
    assert (∀ n, cmds.attr w' n "parent_joint"
                 = if decide (m = n)
                   then Some match new with Some s => VStr s | None => VNone end
                   else cmds.attr w n "parent_joint") as Hw'.
    { intros n. rewrite E. case_decide as Hn.
      - subst n. apply attr_write_attr_eq. by eapply attr_is_Some_node.
      - apply attr_write_attr_ne. by left. }
    split.
    + rewrite Hw'. by case_decide.
    + intros n. rewrite Hw'. case_decide; [by right|by left].
  - unfold field.set_object in E2.
    apply setAttr_run in E2 as [[-> _]|(_ & _ & ?)]; [done|congruence].
Qed.

(** C6. On a built rig [delete_module] only logs an error: scene and
    connections are untouched.  On an unbuilt rig, when it completes, the
    loop over the modules has set the [parent_joint] of every other module
    whose [parent_joint] was among the target's [deform_joints] to the
    target's own [parent_joint], in a world [wr] reached before any deletion;
    the target's node and then its deform joints are deleted from [wr], and
    the repaired modules still carry the new [parent_joint] afterwards.
    [update] of a module is assumed to leave the [parent_joint] fields
    alone. *)
Theorem delete_module_guard_and_repair svc name w built :
  cmds.attr w Rig.rig_node "is_built" = Some built →
  (truthy built = true →
     Rig.delete_module svc name w
     = ({| dag := dag w; conns := conns w;
           log := log w ++ [(ERROR, "Cannot delete a module if the rig is built.")] |},
        Ok tt))
  ∧ (truthy built = false →
     (∀ m, preserves (keeps_attr "parent_joint") (module_update svc m)) →
     ∀ w', Rig.delete_module svc name w = (w', Ok tt) →
     ∃ joints modules wr wd,
       cmds.attr w name "deform_joints" = Some (VList joints)
       ∧ (Rig.rig_modules svc w).2 = Ok modules ∧ name ∈ modules
       ∧ for_each modules (Rig.repair_parent_joint svc name joints) w = (wr, Ok tt)
       ∧ cmds.delete [name] wr = (wd, Ok tt)
       ∧ cmds.delete joints wd = (w', Ok tt)
       ∧ dag w' !! name = None
       ∧ (∀ j, j ∈ joints → dag w' !! j = None)
       ∧ ∀ m j, m ∈ modules → m ≠ name →
           cmds.attr w m "parent_joint" = Some (VStr j) → j ∈ joints →
           cmds.attr wr m "parent_joint" = cmds.attr w name "parent_joint"
           ∧ (m ∉ joints →
              cmds.attr w' m "parent_joint" = cmds.attr w name "parent_joint")).
Proof.
  intros Hbuilt. unfold Rig.delete_module.
  rewrite (bind_eq_Ok _ _ _ _ _ (getAttr_Some _ _ _ _ Hbuilt)). cbv beta.
  split; [by intros ->|]. intros -> Hupd w' E.
  apply bind_Ok in E as (w1 & found & Eget & E).
  unfold Rig.get_module in Eget.
  apply bind_Ok in Eget as (w2 & modules & Emods & Eget).
  pose proof (readonly_eq _ _ _ _ (readonly_rig_modules svc) Emods) as ->.
  destruct (list_find (λ module, module = name) modules) as [[i target]|] eqn:Hfind.
  2:{ apply bind_Ok in Eget as (w3 & [] & _ & [= <- <-]). done. }
  injection Eget as <- <-.
  apply list_find_Some in Hfind as (Hi & -> & _).
  apply bind_Ok in E as (w1 & joints & Ejoints & E).
  apply get_list_Ok in Ejoints as [-> Hjoints].
  apply bind_Ok in E as (w1 & modules' & Emods' & E).
  pose proof (readonly_eq _ _ _ _ (readonly_rig_modules svc) Emods') as ->.
  assert (modules' = modules) as -> by congruence.
  apply bind_Ok in E as (wr & [] & Eloop & E).
  apply bind_Ok in E as (wd & [] & Edel1 & Edel2).
  destruct (delete_Ok _ _ _ Edel1) as (Hgone1 & Hkept1 & _).
  destruct (delete_Ok _ _ _ Edel2) as (Hgone2 & Hkept2 & _).
  exists joints, modules, wr, wd.
  split; [done|]. split; [by rewrite Emods|].
  split; [by eapply list_elem_of_lookup_2|].
  split; [done|]. split; [done|]. split; [done|]. split; [|split; [done|]].
  - destruct (decide (name ∈ joints)) as [?|Hn]; [by apply Hgone2|].
    rewrite (Hkept2 _ Hn). apply Hgone1. by left.
  - intros m j Hm Hne Hpj Hj.
    destruct (for_each_elem (repairs name (cmds.attr w name "parent_joint"))
                _ _ _ _ m (λ y _, preserves_repair svc name joints _ y Hupd) Hm Eloop)
      as (wa & wb & Ha & Ebody & Hb).
    destruct (Ha eq_refl) as [Hta Hna].
    assert (cmds.attr wb m "parent_joint" = cmds.attr w name "parent_joint") as Hmb.
    { pose proof (preserves_repair svc name joints (cmds.attr w name "parent_joint")
                    m Hupd _ _ _ Ebody Hta) as [_ Hstep].
      destruct (Hna m) as [Hsame|Hset]; [|destruct (Hstep m); congruence].
      unfold Rig.repair_parent_joint in Ebody.
      apply bind_Ok in Ebody as (w3 & o & Eo & Ebody).
      apply get_object_Ok in Eo as [-> Ho].
      rewrite Hsame, Hpj in Ho. destruct o as [s|]; [|done]. injection Ho as <-.
      simpl in Ebody. rewrite bool_decide_eq_true_2 in Ebody by done.
      apply bind_Ok in Ebody as (w3 & new & Enew & Ebody).
      apply get_object_Ok in Enew as [-> Hnew].
      apply bind_Ok in Ebody as (w3 & [] & Eset & Ebody).
      apply setAttr_Ok in Eset as [Hex ->].
      apply Hupd in Ebody. rewrite Ebody, <- Hta, Hnew.
      apply attr_write_attr_eq. by eapply attr_is_Some_node. }
    assert (cmds.attr wb name "parent_joint" = cmds.attr w name "parent_joint") as Htb.
    { by eapply (preserves_repair svc name joints _ m Hupd _ _ _ Ebody). }
    destruct (Hb Htb) as [_ Hfin].
    assert (cmds.attr wr m "parent_joint" = cmds.attr w name "parent_joint") as Hmr.
    { destruct (Hfin m); congruence. }
    split; [done|]. intros Hmj. rewrite <- Hmr.
    etrans; [apply attr_same_node, Hkept2, Hmj|].
    apply attr_same_node, Hkept1. by intros ->%list_elem_of_singleton.
Qed.

Lemma preserves_studio_parent a child new_parent :
  preserves (keeps_attr a) (Studio.parent child new_parent).
Proof.
  intros w w' r [= <- <-] n. unfold cmds.attr. simpl.
  destruct (decide (child = n)) as [<-|Hne].
  - rewrite lookup_alter_eq. by destruct (dag w !! child).
  - by rewrite lookup_alter_ne.
Qed.

Lemma preserves_chain_update a m : preserves (keeps_attr a) (Studio.chain_update m).
Proof.
  unfold Studio.chain_update.
  apply preserves_bind; [apply _|apply readonly_preserves; [apply _|solve_readonly]|].
  intros o.
  apply preserves_bind; [apply _|apply readonly_preserves; [apply _|solve_readonly]|].
  intros joints. apply preserves_for_each; [apply _|].
  intros j _. apply preserves_studio_parent.
Qed.

Lemma delete_module_guard_and_repair_witness :
  let refused := Rig.delete_module Studio.services "spine" Studio.scene_flagged_built in
  let deleted := Rig.delete_module Studio.services "spine" Studio.scene in
  refused.2 = Ok tt ∧ dag refused.1 = dag Studio.scene_flagged_built
  ∧ dag deleted.1 !! "spine" = None
  ∧ cmds.attr deleted.1 "arm" "parent_joint" = Some (VStr "root_jnt").
Proof.
  intros refused deleted.
  destruct (delete_module_guard_and_repair Studio.services "spine"
              Studio.scene_flagged_built (VBool true)) as [Ha _]; [by_run|].
  destruct (delete_module_guard_and_repair Studio.services "spine"
              Studio.scene (VBool false)) as [_ Hb]; [by_run|].
  specialize (Ha eq_refl).
  destruct (Hb eq_refl (preserves_chain_update "parent_joint") deleted.1)
    as (joints & modules & wr & wd & Hj & Hm & _ & _ & _ & _ & Hgone & _ & Hrep).
  { apply (run_Ok (Rig.delete_module Studio.services "spine") Studio.scene tt). by_run. }
  vm_compute in Hj. injection Hj as <-.
  vm_compute in Hm. injection Hm as <-.
  split; [|split; [|split]].
  - unfold refused. rewrite Ha. reflexivity.
  - unfold refused. rewrite Ha. reflexivity.
  - exact Hgone.
  - destruct (Hrep "arm" "spine_jnt") as [_ Hfin].
    + in_list.
    + intros [=].
    + by_run.
    + in_list.
    + rewrite Hfin; [by_run|].
      intros H. apply list_elem_of_singleton in H. discriminate H.
Defined.

(** ** Frames of the host commands *)

#[global] Instance settles_preorder : PreOrder settles.
Proof.
  split.
  - intros nd. by repeat split.
  - intros x y z (H1 & H2 & H3 & H4) (H5 & H6 & H7 & H8).
    split; [congruence|]. split; [intros a Ha; by rewrite H6, H2|]. split; auto.
Qed.

#[global] Instance survives_preorder : PreOrder survives.
Proof.
  split.
  - intros w n nd Hn. by exists nd.
  - intros x y z H1 H2 n nd'' Hn. destruct (H2 n nd'' Hn) as (nd' & Hn' & Hs').
    destruct (H1 n nd' Hn') as (nd & Hn0 & Hs). exists nd. split; [done|].
    by etrans.
Qed.

Lemma same_dag_survives w w' : same_dag w w' → survives w w'.
Proof. intros H n nd Hn. rewrite H in Hn. by exists nd. Qed.

Lemma preserves_setAttr_quiet n a v : preserves quiet (cmds.setAttr n a v).
Proof.
  intros w w' r [[-> _]|(Ha & -> & _)]%setAttr_run; [done|].
  split; [apply dom_write_attr|]. intros x. unfold tagged.
  destruct (decide (n = x ∧ a = Rig.marker)) as [[<- ->]|Hne].
  - rewrite attr_write_attr_eq by (by eapply attr_is_Some_node). split; [done|eauto].
  - rewrite attr_write_attr_ne; [done|].
    destruct (decide (n = x)); [right|left]; naive_solver.
Qed.

Lemma preserves_setAttr_survives n a v :
  settling_write a v → preserves survives (cmds.setAttr n a v).
Proof.
  intros Hav w w' r [[-> _]|(Ha & -> & _)]%setAttr_run; [done|].
  intros x nd'. unfold cmds.write_attr. simpl.
  destruct (decide (n = x)) as [<-|Hne]; [|rewrite lookup_alter_ne by done; by exists nd'].
  rewrite lookup_alter_eq. destruct (dag w !! n) as [nd|] eqn:Hn; [|done].
  simpl. intros [= <-]. exists nd. split; [done|]. unfold settles. simpl.
  split; [done|].
  assert (a ∈ volatile) as Hvol.
  { unfold volatile. destruct Hav as [->|[->|[[-> _]|[-> _]]]]; in_list. }
  split; [|split].
  - intros b Hb. apply lookup_insert_ne. by intros ->.
  - destruct (decide (a = "visibility")) as [->|Hne].
    + destruct Hav as [?|[?|[[_ ->]|[? _]]]]; try done. intros _. apply lookup_insert_eq.
    + by rewrite lookup_insert_ne.
  - destruct (decide (a = "is_built")) as [->|Hne].
    + destruct Hav as [?|[?|[[? _]|[_ ->]]]]; try done. intros _. apply lookup_insert_eq.
    + by rewrite lookup_insert_ne.
Qed.

Lemma preserves_disconnectAttr src dst : preserves same_dag (cmds.disconnectAttr src dst).
Proof.
  intros w w' r. unfold cmds.disconnectAttr.
  destruct src as [s|]; [case_decide|]; by intros [= <- <-].
Qed.

Lemma preserves_delete_node_survives n : preserves survives (cmds.delete_node n).
Proof.
  intros w w' r. unfold cmds.delete_node.
  destruct (dag w !! n) eqn:Hn; intros [= <- <-]; [|done].
  intros x nd'. simpl. intros [_ Hx]%lookup_delete_Some. by exists nd'.
Qed.

Lemma preserves_delete_survives l : preserves survives (cmds.delete l).
Proof.
  apply preserves_for_each; [apply _|]. intros n _. apply preserves_delete_node_survives.
Qed.

Create HintDb frames.

#[global] Hint Resolve preserves_setAttr_quiet preserves_disconnectAttr
  preserves_delete_survives preserves_delete_node_survives : frames.
#[global] Hint Resolve same_dag_quiet same_dag_survives quiet_additive : frames.

Ltac frame :=
  repeat first
    [ assumption
    | solve [eauto with frames]
    | apply readonly_preserves; [apply _|solve [solve_readonly]]
    | apply preserves_try_pass
    | apply preserves_for_each; [apply _|intros ? _]
    | apply preserves_bind; [apply _| |intros ?]
    | apply preserves_logger; solve [eauto with frames]
    | match goal with
      | |- preserves _ (match ?x with _ => _ end) => destruct x
      | |- preserves _ (if ?x then _ else _) => destruct x
      end ].

Lemma settling_shape_data v : settling_write "shape_data" v.
Proof. by left. Qed.

Lemma settling_attributes_state v : settling_write "attributes_state" v.
Proof. right. by left. Qed.

Lemma settling_visibility : settling_write "visibility" (VBool true).
Proof. right. right. by left. Qed.

Lemma settling_is_built : settling_write "is_built" (VBool false).
Proof. right. right. by right. Qed.

#[global] Hint Resolve preserves_setAttr_survives settling_shape_data
  settling_attributes_state settling_visibility settling_is_built : frames.

(** ** Frames of the loops of [unbuild] *)

Section unbuild_frames.
Variable svc : Services.

Lemma capture_state_survives ctl : preserves survives (Rig.capture_state svc ctl).
Proof. unfold Rig.capture_state. frame. Qed.

Lemma capture_state_quiet ctl : preserves quiet (Rig.capture_state svc ctl).
Proof. unfold Rig.capture_state. frame. Qed.

Lemma capture_module_survives m : preserves survives (Rig.capture_module svc m).
Proof. unfold Rig.capture_module. pose proof capture_state_survives. frame. Qed.

Lemma capture_module_quiet m : preserves quiet (Rig.capture_module svc m).
Proof. unfold Rig.capture_module. pose proof capture_state_quiet. frame. Qed.

Lemma disconnect_joint_same_dag joint : preserves same_dag (Rig.disconnect_joint joint).
Proof. unfold Rig.disconnect_joint. frame. Qed.

Lemma disconnect_joints_same_dag joints :
  preserves same_dag (for_each joints Rig.disconnect_joint).
Proof. pose proof disconnect_joint_same_dag. frame. Qed.

Lemma unbuild_flags_survives : preserves survives (Rig.unbuild_flags svc).
Proof. unfold Rig.unbuild_flags. frame. Qed.

Lemma unbuild_flags_quiet : preserves quiet (Rig.unbuild_flags svc).
Proof. unfold Rig.unbuild_flags. frame. Qed.

Lemma reset_pose_quiet :
  (∀ ctl, preserves quiet (reset_node svc ctl)) → preserves quiet (Rig.reset_pose svc).
Proof. intros H. unfold Rig.reset_pose. frame. Qed.

(** The modules [rig_modules] returns are the children of the modules
    group. *)
Lemma rig_modules_elem w modules :
  (Rig.rig_modules svc w).2 = Ok modules →
  ∃ group, cmds.attr w Rig.rig_node "modules_group" = Some (VStr group)
           ∧ ∀ m, m ∈ modules ↔ m ∈ cmds.children w group.
Proof.
  intros E%rig_modules_snd. unfold Rig.rig_modules in E.
  apply bind_Ok in E as (w1 & found & Edisc & E).
  apply discover_modules_Ok in Edisc as (group & Hg & _ & ->).
  exists group. split; [done|]. unfold Rig.sort_in_scene in E.
  destruct (sort_modules _ _ _) as [sorted|] eqn:Hsort; [|done].
  injection E as _ <-.
  apply sort_modules_perm in Hsort. intros m. by rewrite Hsort.
Qed.

End unbuild_frames.

Lemma get_name_Ok n a w w' s :
  field.get_name n a w = (w', Ok s) → w' = w ∧ cmds.attr w n a = Some (VStr s).
Proof.
  intros E. unfold field.get_name in E.
  apply bind_Ok in E as (w1 & o & [-> Ho]%get_object_Ok & E).
  destruct o as [s'|]; [|done]. by injection E as <- <-.
Qed.

Lemma attr_survives w w' n a :
  survives w w' → is_Some (dag w' !! n) → a ∉ volatile →
  cmds.attr w' n a = cmds.attr w n a.
Proof.
  intros Hs [nd' Hn'] Ha. destruct (Hs n nd' Hn') as (nd & Hn & _ & Hattrs & _).
  unfold cmds.attr. rewrite Hn, Hn'. by apply Hattrs.
Qed.

Lemma not_volatile a :
  a ≠ "shape_data" → a ≠ "attributes_state" → a ≠ "visibility" → a ≠ "is_built" →
  a ∉ volatile.
Proof.
  intros H1 H2 H3 H4 H. unfold volatile in H.
  repeat (apply elem_of_cons in H as [?|H]; [done|]). by apply elem_of_nil in H.
Qed.

(** A module of the later world was a module of the earlier one. *)
Lemma rig_modules_survive svc w w' modules modules' m :
  survives w w' →
  (Rig.rig_modules svc w).2 = Ok modules →
  (Rig.rig_modules svc w').2 = Ok modules' →
  m ∈ modules' → m ∈ modules ∧ is_Some (dag w' !! m).
Proof.
  intros Hs (g & Hg & Hel)%rig_modules_elem (g' & Hg' & Hel')%rig_modules_elem Hm.
  apply Hel', elem_of_children in Hm as (nd' & Hn' & Hp').
  split; [|eauto]. apply Hel, elem_of_children.
  destruct (Hs m nd' Hn') as (nd & Hn & Hp & _). exists nd. split; [done|].
  rewrite <- Hp, Hp'. f_equal.
  assert (cmds.attr w' Rig.rig_node "modules_group"
          = cmds.attr w Rig.rig_node "modules_group") as Heq.
  { apply attr_survives; [done| |by apply not_volatile].
    eapply attr_is_Some_node. by rewrite Hg'. }
  congruence.
Qed.

Lemma elem_of_build_nodes w n :
  n ∈ filter (tagged w) (cmds.all_nodes w) ↔ tagged w n.
Proof.
  rewrite list_elem_of_filter, elem_of_all_nodes. split; [by intros [? _]|].
  intros Ht. split; [done|]. by eapply attr_is_Some_node.
Qed.

(** ** [unbuild], step by step *)

Lemma unbuild_inv svc w w2 :
  Rig.unbuild svc w = (w2, Ok tt) →
  ∃ wa wb msb wcap wdis wc msc we wd,
    run_scripts svc "pre_unbuild" w = (wa, Ok tt)
    ∧ Rig.reset_pose svc wa = (wb, Ok tt)
    ∧ (Rig.rig_modules svc wb).2 = Ok msb
    ∧ for_each msb (Rig.capture_module svc) wb = (wcap, Ok tt)
    ∧ same_dag wcap wdis
    ∧ cmds.delete (filter (tagged wdis) (cmds.all_nodes wdis)) wdis = (wc, Ok tt)
    ∧ (Rig.rig_modules svc wc).2 = Ok msc
    ∧ for_each msc (λ module, cmds.setAttr module "is_built" (VBool false)) wc
      = (we, Ok tt)
    ∧ cmds.setAttr Rig.rig_node "is_built" (VBool false) we = (wd, Ok tt)
    ∧ run_scripts svc "post_unbuild" wd = (w2, Ok tt).
Proof.
  unfold Rig.unbuild. intros E.
  apply bind_Ok in E as (wa & [] & Epre & E).
  apply bind_Ok in E as (wb & [] & Ereset & E).
  apply bind_Ok in E as (wc & [] & Epurge & E).
  apply bind_Ok in E as (wd & [] & Eflags & Epost).
  unfold Rig.unbuild_purge in Epurge.
  apply bind_Ok in Epurge as (w1 & msb & Emsb & Epurge).
  pose proof (readonly_eq _ _ _ _ (readonly_rig_modules svc) Emsb) as ->.
  apply bind_Ok in Epurge as (wcap & [] & Ecap & Epurge).
  apply bind_Ok in Epurge as (w1 & joints & Ejoints & Epurge).
  pose proof (readonly_eq _ _ _ _ readonly_skeleton Ejoints) as ->.
  apply bind_Ok in Epurge as (wdis & [] & Edis & Epurge).
  apply bind_Ok in Epurge as (w1 & nodes & Enodes & Edel).
  rewrite build_nodes_eq in Enodes. injection Enodes as <- <-.
  unfold Rig.unbuild_flags in Eflags.
  apply bind_Ok in Eflags as (w1 & msc & Emsc & Eflags).
  pose proof (readonly_eq _ _ _ _ (readonly_rig_modules svc) Emsc) as ->.
  apply bind_Ok in Eflags as (we & [] & Eloop & Eset).
  exists wa, wb, msb, wcap, wdis, wc, msc, we, wd.
  split; [done|]. split; [done|]. split; [by rewrite Emsb|]. split; [done|].
  split; [by eapply disconnect_joints_same_dag|]. split; [done|].
  split; [by rewrite Emsc|]. done.
Qed.

(** The node set through [unbuild]: nothing changes it before the
    deletion, the deletion removes the tagged nodes, nothing changes it
    afterwards. *)
Lemma unbuild_node_set svc w w2 wa wb msb wcap wdis wc msc we wd :
  preserves quiet (run_scripts svc "pre_unbuild") →
  preserves quiet (run_scripts svc "post_unbuild") →
  (∀ ctl, preserves quiet (reset_node svc ctl)) →
  run_scripts svc "pre_unbuild" w = (wa, Ok tt) →
  Rig.reset_pose svc wa = (wb, Ok tt) →
  for_each msb (Rig.capture_module svc) wb = (wcap, Ok tt) →
  same_dag wcap wdis →
  cmds.delete (filter (tagged wdis) (cmds.all_nodes wdis)) wdis = (wc, Ok tt) →
  for_each msc (λ module, cmds.setAttr module "is_built" (VBool false)) wc
    = (we, Ok tt) →
  cmds.setAttr Rig.rig_node "is_built" (VBool false) we = (wd, Ok tt) →
  run_scripts svc "post_unbuild" wd = (w2, Ok tt) →
  quiet w wdis
  ∧ (∀ n, tagged wdis n → dag wc !! n = None)
  ∧ (∀ n, ¬ tagged wdis n → dag wc !! n = dag wdis !! n)
  ∧ dom (dag w2) = dom (dag wc).
Proof.
  intros Hpre Hpost Hreset Epre Ereset Ecap Hdis Edel Eloop Eset Epost.
  destruct (delete_Ok _ _ _ Edel) as (Hgone & Hkept & _).
  split; [|split; [|split]].
  - etrans; [by eapply Hpre|].
    etrans; [by eapply reset_pose_quiet|].
    etrans; [|by apply same_dag_quiet].
    eapply preserves_for_each; [apply _| |exact Ecap].
    intros y _. apply capture_module_quiet.
  - intros n Hn. by apply Hgone, elem_of_build_nodes.
  - intros n Hn. apply Hkept. by rewrite elem_of_build_nodes.
  - assert (quiet wc w2) as [Hdom _]; [|done].
    etrans; [|by eapply Hpost].
    etrans; [|by eapply preserves_setAttr_quiet].
    eapply preserves_for_each; [apply _| |exact Eloop].
    intros y _. apply preserves_setAttr_quiet.
Qed.

(** C8. When [unbuild] completes, the rig's [is_built] flag and the
    [is_built] flag of every module are false, the placement group of every
    module, where it still exists, is visible, and the nodes of the scene
    are exactly the nodes that were there before and did not carry the
    marker: every build node is deleted and every other node remains.
    The [pre_unbuild] scripts and [reset_node] are assumed to neither add
    nor remove nodes or markers, the [post_unbuild] scripts to leave the
    scene's nodes and attributes as they are. *)
Theorem unbuild_resets_rig svc w w2 :
  preserves quiet (run_scripts svc "pre_unbuild") →
  preserves same_dag (run_scripts svc "post_unbuild") →
  (∀ ctl, preserves quiet (reset_node svc ctl)) →
  Rig.unbuild svc w = (w2, Ok tt) →
  cmds.attr w2 Rig.rig_node "is_built" = Some (VBool false)
  ∧ (∀ modules m, (Rig.rig_modules svc w2).2 = Ok modules → m ∈ modules →
       cmds.attr w2 m "is_built" = Some (VBool false)
       ∧ ∀ group, cmds.attr w2 m "placement_group" = Some (VStr group) →
                  is_Some (dag w2 !! group) →
                  cmds.attr w2 group "visibility" = Some (VBool true))
  ∧ (∀ n, tagged w n → dag w2 !! n = None)
  ∧ (∀ n, ¬ tagged w n → is_Some (dag w2 !! n) ↔ is_Some (dag w !! n)).
Proof.
  intros Hpre Hpost_hook Hreset E.
  assert (preserves quiet (run_scripts svc "post_unbuild")) as Hpost_quiet.
  { eapply preserves_weaken; [apply same_dag_quiet|apply Hpost_hook]. }
  apply unbuild_inv in E as (wa & wb & msb & wcap & wdis & wc & msc & we & wd &
    Epre & Ereset & Hmsb & Ecap & Hdis & Edel & Hmsc & Eloop & Eset & Epost).
  pose proof (Hpost_hook _ _ _ Epost) as Hpost.
  pose proof (preserves_setAttr_survives _ _ _ settling_is_built _ _ _ Eset) as Hset.
  assert (survives wd w2) as Hs_post by by apply same_dag_survives.
  assert (survives wc we) as Hs_loop.
  { eapply preserves_for_each; [apply _| |exact Eloop].
    intros m _. apply preserves_setAttr_survives, settling_is_built. }
  assert (survives wc w2) as Hs_flags by (etrans; [|exact Hs_post]; by etrans).
  assert (survives wcap w2) as Hs_tail.
  { etrans; [|exact Hs_flags]. etrans; [by apply same_dag_survives|].
    eapply preserves_delete_survives, Edel. }
  split; [|split; [|split]].
  - apply setAttr_Ok in Eset as [Hex ->].
    erewrite attr_same_node; [|by rewrite Hpost].
    apply attr_write_attr_eq. by eapply attr_is_Some_node.
  - intros modules m Hmods Hm. split.
    + destruct (rig_modules_survive _ _ _ _ _ _ Hs_flags Hmsc Hmods Hm) as [Hin [nd2 Hnd2]].
      destruct (for_each_elem survives _ _ _ _ m
                  (λ y _, preserves_setAttr_survives y _ _ settling_is_built) Hin Eloop)
        as (w1 & w1' & _ & Ebody & Hb).
      apply setAttr_Ok in Ebody as [Hex ->].
      assert (survives (cmds.write_attr m "is_built" (VBool false) w1) w2) as Hs.
      { etrans; [exact Hb|]. by etrans. }
      destruct (Hs m nd2 Hnd2) as (nd & Hnd & _ & _ & _ & Hflag).
      unfold cmds.attr. rewrite Hnd2. apply Hflag.
      pose proof (attr_write_attr_eq w1 m "is_built" (VBool false)
                    (attr_is_Some_node _ _ _ Hex)) as Hw.
      unfold cmds.attr in Hw. by rewrite Hnd in Hw.
    + intros group Hgroup [ndg Hndg].
      assert (survives wb w2) as Hs_all.
      { etrans; [|exact Hs_tail].
        eapply preserves_for_each; [apply _| |exact Ecap].
        intros y _. apply capture_module_survives. }
      destruct (rig_modules_survive _ _ _ _ _ _ Hs_all Hmsb Hmods Hm) as [Hin Hnode].
      destruct (for_each_elem survives _ _ _ _ m
                  (λ y _, capture_module_survives svc y) Hin Ecap)
        as (w1 & w1' & _ & Ebody & Hb).
      unfold Rig.capture_module in Ebody.
      apply bind_Ok in Ebody as (w3 & ctls & [-> _]%get_list_Ok & Ebody).
      apply bind_Ok in Ebody as (w3 & [] & Ectls & Ebody).
      apply bind_Ok in Ebody as (w4 & pg & [-> Hpg]%get_name_Ok & Ebody).
      pose proof (preserves_setAttr_survives _ _ _ settling_visibility _ _ _ Ebody) as Hvis.
      apply setAttr_Ok in Ebody as [Hex ->].
      assert (survives (cmds.write_attr pg "visibility" (VBool true) w3) w2) as Hs.
      { etrans; [exact Hb|exact Hs_tail]. }
      assert (group = pg) as ->.
      { assert (cmds.attr w2 m "placement_group" = cmds.attr w3 m "placement_group") as Heq.
        { apply attr_survives; [by etrans|done|by apply not_volatile]. }
        congruence. }
      destruct (Hs pg ndg Hndg) as (nd & Hnd & _ & _ & Hv & _).
      unfold cmds.attr. rewrite Hndg. apply Hv.
      pose proof (attr_write_attr_eq w3 pg "visibility" (VBool true)
                    (attr_is_Some_node _ _ _ Hex)) as Hw.
      unfold cmds.attr in Hw. by rewrite Hnd in Hw.
  - intros n Hn.
    destruct (unbuild_node_set svc w w2 wa wb msb wcap wdis wc msc we wd)
      as (Hq & Hgone & _ & Hdom); try done.
    apply not_elem_of_dom. rewrite Hdom. apply not_elem_of_dom, Hgone.
    by apply Hq.
  - intros n Hn.
    destruct (unbuild_node_set svc w w2 wa wb msb wcap wdis wc msc we wd)
      as ([Hdom0 Htag] & _ & Hkept & Hdom); try done.
    rewrite <- !elem_of_dom, Hdom, <- Hdom0, !elem_of_dom.
    rewrite Hkept; [done|]. by rewrite Htag.
Qed.

Lemma unbuild_resets_rig_witness :
  let built := (Rig.build Studio.services Studio.scene).1 in
  let unbuilt := (Rig.unbuild Studio.services built).1 in
  cmds.attr unbuilt Rig.rig_node "is_built" = Some (VBool false)
  ∧ cmds.attr unbuilt "arm" "is_built" = Some (VBool false)
  ∧ cmds.attr unbuilt "arm_placement" "visibility" = Some (VBool true)
  ∧ dag unbuilt !! "arm_rig" = None
  ∧ is_Some (dag unbuilt !! "arm_ctl").
Proof.
  intros built unbuilt.
  destruct (unbuild_resets_rig Studio.services built unbuilt)
    as (Hrig & Hmods & Hgone & Hkept).
  - by intros w w' r [= <- <-].
  - by intros w w' r [= <- <-].
  - intros ctl. apply preserves_setAttr_quiet.
  - apply (run_Ok (Rig.unbuild Studio.services) built tt). by_run.
  - destruct (Hmods ["root"; "spine"; "arm"] "arm") as [Hflag Hvis];
      [by_run|in_list|].
    split_conj.
    + exact Hrig.
    + exact Hflag.
    + apply Hvis; [by_run|vm_compute; eexists; reflexivity].
    + apply Hgone. vm_compute. eexists. reflexivity.
    + apply Hkept; [|vm_compute; eexists; reflexivity].
      vm_compute. intros [x Hx]. discriminate Hx.
Defined.

(** ** Frames of the loops of [build] *)

Lemma preserves_quiet_additive {A} (f : M A) : preserves quiet f → preserves additive f.
Proof. apply preserves_weaken, quiet_additive. Qed.

Lemma logger_quiet lv msg : preserves quiet (logger lv msg).
Proof. apply preserves_logger. intros w w' H. by apply same_dag_quiet. Qed.

#[global] Hint Resolve logger_quiet preserves_quiet_additive : frames.

Section build_frames.
Variable svc : Services.
Hypothesis states_quiet : ∀ ctl state, preserves quiet (set_attributes_state svc ctl state).
Hypothesis spaces_quiet :
  ∀ ctl parents space_type,
    preserves quiet (create_space_switching svc ctl parents space_type).
Hypothesis builds_additive : ∀ m, preserves additive (module_build svc m).

Lemma restore_attributes_state_quiet ctl :
  preserves quiet (Rig.restore_attributes_state svc ctl).
Proof. unfold Rig.restore_attributes_state. frame. Qed.

Lemma build_module_additive m : preserves additive (Rig.build_module svc m).
Proof.
  unfold Rig.build_module. pose proof restore_attributes_state_quiet. frame.
Qed.

Lemma build_pass_additive : preserves additive (Rig.build_pass svc).
Proof. unfold Rig.build_pass. pose proof build_module_additive. frame. Qed.

Lemma restore_parent_spaces_quiet ctl :
  preserves quiet (Rig.restore_parent_spaces svc ctl).
Proof. unfold Rig.restore_parent_spaces. frame. Qed.

Lemma parent_space_pass_quiet : preserves quiet (Rig.parent_space_pass svc).
Proof. unfold Rig.parent_space_pass. pose proof restore_parent_spaces_quiet. frame. Qed.

End build_frames.

Lemma tagged_write_marker w n v x :
  is_Some (dag w !! n) →
  tagged (cmds.write_attr n Rig.marker v w) x ↔ x = n ∨ tagged w x.
Proof.
  intros Hn. unfold tagged. destruct (decide (n = x)) as [<-|Hne].
  - rewrite attr_write_attr_eq by done. split; [by left|eauto].
  - rewrite attr_write_attr_ne by (by left). split; [by right|].
    by intros [->|?].
Qed.

(** The tag loop, when it completes, adds the marker to the listed nodes
    and changes nothing else of the node set or the markers. *)
Lemma tag_nodes_frame nodes w w' :
  Rig._tag_nodes_for_unbuild nodes w = (w', Ok tt) →
  dom (dag w') = dom (dag w) ∧ ∀ n, tagged w' n ↔ n ∈ nodes ∨ tagged w n.
Proof.
  unfold Rig._tag_nodes_for_unbuild. revert w.
  induction nodes as [|x nodes IH]; intros w.
  - intros [= <-]. split; [done|]. intros n. split; [by right|].
    by intros [?%elem_of_nil|?].
  - rewrite for_each_cons. intros (w1 & [] & E1 & E2)%bind_Ok.
    apply addAttr_Ok in E1 as (Hx & _ & ->).
    destruct (IH _ E2) as [Hdom Htag]. split; [by rewrite Hdom, dom_write_attr|].
    intros n. rewrite Htag, tagged_write_marker, elem_of_cons by done. tauto.
Qed.

(** ** [build] then [unbuild] *)

(** C1. Amended: take a rig in which no node carries the marker, whose hook
    scripts, parent-space switching, attribute-state restoration and
    [reset_node] neither add nor remove nodes or markers, and whose module
    build routines delete no node and set no marker.  When [build] and then
    [unbuild] complete, the scene's node set is exactly its pre-build node
    set: every node created during the build, all of them by the per-module
    pass, carries the marker after [build] and is deleted by [unbuild].
    Nothing more is restored: connections and attribute values of the nodes
    that stay are what the cycle left them. *)
Theorem build_unbuild_restores_node_set svc w w1 w2 :
  (∀ phase, phase ∈ ["pre_build"; "post_build"; "pre_unbuild"; "post_unbuild"] →
            preserves quiet (run_scripts svc phase)) →
  (∀ ctl, preserves quiet (reset_node svc ctl)) →
  (∀ ctl state, preserves quiet (set_attributes_state svc ctl state)) →
  (∀ ctl parents space_type,
     preserves quiet (create_space_switching svc ctl parents space_type)) →
  (∀ m, preserves additive (module_build svc m)) →
  (∀ n, ¬ tagged w n) →
  Rig.build svc w = (w1, Ok tt) →
  Rig.unbuild svc w1 = (w2, Ok tt) →
  dom (dag w2) = dom (dag w)
  ∧ ∀ n, n ∈ dom (dag w1) → n ∉ dom (dag w) → tagged w1 n ∧ dag w2 !! n = None.
Proof.
  intros Hhook Hreset Hstate Hspace Hbuild Hclean Ebuild Eunbuild.
  unfold Rig.build in Ebuild.
  apply bind_Ok in Ebuild as (wa & [] & Epre & Ebuild).
  apply bind_Ok in Ebuild as (wb & bn & Epass & Efin).
  pose proof (build_pass_Ok _ _ _ _ Epass) as Hbn.
  pose proof (build_pass_additive svc Hstate Hbuild _ _ _ Epass) as [Hsub Htag_b].
  pose proof (Hhook "pre_build" ltac:(in_list) _ _ _ Epre) as [Hdom_a Htag_a].
  unfold Rig.build_finish in Efin.
  apply bind_Ok in Efin as (wc & [] & Espace & Efin).
  apply bind_Ok in Efin as (wd & [] & Epost & Efin).
  apply bind_Ok in Efin as (we & [] & Etag & Efin).
  apply bind_Ok in Efin as (wf & [] & Eset & Elog).
  pose proof (parent_space_pass_quiet svc Hspace _ _ _ Espace) as [Hdom_c Htag_c].
  pose proof (Hhook "post_build" ltac:(in_list) _ _ _ Epost) as [Hdom_d Htag_d].
  destruct (tag_nodes_frame _ _ _ Etag) as [Hdom_e Htag_e].
  pose proof (preserves_setAttr_quiet _ _ _ _ _ _ Eset) as [Hdom_f Htag_f].
  pose proof (logger_quiet _ _ _ _ _ Elog) as [Hdom_1 Htag_1].
  assert (dom (dag w1) = dom (dag wb)) as Hdom1 by congruence.
  assert (∀ n, tagged w1 n ↔ n ∈ dom (dag wb) ∧ n ∉ dom (dag wa)) as Htag1.
  { intros n. rewrite Htag_1, Htag_f, Htag_e, Hbn, list_elem_of_difference,
      !elem_of_all_nodes, <- !elem_of_dom.
    split; [|by left]. intros [?|Hn]; [done|].
    apply Htag_d, Htag_c, Htag_b, Htag_a in Hn. by destruct (Hclean n). }
  apply unbuild_inv in Eunbuild as (ua & ub & msb & ucap & udis & uc & msc & ue & ud &
    Eupre & Ereset & _ & Ecap & Hdis & Edel & _ & Eloop & Euset & Eupost).
  destruct (unbuild_node_set svc w1 w2 ua ub msb ucap udis uc msc ue ud)
    as ([Hdom_u Htag_u] & Hgone & Hkept & Hdom2); try done;
    [apply Hhook; in_list|apply Hhook; in_list|].
  split.
  - apply set_eq. intros n. rewrite Hdom2, <- Hdom_a.
    destruct (decide (tagged udis n)) as [Ht|Ht].
    + rewrite elem_of_dom, (Hgone n Ht). pose proof Ht as Ht'.
      apply Htag_u, Htag1 in Ht' as [_ ?]. split; [by intros [? ?]|done].
    + rewrite elem_of_dom, (Hkept n Ht), <- elem_of_dom, Hdom_u, Hdom1.
      rewrite Htag_u, Htag1 in Ht. split; [|by apply Hsub].
      intros Hn. destruct (decide (n ∈ dom (dag wa))); [done|]. by destruct Ht.
  - intros n Hn1 Hn. assert (tagged w1 n) as Ht.
    { apply Htag1. split; [by rewrite <- Hdom1|by rewrite Hdom_a]. }
    split; [done|]. apply not_elem_of_dom. rewrite Hdom2.
    apply not_elem_of_dom, Hgone. by apply Htag_u.
Qed.

(** The studio's services respect the frames the theorem asks for. *)

Lemma preserves_connectAttr src dst : preserves same_dag (Studio.connectAttr src dst).
Proof. by intros w w' r [= <- <-]. Qed.

Lemma preserves_createNode name : preserves additive (Studio.createNode name).
Proof.
  intros w w' r [= <- <-]. split; simpl.
  - rewrite dom_insert. set_solver.
  - intros n. unfold tagged, cmds.attr. simpl.
    destruct (decide (name = n)) as [<-|Hne]; [|by rewrite lookup_insert_ne].
    rewrite lookup_insert_eq. simpl. intros [v Hv].
    by vm_compute in Hv.
Qed.

Lemma studio_spaces_quiet ctl parents space_type :
  preserves quiet (create_space_switching Studio.services ctl parents space_type).
Proof.
  simpl. eapply preserves_weaken; [apply same_dag_quiet|].
  destruct parents as [| | | |[|[] ?]|];
    first [apply preserves_connectAttr|by intros w w' r [= <- <-]].
Qed.

Lemma studio_builds_additive m : preserves additive (module_build Studio.services m).
Proof.
  simpl. unfold Studio.chain_build.
  pose proof preserves_createNode.
  assert (∀ src dst, preserves additive (Studio.connectAttr src dst)) as Hconn.
  { intros src dst. apply preserves_quiet_additive.
    eapply preserves_weaken; [apply same_dag_quiet|apply preserves_connectAttr]. }
  frame.
Qed.

Lemma no_build_nodes w : (Rig.build_nodes w).2 = Ok [] → ∀ n, ¬ tagged w n.
Proof.
  rewrite build_nodes_eq. simpl. intros [= H] n Hn.
  apply elem_of_build_nodes in Hn. rewrite H in Hn. by apply elem_of_nil in Hn.
Qed.

Lemma build_unbuild_restores_node_set_witness :
  let built := (Rig.build Studio.services Studio.scene).1 in
  let unbuilt := (Rig.unbuild Studio.services built).1 in
  dom (dag unbuilt) = dom (dag Studio.scene)
  ∧ tagged built "arm_rig" ∧ dag unbuilt !! "arm_rig" = None.
Proof.
  intros built unbuilt.
  destruct (build_unbuild_restores_node_set Studio.services Studio.scene built unbuilt)
    as [Hdom Hnew].
  - by intros phase _ w w' r [= <- <-].
  - intros ctl. apply preserves_setAttr_quiet.
  - by intros ctl state w w' r [= <- <-].
  - apply studio_spaces_quiet.
  - apply studio_builds_additive.
  - apply no_build_nodes. by_run.
  - apply (run_Ok (Rig.build Studio.services) Studio.scene tt). by_run.
  - apply (run_Ok (Rig.unbuild Studio.services) built tt). by_run.
  - split; [exact Hdom|]. apply Hnew.
    + apply elem_of_dom. vm_compute. eexists. reflexivity.
    + apply not_elem_of_dom. by_run.
Defined.

(** C1, as stated, fails twice.  With a parent-space switch that creates
    its constraint node and a [post_build] script that creates a node,
    [build] and [unbuild] both complete, the nodes of the module pass are
    deleted, and the two nodes created after the second snapshot are still
    in the scene.  And in the studio whose services create nodes in the
    module pass only, where the node set is restored, the scene still
    differs from the pre-build one in more than the persisted blobs: the
    connection the space switch made between two controllers is still
    there, and the arm controller has the pose [reset_pose] gave it. *)
Lemma build_unbuild_leaves_untagged_nodes :
  let built := Rig.build Studio.services_with_extras Studio.scene in
  let unbuilt := Rig.unbuild Studio.services_with_extras built.1 in
  let cycled :=
    Rig.unbuild Studio.services (Rig.build Studio.services Studio.scene).1 in
  built.2 = Ok tt ∧ unbuilt.2 = Ok tt
  ∧ (Rig.build_nodes Studio.scene).2 = Ok []
  ∧ dag unbuilt.1 !! "arm_rig" = None
  ∧ dag Studio.scene !! "arm_ctl_space" = None
  ∧ is_Some (dag unbuilt.1 !! "arm_ctl_space")
  ∧ dag Studio.scene !! "post_build_locator" = None
  ∧ is_Some (dag unbuilt.1 !! "post_build_locator")
  ∧ cycled.2 = Ok tt
  ∧ conns Studio.scene !! ("arm_ctl", "space") = None
  ∧ conns cycled.1 !! ("arm_ctl", "space") = Some ("spine_ctl", "worldMatrix")
  ∧ cmds.attr Studio.scene "arm_ctl" "translate" = Some (VStr "1 2 3")
  ∧ cmds.attr cycled.1 "arm_ctl" "translate" = Some (VStr "0 0 0")
  ∧ dom (dag unbuilt.1) ≠ dom (dag Studio.scene).
Proof.
  cbv zeta. split_conj; try by_run; try (vm_compute; eexists; reflexivity).
  intros Heq.
  assert ("arm_ctl_space" ∈ dom (dag Studio.scene)) as Hin.
  { rewrite <- Heq. apply elem_of_dom. vm_compute. eexists. reflexivity. }
  apply elem_of_dom in Hin as [x Hx]. vm_compute in Hx. discriminate Hx.
Qed.

(** * Further properties of the class *)

(** ** Order of modules that do not depend on each other *)

Lemma pop_snoc l x : pop (l ++ [x]) = Some (x, l).
Proof.
  unfold pop. rewrite last_snoc, length_app. simpl.
  replace (length l + 1 - 1)%nat with (length l) by lia.
  by rewrite take_app_length.
Qed.

Lemma sort_loop_independent parent_module recursion_limit fuel modules sorted :
  (∀ m p, m ∈ modules → parent_module m = Some p → p ∉ modules) →
  (length modules ≤ fuel)%nat →
  sort_loop parent_module recursion_limit fuel modules sorted
  = Some (sorted ++ reverse modules).
Proof.
  revert modules sorted. induction fuel as [|fuel IH]; intros modules sorted Hind Hlen.
  - destruct modules; [|simpl in Hlen; lia]. simpl. by rewrite app_nil_r.
  - destruct modules as [|x modules _] using rev_ind; [simpl; by rewrite app_nil_r|].
    cbn [sort_loop]. rewrite pop_snoc.
    assert (sort_parent_module parent_module (S recursion_limit) x modules sorted
            = Some (modules, sorted ++ [x])) as ->.
    { simpl. destruct (parent_module x) as [p|] eqn:Hp; [|done].
      case_decide as Hin; [|done]. exfalso.
      eapply (Hind x p); [|done|]; apply elem_of_app; [right|left]; [by left|done]. }
    rewrite IH.
    + by rewrite reverse_snoc, <- app_assoc.
    + intros m p Hm Hp Hin. eapply (Hind m p); [|done|]; apply elem_of_app; by left.
    + rewrite length_app in Hlen. simpl in Hlen. lia.
Qed.

(** X1. When no module has its parent among the modules to sort, the sorter
    returns them in the reverse of the order in which they were listed: the
    loop pops from the end of the list.  Nothing recurses, so this holds
    whatever the recursion may nest. *)
Theorem sort_modules_reverses_independent parent_module recursion_limit modules :
  (∀ m p, m ∈ modules → parent_module m = Some p → p ∉ modules) →
  sort_modules parent_module recursion_limit modules = Some (reverse modules).
Proof.
  intros Hind. unfold sort_modules.
  by rewrite (sort_loop_independent _ _ _ _ [] Hind).
Qed.

Lemma sort_modules_reverses_independent_witness :
  sort_modules three_chain 0 ["C"; "A"; "X"] = Some ["X"; "A"; "C"].
Proof.
  apply (sort_modules_reverses_independent three_chain 0 ["C"; "A"; "X"]).
  intros m p Hm.
  repeat (apply elem_of_cons in Hm as [->|Hm]); [| | |by apply elem_of_nil in Hm];
    vm_compute; intros [= <-] H;
    repeat (apply elem_of_cons in H as [H|H]; [discriminate H|]);
    by apply elem_of_nil in H.
Defined.

(** ** Empty groups and unregistered module types *)

Lemma get_name_Some n a w s :
  cmds.attr w n a = Some (VStr s) → field.get_name n a w = (w, Ok s).
Proof.
  intros H.
  unfold field.get_name, field.get_object, mbind, M_bind, bind, cmds.getAttr.
  by rewrite H.
Qed.

Lemma listRelatives_eq w n :
  is_Some (dag w !! n) →
  cmds.listRelatives n w
  = (w, Ok (match cmds.children w n with [] => None | l => Some l end)).
Proof. intros [nd H]. unfold cmds.listRelatives. by rewrite H. Qed.

Lemma listRelatives_allDescendents_eq w n :
  is_Some (dag w !! n) →
  cmds.listRelatives_allDescendents n w
  = (w, Ok (match cmds.descendants w n with [] => None | l => Some l end)).
Proof. intros [nd H]. unfold cmds.listRelatives_allDescendents. by rewrite H. Qed.

(** X2. On a rig whose modules group has no child, [rig_modules] returns the
    empty list; on a rig whose skeleton group has no descendant, [skeleton]
    raises [TypeError] instead of returning the empty list. *)
Theorem empty_groups svc w group :
  is_Some (dag w !! group) →
  (cmds.attr w Rig.rig_node "modules_group" = Some (VStr group) →
   cmds.children w group = [] →
   Rig.rig_modules svc w = (w, Ok []))
  ∧ (cmds.attr w Rig.rig_node "skeleton_group" = Some (VStr group) →
     cmds.descendants w group = [] →
     Rig.skeleton w
     = (w, Raise (TypeError "argument to reversed() must be a sequence"))).
Proof.
  intros Hgroup. split; intros Hattr Hempty.
  - assert (Rig.discover_modules svc w = (w, Ok [])) as Hdisc.
    { unfold Rig.discover_modules.
      rewrite (bind_eq_Ok _ _ _ _ _ (get_name_Some _ _ _ _ Hattr)). cbv beta.
      rewrite (bind_eq_Ok _ _ _ _ _ (listRelatives_eq _ _ Hgroup)).
      by rewrite Hempty. }
    unfold Rig.rig_modules. by rewrite (bind_eq_Ok _ _ _ _ _ Hdisc).
  - unfold Rig.skeleton.
    rewrite (bind_eq_Ok _ _ _ _ _ (get_name_Some _ _ _ _ Hattr)). cbv beta.
    rewrite (bind_eq_Ok _ _ _ _ _ (listRelatives_allDescendents_eq _ _ Hgroup)).
    by rewrite Hempty.
Qed.

Lemma empty_groups_witness :
  Rig.rig_modules Studio.services Studio.empty_rig = (Studio.empty_rig, Ok [])
  ∧ Rig.skeleton Studio.empty_rig
    = (Studio.empty_rig, Raise (TypeError "argument to reversed() must be a sequence")).
Proof.
  split.
  - apply (proj1 (empty_groups Studio.services Studio.empty_rig "MODULES"
                    ltac:(vm_compute; eexists; reflexivity))); by_run.
  - apply (proj2 (empty_groups Studio.services Studio.empty_rig "SKELETON"
                    ltac:(vm_compute; eexists; reflexivity))); by_run.
Defined.

Lemma wrap_module_unregistered svc w node t :
  cmds.attr w node "module_type" = Some (VStr t) →
  all_rig_modules svc !! t = None →
  Rig.wrap_module svc node w = (w, Raise (KeyError t)).
Proof.
  intros Ht Hreg. unfold Rig.wrap_module.
  rewrite (bind_eq_Ok _ _ _ _ _ (getAttr_Some _ _ _ _ Ht)). cbv beta.
  by destruct (all_rig_modules svc !! t).
Qed.

Lemma wrap_modules_raises svc w nodes node t :
  node ∈ nodes →
  cmds.attr w node "module_type" = Some (VStr t) →
  all_rig_modules svc !! t = None →
  ∃ e, Rig.wrap_modules svc nodes w = (w, Raise e)
       ∧ ((∀ child, child ∈ nodes →
             ∃ t', cmds.attr w child "module_type" = Some (VStr t')) →
          ∃ t', e = KeyError t' ∧ all_rig_modules svc !! t' = None).
Proof.
  intros Hin Ht Hreg. induction nodes as [|x nodes IH]; [by apply elem_of_nil in Hin|].
  cbn [Rig.wrap_modules].
  destruct (Rig.wrap_module svc x w) as [w1 [m|e]] eqn:E1.
  - pose proof (readonly_eq _ _ _ _ (readonly_wrap_module svc x) E1) as ->.
    rewrite (bind_eq_Ok _ _ _ _ _ E1).
    apply elem_of_cons in Hin as [->|Hin].
    + rewrite (wrap_module_unregistered _ _ _ _ Ht Hreg) in E1. discriminate E1.
    + destruct (IH Hin) as (e & He & Hkey). exists e.
      split; [by rewrite (bind_eq_Raise _ _ _ _ _ He)|].
      intros Htyped. apply Hkey. intros child Hchild. apply Htyped. by right.
  - pose proof (readonly_eq _ _ _ _ (readonly_wrap_module svc x) E1) as ->.
    exists e. split; [by rewrite (bind_eq_Raise _ _ _ _ _ E1)|].
    intros Htyped. destruct (Htyped x) as [t' Ht']; [by left|].
    unfold Rig.wrap_module in E1.
    rewrite (bind_eq_Ok _ _ _ _ _ (getAttr_Some _ _ _ _ Ht')) in E1. cbv beta in E1.
    destruct (all_rig_modules svc !! t') eqn:Hreg'; [done|].
    injection E1 as <-. by exists t'.
Qed.

(** X3. A single child of the modules group whose [module_type] is not a key
    of the registry makes [rig_modules] raise, and with it every lookup by
    [get_module]: no module of the rig can be reached any more, also not the
    registered ones.  When the group exists and every child of it carries a
    module type, the exception is the [KeyError] of the registry lookup, for
    an unregistered type. *)
Theorem unregistered_module_type_blocks_the_rig svc w group node t :
  cmds.attr w Rig.rig_node "modules_group" = Some (VStr group) →
  node ∈ cmds.children w group →
  cmds.attr w node "module_type" = Some (VStr t) →
  all_rig_modules svc !! t = None →
  ∃ e, Rig.rig_modules svc w = (w, Raise e)
       ∧ (∀ name, Rig.get_module svc name w = (w, Raise e))
       ∧ (is_Some (dag w !! group) →
          (∀ child, child ∈ cmds.children w group →
             ∃ t', cmds.attr w child "module_type" = Some (VStr t')) →
          ∃ t', e = KeyError t' ∧ all_rig_modules svc !! t' = None).
Proof.
  intros Hgroup Hnode Ht Hreg.
  assert (∃ e, Rig.discover_modules svc w = (w, Raise e)
               ∧ (is_Some (dag w !! group) →
                  (∀ child, child ∈ cmds.children w group →
                     ∃ t', cmds.attr w child "module_type" = Some (VStr t')) →
                  ∃ t', e = KeyError t' ∧ all_rig_modules svc !! t' = None))
    as (e & Hdisc & Hkey).
  { unfold Rig.discover_modules.
    rewrite (bind_eq_Ok _ _ _ _ _ (get_name_Some _ _ _ _ Hgroup)). cbv beta.
    destruct (dag w !! group) as [nd|] eqn:Hex.
    - rewrite (bind_eq_Ok _ _ _ _ _ (listRelatives_eq _ _ (mk_is_Some _ _ Hex))).
      destruct (wrap_modules_raises svc w (cmds.children w group) node t)
        as (e & He & Hkey); [done..|].
      exists e. split; [by destruct (cmds.children w group)|]. intros _. exact Hkey.
    - exists (cmds.no_object group). split; [|by intros [? ?]].
      apply bind_eq_Raise. unfold cmds.listRelatives. by rewrite Hex. }
  assert (Rig.rig_modules svc w = (w, Raise e)) as Hmods.
  { unfold Rig.rig_modules. by apply bind_eq_Raise. }
  exists e. split; [done|]. split; [|done]. intros name.
  unfold Rig.get_module. by apply bind_eq_Raise.
Qed.

Lemma unregistered_module_type_blocks_the_rig_witness :
  let w := cmds.write_attr "spine" "module_type" (VStr "tentacle") Studio.scene in
  (Rig.rig_modules Studio.services w).2 = Raise (KeyError "tentacle")
  ∧ (Rig.get_module Studio.services "root" w).2 = Raise (KeyError "tentacle").
Proof.
  intros w.
  destruct (unregistered_module_type_blocks_the_rig Studio.services w
              "MODULES" "spine" "tentacle") as (e & Hmods & Hget & Hkey).
  - by_run.
  - apply elem_of_children. vm_compute. eexists. split; reflexivity.
  - by_run.
  - by_run.
  - assert (e = KeyError "tentacle") as ->.
    { destruct Hkey as (t' & -> & _).
      - vm_compute. eexists. reflexivity.
      - replace (cmds.children w "MODULES") with ["spine"; "arm"; "root"] by by_run.
        intros child Hchild.
        repeat (apply elem_of_cons in Hchild as [->|Hchild];
                [vm_compute; eexists; reflexivity|]).
        apply elem_of_nil in Hchild. destruct Hchild.
      - apply (f_equal snd) in Hmods. vm_compute in Hmods.
        injection Hmods as <-. reflexivity. }
    rewrite Hmods, Hget. split; reflexivity.
Defined.

(** X4. [get_module] with the name of one of the rig's modules returns that
    module; it logs nothing and leaves the world as it is. *)
Theorem get_module_finds svc name w modules :
  (Rig.rig_modules svc w).2 = Ok modules → name ∈ modules →
  Rig.get_module svc name w = (w, Ok (Some name)).
Proof.
  intros Hmods%rig_modules_snd Hname. unfold Rig.get_module.
  rewrite (bind_eq_Ok _ _ _ _ _ Hmods).
  destruct (list_find (λ module, module = name) modules) as [[i x]|] eqn:Hfind.
  - by apply list_find_Some in Hfind as (_ & -> & _).
  - apply list_find_None in Hfind. rewrite Forall_forall in Hfind.
    by destruct (Hfind name Hname).
Qed.

Lemma get_module_finds_witness :
  (Rig.get_module Studio.services "spine" Studio.scene).2 = Ok (Some "spine")
  ∧ log (Rig.get_module Studio.services "spine" Studio.scene).1 = [].
Proof.
  rewrite (get_module_finds Studio.services "spine" Studio.scene
             ["root"; "spine"; "arm"] ltac:(by_run) ltac:(in_list)).
  split; reflexivity.
Defined.

(** ** Capturing and restoring a controller's state *)

Lemma setAttr_Some w n a v :
  is_Some (cmds.attr w n a) → cmds.setAttr n a v w = (cmds.write_attr n a v w, Ok tt).
Proof. intros [x H]. unfold cmds.setAttr. by rewrite H. Qed.

Lemma capture_shape_failure svc ctl w e :
  get_shape_data svc ctl w = Raise e →
  try_pass (shape_data ← observe (get_shape_data svc ctl);
            cmds.setAttr ctl "shape_data" (VStr (json_dumps svc shape_data))) w
  = (w, Ok tt).
Proof.
  intros H. unfold try_pass, mbind, M_bind, bind, observe. by rewrite H.
Qed.

(** X5. When the shape of a controller cannot be read, [unbuild] goes on
    for that controller: its [attributes_state] is still captured and
    stored, and nothing else of it changes.  A failure of the attribute
    state service is not caught: it is raised to the caller. *)
Theorem capture_state_shape_failure svc ctl w e :
  get_shape_data svc ctl w = Raise e →
  (∀ state, get_attributes_state svc ctl w = Ok state →
     is_Some (cmds.attr w ctl "attributes_state") →
     Rig.capture_state svc ctl w
     = (cmds.write_attr ctl "attributes_state" (VStr (json_dumps svc state)) w, Ok tt))
  ∧ (∀ e', get_attributes_state svc ctl w = Raise e' →
     Rig.capture_state svc ctl w = (w, Raise e')).
Proof.
  intros Hshape. split.
  - intros state Hstate Hattr. unfold Rig.capture_state.
    rewrite (bind_eq_Ok _ _ _ _ _ (capture_shape_failure _ _ _ _ Hshape)).
    unfold mbind, M_bind, bind, observe. rewrite Hstate.
    by apply setAttr_Some.
  - intros e' Hstate. unfold Rig.capture_state.
    rewrite (bind_eq_Ok _ _ _ _ _ (capture_shape_failure _ _ _ _ Hshape)).
    unfold mbind, M_bind, bind, observe. by rewrite Hstate.
Qed.

Lemma capture_state_shape_failure_witness :
  (Rig.capture_state Studio.services "arm_ctl" Studio.scene).2 = Ok tt
  ∧ cmds.attr (Rig.capture_state Studio.services "arm_ctl" Studio.scene).1
      "arm_ctl" "shape_data" = Some (VStr "")
  ∧ (Rig.capture_state studio_without_attribute_states "arm_ctl" Studio.scene).2
    = Raise (RuntimeError "no attribute to read").
Proof.
  destruct (capture_state_shape_failure Studio.services "arm_ctl" Studio.scene
              (RuntimeError "no shape to read") ltac:(by_run)) as [Hok _].
  destruct (capture_state_shape_failure studio_without_attribute_states "arm_ctl"
              Studio.scene (RuntimeError "no shape to read") ltac:(by_run)) as [_ Hraise].
  rewrite (Hok (JObj [("locked", JArr [])]) eq_refl
             ltac:(vm_compute; eexists; reflexivity)).
  rewrite (Hraise (RuntimeError "no attribute to read") eq_refl).
  split_conj; by_run.
Defined.

(** X6. What [unbuild] stores for a controller is what [build] hands back:
    when [capture_state] completes, the stored [attributes_state] is the
    serialization of the state the service returned, and, if [json.loads]
    decodes that serialization to the same state, [build] calls
    [set_attributes_state] with exactly this state. *)
Theorem capture_then_restore svc ctl w w' :
  Rig.capture_state svc ctl w = (w', Ok tt) →
  ∃ w1 state,
    (w1 = w ∨ ∃ shape, get_shape_data svc ctl w = Ok shape
                       ∧ w1 = cmds.write_attr ctl "shape_data"
                                (VStr (json_dumps svc shape)) w)
    ∧ get_attributes_state svc ctl w1 = Ok state
    ∧ w' = cmds.write_attr ctl "attributes_state" (VStr (json_dumps svc state)) w1
    ∧ (json_loads svc (json_dumps svc state) = Some state →
       json_dumps svc state ≠ "" →
       Rig.restore_attributes_state svc ctl w' = set_attributes_state svc ctl state w').
Proof.
  unfold Rig.capture_state. intros E.
  apply bind_Ok in E as (w1 & [] & Etry & E).
  apply bind_Ok in E as (w2 & state & Estate & Eset).
  injection Estate as <- Hstate.
  apply setAttr_Ok in Eset as [Hattr ->].
  exists w1, state. split; [|split; [done|split; [done|]]].
  - unfold try_pass in Etry.
    destruct ((shape_data ← observe (get_shape_data svc ctl);
               cmds.setAttr ctl "shape_data" (VStr (json_dumps svc shape_data))) w)
      as [w3 [[]|e]] eqn:Ebody; injection Etry as <-.
    + right. apply bind_Ok in Ebody as (w4 & shape & Eshape & Eset).
      injection Eshape as <- Hshape. apply setAttr_Ok in Eset as [_ ->]. eauto.
    + left. apply bind_run in Ebody as [(w4 & shape & Eshape & Eset)|(e' & Eshape & _)].
      * injection Eshape as <- _.
        by apply setAttr_run in Eset as [[-> _]|(_ & _ & ?)].
      * by injection Eshape as <-.
  - intros Hloads Hne. unfold Rig.restore_attributes_state.
    rewrite (bind_eq_Ok _ _ _ _ _
               (getAttr_Some _ _ _ _ (attr_write_attr_eq _ _ _ _ (attr_is_Some_node _ _ _ Hattr)))).
    cbv beta.
    assert (truthy (VStr (json_dumps svc state)) = true) as ->.
    { simpl. apply negb_true_iff. by apply String.eqb_neq. }
    unfold mbind, M_bind, bind, Rig.loads. by rewrite Hloads.
Qed.

Lemma capture_then_restore_witness :
  let w' := (Rig.capture_state Studio.services "spine_ctl" Studio.scene).1 in
  cmds.attr w' "spine_ctl" "attributes_state"
  = Some (VStr (Codec.dumps (JObj [("locked", JArr [])])))
  ∧ Rig.restore_attributes_state Studio.services "spine_ctl" w' = (w', Ok tt).
Proof.
  intros w'.
  destruct (capture_then_restore Studio.services "spine_ctl" Studio.scene w')
    as (w1 & state & _ & Hstate & Hw' & Hround).
  - apply (run_Ok (Rig.capture_state Studio.services "spine_ctl") Studio.scene tt).
    by_run.
  - injection Hstate as <-. split; [by_run|].
    rewrite Hround; [reflexivity|by_run|vm_compute; discriminate].
Defined.

Lemma json_get_absent key pairs default :
  key ∉ pairs.*1 → json_get key pairs default = default.
Proof.
  revert default. induction pairs as [|[k v] pairs IH]; intros default Hkey; [done|].
  simpl in *. apply not_elem_of_cons in Hkey as [Hne Hkey].
  case_decide; [by subst|]. by apply IH.
Qed.

Lemma restore_parent_spaces_object svc ctl w s pairs :
  cmds.attr w ctl "parent_space_data" = Some (VStr s) →
  s ≠ "" → json_loads svc s = Some (JObj pairs) →
  Rig.restore_parent_spaces svc ctl w
  = (if json_truthy (json_get "parents" pairs (JArr []))
     then create_space_switching svc ctl (json_get "parents" pairs (JArr []))
            (json_get "space_type" pairs (JStr "parent"))
     else ret tt) w.
Proof.
  intros Hv Hs Hj. unfold Rig.restore_parent_spaces.
  rewrite (bind_eq_Ok _ _ _ _ _ (getAttr_Some _ _ _ _ Hv)). cbv beta.
  assert (truthy (VStr s) = true) as ->.
  { simpl. apply negb_true_iff. by apply String.eqb_neq. }
  simpl. unfold mbind, M_bind, bind, Rig.loads. by rewrite Hj.
Qed.

Lemma json_get_app key pre post default :
  json_get key (pre ++ post) default = json_get key post (json_get key pre default).
Proof.
  revert default. induction pre as [|[k v] pre IH]; intros default; [done|].
  simpl. case_decide; apply IH.
Qed.

(** [spaces.get(key, default)] is the value of the last pair with the
    key. *)
Lemma json_get_last key pre v post default :
  key ∉ post.*1 → json_get key (pre ++ (key, v) :: post) default = v.
Proof.
  intros Hpost. rewrite json_get_app. simpl. rewrite decide_True by done.
  by apply json_get_absent.
Qed.

(** X7. How [build] reads a controller's [parent_space_data].  A blob that
    is [None], empty, or a JSON document that is not an object applies
    nothing.  Of an object, whatever its other keys and their order, the
    value of [parents] counts (the last one, if the key is repeated): with
    no such key, or with a value that is empty or otherwise false, nothing
    is applied; with any other value the space switch is created with that
    value and with the value of [space_type], or with ["parent"] when the
    object has no such key. *)
Theorem parent_spaces_from_blob svc ctl w v :
  cmds.attr w ctl "parent_space_data" = Some v →
  (truthy v = false → Rig.restore_parent_spaces svc ctl w = (w, Ok tt))
  ∧ (∀ s j, v = VStr s → json_loads svc s = Some j → (∀ pairs, j ≠ JObj pairs) →
       Rig.restore_parent_spaces svc ctl w = (w, Ok tt))
  ∧ (∀ s pairs, v = VStr s → s ≠ "" → json_loads svc s = Some (JObj pairs) →
       ("parents" ∉ pairs.*1 →
        Rig.restore_parent_spaces svc ctl w = (w, Ok tt))
       ∧ (∀ pre parents post,
            pairs = pre ++ ("parents", parents) :: post → "parents" ∉ post.*1 →
            (json_truthy parents = false →
             Rig.restore_parent_spaces svc ctl w = (w, Ok tt))
            ∧ (json_truthy parents = true → "space_type" ∉ pairs.*1 →
               Rig.restore_parent_spaces svc ctl w
               = create_space_switching svc ctl parents (JStr "parent") w)
            ∧ (json_truthy parents = true →
               ∀ pre' space_type post',
                 pairs = pre' ++ ("space_type", space_type) :: post' →
                 "space_type" ∉ post'.*1 →
                 Rig.restore_parent_spaces svc ctl w
                 = create_space_switching svc ctl parents space_type w))).
Proof.
  intros Hv. split; [|split].
  - intros Hfalse. eapply restore_parent_spaces_skips; [done|by left].
  - intros s j -> Hj Hobj. eapply restore_parent_spaces_skips; [done|].
    right. eauto.
  - intros s pairs -> Hs Hj.
    rewrite (restore_parent_spaces_object _ _ _ _ _ Hv Hs Hj).
    split.
    + intros Habsent. by rewrite (json_get_absent _ _ _ Habsent).
    + intros pre parents post Hpairs Hpost.
      assert (json_get "parents" pairs (JArr []) = parents) as ->.
      { rewrite Hpairs. by apply json_get_last. }
      split; [by intros ->|]. split.
      * intros -> Habsent. by rewrite (json_get_absent _ _ _ Habsent).
      * intros -> pre' space_type post' Hpairs' Hpost'.
        assert (json_get "space_type" pairs (JStr "parent") = space_type) as ->; [|done].
        rewrite Hpairs'. by apply json_get_last.
Qed.

Lemma parent_spaces_from_blob_witness :
  Rig.restore_parent_spaces Studio.services "arm_ctl" Studio.scene
  = Studio.connectAttr ("spine_ctl", "worldMatrix") ("arm_ctl", "space") Studio.scene
  ∧ Rig.restore_parent_spaces Studio.services "spine_ctl" Studio.scene
    = (Studio.scene, Ok tt).
Proof.
  destruct (parent_spaces_from_blob Studio.services "arm_ctl" Studio.scene
              (VStr Studio.arm_spaces) ltac:(by_run)) as (_ & _ & Hobj).
  destruct (Hobj Studio.arm_spaces
              [("parents", JArr [JStr "spine_ctl"]); ("space_type", JStr "parent")]
              eq_refl ltac:(vm_compute; discriminate) ltac:(by_run))
    as (_ & Hparents).
  destruct (Hparents [] (JArr [JStr "spine_ctl"]) [("space_type", JStr "parent")]
              eq_refl) as (_ & _ & Htyped).
  { intros Hin. apply list_elem_of_singleton in Hin. discriminate Hin. }
  destruct (parent_spaces_from_blob Studio.services "spine_ctl" Studio.scene
              (VStr "") ltac:(by_run)) as (Hskip & _ & _).
  split.
  - rewrite (Htyped eq_refl [("parents", JArr [JStr "spine_ctl"])] (JStr "parent") []
               eq_refl (not_elem_of_nil _)).
    reflexivity.
  - apply Hskip. reflexivity.
Defined.

(** X8. How [build] reads a controller's [attributes_state].  A blob that
    is [None] or empty is skipped; a non-empty blob that [json.loads] cannot
    decode raises [ValueError] out of [build], before anything is changed
    for that controller; every document that decodes, whatever its shape,
    is handed to [set_attributes_state]. *)
Theorem attributes_state_from_blob svc ctl w v :
  cmds.attr w ctl "attributes_state" = Some v →
  (truthy v = false → Rig.restore_attributes_state svc ctl w = (w, Ok tt))
  ∧ (∀ s, v = VStr s → s ≠ "" → json_loads svc s = None →
       Rig.restore_attributes_state svc ctl w
       = (w, Raise (ValueError "not a JSON document")))
  ∧ (∀ s state, v = VStr s → s ≠ "" → json_loads svc s = Some state →
       Rig.restore_attributes_state svc ctl w = set_attributes_state svc ctl state w).
Proof.
  intros Hv. unfold Rig.restore_attributes_state.
  rewrite (bind_eq_Ok _ _ _ _ _ (getAttr_Some _ _ _ _ Hv)). cbv beta.
  split; [by intros ->|].
  assert (∀ s, s ≠ "" → truthy (VStr s) = true) as Htruthy.
  { intros s Hs. simpl. apply negb_true_iff. by apply String.eqb_neq. }
  split.
  - intros s -> Hs Hj. rewrite (Htruthy s Hs).
    unfold mbind, M_bind, bind, Rig.loads. by rewrite Hj.
  - intros s state -> Hs Hj. rewrite (Htruthy s Hs).
    unfold mbind, M_bind, bind, Rig.loads. by rewrite Hj.
Qed.

Lemma attributes_state_from_blob_witness :
  let w := cmds.write_attr "arm_ctl" "attributes_state" (VStr "[1, 2") Studio.scene in
  Rig.restore_attributes_state Studio.services "arm_ctl" w
  = (w, Raise (ValueError "not a JSON document"))
  ∧ Rig.restore_attributes_state Studio.services "spine_ctl" w = (w, Ok tt).
Proof.
  intros w.
  destruct (attributes_state_from_blob Studio.services "arm_ctl" w (VStr "[1, 2")
              ltac:(by_run)) as (_ & Hbad & _).
  destruct (attributes_state_from_blob Studio.services "spine_ctl" w (VStr "")
              ltac:(by_run)) as (Hskip & _ & _).
  split.
  - apply (Hbad "[1, 2" eq_refl); [vm_compute; discriminate|by_run].
  - apply Hskip. reflexivity.
Defined.

(** ** Tagging, exactly *)

(** X9. [_tag_nodes_for_unbuild] completes exactly when the nodes it is
    given are distinct, exist and do not carry the marker yet; it then adds
    the marker to these nodes and to no other, and leaves the node set as it
    is. *)
Theorem tagging_is_exact nodes w :
  (NoDup nodes ∧ (∀ n, n ∈ nodes → is_Some (dag w !! n) ∧ ¬ tagged w n) →
   ∃ w', Rig._tag_nodes_for_unbuild nodes w = (w', Ok tt))
  ∧ (∀ w', Rig._tag_nodes_for_unbuild nodes w = (w', Ok tt) →
       NoDup nodes ∧ (∀ n, n ∈ nodes → is_Some (dag w !! n) ∧ ¬ tagged w n)
       ∧ dom (dag w') = dom (dag w)
       ∧ ∀ n, tagged w' n ↔ n ∈ nodes ∨ tagged w n).
Proof.
  split.
  - revert w. induction nodes as [|x nodes IH]; intros w [Hnd Hnodes].
    + by exists w.
    + apply NoDup_cons in Hnd as [Hx Hnd].
      destruct (Hnodes x) as [[nd Hex] Hfree]; [by left|].
      assert (cmds.addAttr x Rig.marker (VBool true) w
              = (cmds.write_attr x Rig.marker (VBool true) w, Ok tt)) as Hadd.
      { unfold cmds.addAttr. rewrite Hex.
        destruct (n_attrs nd !! Rig.marker) eqn:Hm; [|done].
        destruct Hfree. unfold tagged, cmds.attr. rewrite Hex. eauto. }
      destruct (IH (cmds.write_attr x Rig.marker (VBool true) w)) as [w' Hw'].
      { split; [done|]. intros n Hn. destruct (Hnodes n) as [Hn1 Hn2]; [by right|].
        split.
        - apply elem_of_dom. rewrite dom_write_attr. by apply elem_of_dom.
        - rewrite tagged_write_marker by eauto. intros [->|?]; done. }
      exists w'. unfold Rig._tag_nodes_for_unbuild in *.
      rewrite for_each_cons. by rewrite (bind_eq_Ok _ _ _ _ _ Hadd).
  - intros w' E. destruct (tag_nodes_frame _ _ _ E) as [Hdom Htag].
    split; [|split; [|done]];
      unfold Rig._tag_nodes_for_unbuild in E; clear Hdom Htag;
      revert w E; induction nodes as [|x nodes IH]; intros w E.
    + constructor.
    + rewrite for_each_cons in E. apply bind_Ok in E as (w1 & [] & E1 & E2).
      apply addAttr_Ok in E1 as (Hx & Hfree & ->).
      apply NoDup_cons. split; [|by eapply IH].
      intros Hin.
      assert (∀ l w0 w2, for_each l (λ node, cmds.addAttr node Rig.marker (VBool true)) w0
                = (w2, Ok tt) → ∀ n, n ∈ l → ¬ tagged w0 n) as Hfresh.
      { clear. induction l as [|y l IHl]; intros w0 w2 E n Hn; [by apply elem_of_nil in Hn|].
        rewrite for_each_cons in E. apply bind_Ok in E as (w1 & [] & E1 & E2).
        apply addAttr_Ok in E1 as (Hy & Hfree & ->).
        apply elem_of_cons in Hn as [->|Hn].
        - unfold tagged. rewrite Hfree. by intros [? ?].
        - intros Ht. eapply (IHl _ _ E2 n Hn). apply tagged_write_marker; auto. }
      eapply (Hfresh _ _ _ E2 x Hin). apply tagged_write_marker; auto.
    + by intros n ?%elem_of_nil.
    + rewrite for_each_cons in E. apply bind_Ok in E as (w1 & [] & E1 & E2).
      apply addAttr_Ok in E1 as (Hx & Hfree & ->).
      intros n [->|Hn]%elem_of_cons.
      * split; [done|]. unfold tagged. rewrite Hfree. by intros [? ?].
      * destruct (IH _ E2 n Hn) as [Hn1 Hn2]. split.
        -- apply elem_of_dom. apply elem_of_dom in Hn1. by rewrite dom_write_attr in Hn1.
        -- intros Ht. apply Hn2. apply tagged_write_marker; auto.
Qed.

Lemma tagging_is_exact_witness :
  ∃ w', Rig._tag_nodes_for_unbuild ["root_jnt"; "arm_jnt"] Studio.scene = (w', Ok tt).
Proof.
  apply (proj1 (tagging_is_exact ["root_jnt"; "arm_jnt"] Studio.scene)).
  split.
  - apply NoDup_cons. split.
    + intros H. apply list_elem_of_singleton in H. discriminate H.
    + apply NoDup_singleton.
  - intros n Hn.
    repeat (apply elem_of_cons in Hn as [->|Hn]); [| |by apply elem_of_nil in Hn];
      (split; [vm_compute; eexists; reflexivity|vm_compute; intros [x Hx]; discriminate Hx]).
Defined.

(** ** What [delete_module] leaves alone *)

#[global] Instance same_nodes_preorder : PreOrder same_nodes.
Proof. split; [done|]. intros x y z H1 H2. unfold same_nodes in *. congruence. Qed.

Lemma parent_joint_of_eq w w' n :
  cmds.attr w' n "parent_joint" = cmds.attr w n "parent_joint" →
  parent_joint_of w' n = parent_joint_of w n.
Proof. unfold parent_joint_of. by intros ->. Qed.

#[global] Instance keeps_independent_preorder joints n :
  PreOrder (keeps_independent joints n).
Proof.
  split; [by intros x Hx|]. intros x y z H1 H2 Hx.
  rewrite H2, H1; [done|done|]. by rewrite (parent_joint_of_eq _ _ _ (H1 Hx)).
Qed.

Lemma delete_module_inv svc name w w' built :
  cmds.attr w Rig.rig_node "is_built" = Some built → truthy built = false →
  Rig.delete_module svc name w = (w', Ok tt) →
  ∃ joints modules wr wd,
    cmds.attr w name "deform_joints" = Some (VList joints)
    ∧ (Rig.rig_modules svc w).2 = Ok modules ∧ name ∈ modules
    ∧ for_each modules (Rig.repair_parent_joint svc name joints) w = (wr, Ok tt)
    ∧ cmds.delete [name] wr = (wd, Ok tt)
    ∧ cmds.delete joints wd = (w', Ok tt).
Proof.
  intros Hbuilt Hfalse E. unfold Rig.delete_module in E.
  rewrite (bind_eq_Ok _ _ _ _ _ (getAttr_Some _ _ _ _ Hbuilt)) in E. cbv beta in E.
  rewrite Hfalse in E.
  apply bind_Ok in E as (w1 & found & Eget & E).
  unfold Rig.get_module in Eget.
  apply bind_Ok in Eget as (w2 & modules & Emods & Eget).
  pose proof (readonly_eq _ _ _ _ (readonly_rig_modules svc) Emods) as ->.
  destruct (list_find (λ module, module = name) modules) as [[i target]|] eqn:Hfind.
  2:{ apply bind_Ok in Eget as (w3 & [] & _ & [= <- <-]). done. }
  injection Eget as <- <-.
  apply list_find_Some in Hfind as (Hi & -> & _).
  apply bind_Ok in E as (w1 & joints & Ejoints & E).
  apply get_list_Ok in Ejoints as [-> Hjoints].
  apply bind_Ok in E as (w1 & modules' & Emods' & E).
  pose proof (readonly_eq _ _ _ _ (readonly_rig_modules svc) Emods') as ->.
  assert (modules' = modules) as -> by congruence.
  apply bind_Ok in E as (wr & [] & Eloop & E).
  apply bind_Ok in E as (wd & [] & Edel1 & Edel2).
  exists joints, modules, wr, wd.
  split; [done|]. split; [by rewrite Emods|].
  split; [by eapply list_elem_of_lookup_2|]. done.
Qed.

Lemma preserves_setAttr_same_nodes n a v : preserves same_nodes (cmds.setAttr n a v).
Proof.
  intros w w' r [[-> _]|(_ & -> & _)]%setAttr_run; [done|]. apply dom_write_attr.
Qed.

Lemma repair_same_nodes svc target joints m :
  (∀ m', preserves same_nodes (module_update svc m')) →
  preserves same_nodes (Rig.repair_parent_joint svc target joints m).
Proof.
  intros Hupd. unfold Rig.repair_parent_joint, field.set_object.
  pose proof preserves_setAttr_same_nodes. frame.
Qed.

Lemma repair_keeps_independent svc target joints n m :
  (∀ m', preserves (keeps_attr "parent_joint") (module_update svc m')) →
  preserves (keeps_independent joints n) (Rig.repair_parent_joint svc target joints m).
Proof.
  intros Hupd w w' r E Hn. unfold Rig.repair_parent_joint in E.
  apply bind_run in E as [(w1 & o & E1 & E)|(e & E1 & _)];
    [|by apply (readonly_eq _ _ _ _ (readonly_get_object _ _)) in E1 as ->].
  apply get_object_Ok in E1 as [-> Ho].
  destruct (Rig.in_joints o joints) eqn:Hin; [|by injection E as <-].
  assert (m ≠ n) as Hne.
  { intros ->. unfold parent_joint_of in Hn. rewrite Ho in Hn.
    destruct o; simpl in *; congruence. }
  apply bind_run in E as [(w1 & new & E1 & E)|(e & E1 & _)];
    [|by apply (readonly_eq _ _ _ _ (readonly_get_object _ _)) in E1 as ->].
  apply get_object_Ok in E1 as [-> _].
  apply bind_run in E as [(w2 & [] & E2 & E)|(e & E2 & _)].
  - apply setAttr_Ok in E2 as [_ ->]. apply Hupd in E. rewrite E.
    apply attr_write_attr_ne. by left.
  - unfold field.set_object in E2.
    apply setAttr_run in E2 as [[-> _]|(_ & _ & ?)]; [done|congruence].
Qed.

(** X10. After a completed [delete_module] the node of the module and its
    deform joints are gone and no node is new, and every node that is left
    has the [parent_joint] it had, unless that [parent_joint] was one of the
    deleted joints.  [update] of a module is assumed to neither add nor
    remove nodes and to leave the [parent_joint] fields alone. *)
Theorem delete_module_touches_only_dependants svc name w w' built :
  (∀ m, preserves (keeps_attr "parent_joint") (module_update svc m)) →
  (∀ m, preserves same_nodes (module_update svc m)) →
  cmds.attr w Rig.rig_node "is_built" = Some built → truthy built = false →
  Rig.delete_module svc name w = (w', Ok tt) →
  ∃ joints,
    cmds.attr w name "deform_joints" = Some (VList joints)
    ∧ (∀ n, n ∈ dom (dag w') → n ∈ dom (dag w) ∧ n ≠ name ∧ n ∉ joints)
    ∧ (∀ n, n ∈ dom (dag w') →
         Rig.in_joints (parent_joint_of w n) joints = false →
         cmds.attr w' n "parent_joint" = cmds.attr w n "parent_joint").
Proof.
  intros Hattr Hnodes Hbuilt Hfalse E.
  apply (delete_module_inv _ _ _ _ _ Hbuilt Hfalse) in E
    as (joints & modules & wr & wd & Hjoints & _ & _ & Eloop & Edel1 & Edel2).
  destruct (delete_Ok _ _ _ Edel1) as (Hgone1 & Hkept1 & _).
  destruct (delete_Ok _ _ _ Edel2) as (Hgone2 & Hkept2 & _).
  assert (same_nodes w wr) as Hdom.
  { eapply preserves_for_each; [apply _| |exact Eloop].
    intros m _. by apply repair_same_nodes. }
  assert (∀ n, dag w' !! n = if decide (n = name ∨ n ∈ joints) then None
                             else dag wr !! n) as Hdag.
  { intros n. case_decide as Hn.
    - destruct (decide (n ∈ joints)) as [?|Hnj]; [by apply Hgone2|].
      rewrite (Hkept2 _ Hnj). apply Hgone1. destruct Hn as [->|?]; [by left|done].
    - rewrite Hkept2 by tauto. apply Hkept1.
      intros ->%list_elem_of_singleton. tauto. }
  exists joints. split; [done|]. split.
  - intros n. rewrite elem_of_dom, Hdag, <- Hdom. case_decide as Hn.
    + by intros [? ?].
    + rewrite <- elem_of_dom. tauto.
  - intros n Hn Hind.
    assert (¬ (n = name ∨ n ∈ joints)) as Hkeep.
    { intros Hdel. apply elem_of_dom in Hn. rewrite Hdag in Hn.
      rewrite decide_True in Hn by done. by destruct Hn. }
    assert (keeps_independent joints n w wr) as Hloop.
    { eapply preserves_for_each; [apply _| |exact Eloop].
      intros m _. by apply repair_keeps_independent. }
    etrans; [apply attr_same_node; rewrite Hdag; by rewrite decide_False|].
    by apply Hloop.
Qed.

Lemma preserves_chain_update_nodes m : preserves same_nodes (Studio.chain_update m).
Proof.
  unfold Studio.chain_update.
  assert (∀ child new_parent, preserves same_nodes (Studio.parent child new_parent)) as Hp.
  { intros child new_parent w w' r [= <- <-]. unfold same_nodes. simpl.
    apply set_eq. intros x. rewrite !elem_of_dom.
    destruct (decide (child = x)) as [<-|Hne].
    - rewrite lookup_alter_eq. by rewrite fmap_is_Some.
    - by rewrite lookup_alter_ne. }
  frame.
Qed.

Lemma delete_module_touches_only_dependants_witness :
  let w' := (Rig.delete_module Studio.services "arm" Studio.scene).1 in
  ("arm" ∉ dom (dag w')) ∧ ("arm_jnt" ∉ dom (dag w'))
  ∧ cmds.attr w' "spine" "parent_joint" = Some (VStr "root_jnt").
Proof.
  intros w'.
  destruct (delete_module_touches_only_dependants Studio.services "arm" Studio.scene
              w' (VBool false)) as (joints & Hjoints & Hdom & Hkeep).
  - apply preserves_chain_update.
  - apply preserves_chain_update_nodes.
  - by_run.
  - reflexivity.
  - apply (run_Ok (Rig.delete_module Studio.services "arm") Studio.scene tt). by_run.
  - vm_compute in Hjoints. injection Hjoints as <-.
    assert ("spine" ∈ dom (dag w')) as Hspine.
    { apply elem_of_dom. vm_compute. eexists. reflexivity. }
    split_conj.
    + intros (_ & Hne & _)%Hdom. by apply Hne.
    + intros (_ & _ & Hnj)%Hdom. apply Hnj. in_list.
    + rewrite (Hkeep "spine" Hspine); by_run.
Defined.

(** ** The flag through the life cycle *)

Lemma build_sets_flag svc w w1 :
  Rig.build svc w = (w1, Ok tt) →
  cmds.attr w1 Rig.rig_node "is_built" = Some (VBool true).
Proof.
  unfold Rig.build, Rig.build_finish. intros E.
  apply bind_Ok in E as (wa & [] & _ & E).
  apply bind_Ok in E as (wb & bn & _ & E).
  apply bind_Ok in E as (wc & [] & _ & E).
  apply bind_Ok in E as (wd & [] & _ & E).
  apply bind_Ok in E as (we & [] & _ & E).
  apply bind_Ok in E as (wf & [] & Eset & Elog).
  injection Elog as <-. apply setAttr_Ok in Eset as [Hflag ->].
  change (cmds.attr (cmds.write_attr Rig.rig_node "is_built" (VBool true) we)
            Rig.rig_node "is_built" = Some (VBool true)).
  apply attr_write_attr_eq. by eapply attr_is_Some_node.
Qed.

Lemma unbuild_clears_flag svc w w2 :
  preserves same_dag (run_scripts svc "post_unbuild") →
  Rig.unbuild svc w = (w2, Ok tt) →
  cmds.attr w2 Rig.rig_node "is_built" = Some (VBool false).
Proof.
  intros Hpost E.
  apply unbuild_inv in E as (wa & wb & msb & wcap & wdis & wc & msc & we & wd &
    _ & _ & _ & _ & _ & _ & _ & _ & Eset & Epost).
  apply Hpost in Epost. apply setAttr_Ok in Eset as [Hex ->].
  erewrite attr_same_node; [|by rewrite Epost].
  apply attr_write_attr_eq. by eapply attr_is_Some_node.
Qed.

(** X11. The guards follow the life cycle.  After a completed [build],
    [add_module] raises [RuntimeError] for every module type and
    [delete_module] only logs its error, for every name, both without
    touching the scene.  After a completed [unbuild] whose [post_unbuild]
    scripts leave the scene as it is, [add_module] runs the constructor of
    a registered type again. *)
Theorem guards_follow_life_cycle svc w w' :
  (Rig.build svc w = (w', Ok tt) →
   (∀ module_type args kwargs,
      Rig.add_module svc module_type args kwargs w'
      = (w', Raise (RuntimeError "Cannot add module when the rig is built.")))
   ∧ (∀ name,
      Rig.delete_module svc name w'
      = ({| dag := dag w'; conns := conns w';
            log := log w' ++ [(ERROR, "Cannot delete a module if the rig is built.")] |},
         Ok tt)))
  ∧ (preserves same_dag (run_scripts svc "post_unbuild") →
     Rig.unbuild svc w = (w', Ok tt) →
     ∀ module_type args kwargs new,
       all_rig_modules svc !! module_type = Some new →
       Rig.add_module svc module_type args kwargs w'
       = new args (<["rig" := VStr Rig.rig_node]> kwargs) w').
Proof.
  split.
  - intros Hflag%build_sets_flag. split.
    + intros module_type args kwargs. unfold Rig.add_module.
      by rewrite (bind_eq_Ok _ _ _ _ _ (getAttr_Some _ _ _ _ Hflag)).
    + intros name. unfold Rig.delete_module.
      by rewrite (bind_eq_Ok _ _ _ _ _ (getAttr_Some _ _ _ _ Hflag)).
  - intros Hpost Hflag%unbuild_clears_flag; [|done].
    intros module_type args kwargs new Hnew. unfold Rig.add_module.
    rewrite (bind_eq_Ok _ _ _ _ _ (getAttr_Some _ _ _ _ Hflag)). cbv beta. simpl.
    by destruct (all_rig_modules svc !! module_type); simplify_eq.
Qed.

Lemma guards_follow_life_cycle_witness :
  let built := (Rig.build Studio.services Studio.scene).1 in
  (Rig.add_module Studio.services "chain" [] ∅ built).2
  = Raise (RuntimeError "Cannot add module when the rig is built.")
  ∧ (Rig.delete_module Studio.services "arm" built).2 = Ok tt
  ∧ dag (Rig.delete_module Studio.services "arm" built).1 = dag built.
Proof.
  intros built.
  destruct (guards_follow_life_cycle Studio.services Studio.scene built) as [Hbuilt _].
  destruct Hbuilt as [Hadd Hdel].
  - apply (run_Ok (Rig.build Studio.services) Studio.scene tt). by_run.
  - rewrite Hadd, Hdel. split_conj; reflexivity.
Defined.

(** ** Winding down: nodes, hierarchy and connections only shrink *)

#[global] Instance unwinds_preorder : PreOrder unwinds.
Proof.
  split.
  - intros w. split; [|done]. intros n nd Hn. by exists nd.
  - intros x y z [H1 H1'] [H2 H2']. split; [|by auto].
    intros n nd'' Hn. destruct (H2 n nd'' Hn) as (nd' & Hn' & Hp' & Ha').
    destruct (H1 n nd' Hn') as (nd & Hn0 & Hp & Ha). exists nd.
    split; [done|]. split; congruence.
Qed.

Lemma same_scene_unwinds w w' : dag w' = dag w → conns w' = conns w → unwinds w w'.
Proof.
  intros Hd Hc. split; [|by rewrite Hc]. intros n nd Hn. rewrite Hd in Hn. by exists nd.
Qed.

Lemma preserves_setAttr_unwinds n a v :
  a ≠ "skeleton_group" → preserves unwinds (cmds.setAttr n a v).
Proof.
  intros Ha w w' r [[-> _]|(_ & -> & _)]%setAttr_run; [done|].
  split; [|done]. intros x nd'. unfold cmds.write_attr. simpl.
  destruct (decide (n = x)) as [<-|Hne]; [|rewrite lookup_alter_ne by done; by exists nd'].
  rewrite lookup_alter_eq. destruct (dag w !! n) as [nd|] eqn:Hn; [|done].
  simpl. intros [= <-]. exists nd. split; [done|]. split; [done|]. simpl.
  by rewrite lookup_insert_ne.
Qed.

Lemma preserves_disconnectAttr_unwinds src dst :
  preserves unwinds (cmds.disconnectAttr src dst).
Proof.
  intros w w' r. unfold cmds.disconnectAttr.
  destruct src as [s|]; [case_decide|]; intros [= <- <-]; try done.
  split; [intros n nd Hn; by exists nd|]. simpl.
  by intros plug source [_ ?]%lookup_delete_Some.
Qed.

Lemma preserves_delete_node_unwinds n : preserves unwinds (cmds.delete_node n).
Proof.
  intros w w' r. unfold cmds.delete_node.
  destruct (dag w !! n) eqn:Hn; intros [= <- <-]; [|done]. split; simpl.
  - intros x nd' [_ Hx]%lookup_delete_Some. by exists nd'.
  - by intros plug source [? _]%map_lookup_filter_Some.
Qed.

Lemma preserves_delete_unwinds l : preserves unwinds (cmds.delete l).
Proof.
  apply preserves_for_each; [apply _|]. intros n _. apply preserves_delete_node_unwinds.
Qed.

Lemma logger_unwinds lv msg : preserves unwinds (logger lv msg).
Proof. intros w w' r [= <- <-]. by apply same_scene_unwinds. Qed.

Lemma not_skeleton_group a :
  a ∈ volatile → a ≠ "skeleton_group".
Proof.
  unfold volatile. intros H ->.
  repeat (apply elem_of_cons in H as [H|H]; [discriminate H|]). by apply elem_of_nil in H.
Qed.

Section unwinding.
Variable svc : Services.

Lemma capture_state_unwinds ctl : preserves unwinds (Rig.capture_state svc ctl).
Proof.
  unfold Rig.capture_state.
  assert (∀ a v, a ∈ volatile → preserves unwinds (cmds.setAttr ctl a v)) as Hset.
  { intros a v Ha. by apply preserves_setAttr_unwinds, not_skeleton_group. }
  pose proof (λ v, Hset "shape_data" v ltac:(unfold volatile; in_list)).
  pose proof (λ v, Hset "attributes_state" v ltac:(unfold volatile; in_list)).
  frame.
Qed.

Lemma capture_module_unwinds m : preserves unwinds (Rig.capture_module svc m).
Proof.
  unfold Rig.capture_module. pose proof capture_state_unwinds.
  assert (∀ n v, preserves unwinds (cmds.setAttr n "visibility" v)) as Hset.
  { intros n v. apply preserves_setAttr_unwinds, not_skeleton_group.
    unfold volatile. in_list. }
  frame.
Qed.

Lemma disconnect_joint_unwinds joint : preserves unwinds (Rig.disconnect_joint joint).
Proof.
  unfold Rig.disconnect_joint. pose proof preserves_disconnectAttr_unwinds. frame.
Qed.

Lemma unbuild_flags_unwinds : preserves unwinds (Rig.unbuild_flags svc).
Proof.
  unfold Rig.unbuild_flags.
  assert (∀ n v, preserves unwinds (cmds.setAttr n "is_built" v)) as Hset.
  { intros n v. apply preserves_setAttr_unwinds, not_skeleton_group.
    unfold volatile. in_list. }
  frame.
Qed.

Lemma unbuild_purge_unwinds : preserves unwinds (Rig.unbuild_purge svc).
Proof.
  unfold Rig.unbuild_purge.
  pose proof capture_module_unwinds. pose proof disconnect_joint_unwinds.
  pose proof preserves_delete_unwinds. frame.
Qed.

Lemma reset_pose_unwinds :
  (∀ ctl, preserves unwinds (reset_node svc ctl)) → preserves unwinds (Rig.reset_pose svc).
Proof. intros H. unfold Rig.reset_pose. frame. Qed.

End unwinding.

Lemma is_under_fuel w fuel fuel' root x :
  (fuel ≤ fuel')%nat → cmds.is_under w fuel root x = true →
  cmds.is_under w fuel' root x = true.
Proof.
  revert fuel' x. induction fuel as [|fuel IH]; intros fuel' x Hle; [done|].
  destruct fuel' as [|fuel']; [lia|]. simpl.
  destruct (dag w !! x) as [nd|]; [|done]. destruct (n_parent nd) as [p|]; [|done].
  case_decide; [done|]. apply IH. lia.
Qed.

Lemma is_under_unwinds w w' fuel root x :
  unwinds w w' → cmds.is_under w' fuel root x = true →
  cmds.is_under w fuel root x = true.
Proof.
  intros [Hu _]. revert x. induction fuel as [|fuel IH]; intros x; [done|]. simpl.
  destruct (dag w' !! x) as [nd'|] eqn:Hx; [|done].
  destruct (Hu x nd' Hx) as (nd & -> & Hp & _). rewrite <- Hp.
  destruct (n_parent nd') as [p|]; [|done]. case_decide; [done|]. apply IH.
Qed.

Lemma unwinds_size w w' : unwinds w w' → (size (dag w') ≤ size (dag w))%nat.
Proof.
  intros [Hu _]. rewrite <- !size_dom. apply subseteq_size.
  intros n [nd' Hn]%elem_of_dom. destruct (Hu n nd' Hn) as (nd & ? & _).
  apply elem_of_dom. eauto.
Qed.

(** A descendant of a group after winding down was one before. *)
Lemma descendants_unwinds w w' group x :
  unwinds w w' → x ∈ cmds.descendants w' group → x ∈ cmds.descendants w group.
Proof.
  intros Hu. unfold cmds.descendants. rewrite !list_elem_of_filter, !elem_of_all_nodes.
  intros [Hunder [nd' Hx]]. split.
  - eapply is_under_fuel; [by apply unwinds_size|]. by eapply is_under_unwinds.
  - destruct Hu as [Hu _]. destruct (Hu x nd' Hx) as (nd & ? & _). eauto.
Qed.

(** ** The joints after [unbuild] *)

Lemma disconnect_channel_Ok plug w w' :
  (input_attr ← cmds.connectionInfo_sourceFromDestination plug;
   cmds.disconnectAttr input_attr plug) w = (w', Ok tt) →
  is_Some (conns w !! plug) ∧ conns w' = delete plug (conns w) ∧ dag w' = dag w.
Proof.
  intros (w1 & src & [= <- <-] & E)%bind_Ok. unfold cmds.disconnectAttr in E.
  destruct (conns w !! plug) as [s|] eqn:Hs; [|done].
  rewrite decide_True in E by done. by injection E as <-.
Qed.

Lemma disconnect_joint_Ok joint w w' :
  Rig.disconnect_joint joint w = (w', Ok tt) →
  is_Some (conns w !! (joint, "translate"))
  ∧ ∀ a, a ∈ channels → conns w' !! (joint, a) = None.
Proof.
  unfold Rig.disconnect_joint. rewrite !for_each_cons.
  intros (w1 & [] & (Ht & Hc1 & _)%disconnect_channel_Ok
          & (w2 & [] & (_ & Hc2 & _)%disconnect_channel_Ok
          & (w3 & [] & (_ & Hc3 & _)%disconnect_channel_Ok
          & [= <-])%bind_Ok)%bind_Ok)%bind_Ok.
  split; [done|]. intros a Ha. rewrite Hc3, Hc2, Hc1. unfold channels in Ha.
  apply elem_of_cons in Ha as [->|Ha];
    [by rewrite !lookup_delete_ne, lookup_delete_eq by (intros [=])|].
  apply elem_of_cons in Ha as [->|Ha];
    [by rewrite lookup_delete_ne, lookup_delete_eq by (intros [=])|].
  apply list_elem_of_singleton in Ha as ->. apply lookup_delete_eq.
Qed.

Lemma disconnect_loop_undriven joints w w' :
  for_each joints Rig.disconnect_joint w = (w', Ok tt) →
  ∀ j a, j ∈ joints → a ∈ channels → conns w' !! (j, a) = None.
Proof.
  intros E j a Hj Ha.
  destruct (for_each_elem unwinds _ _ _ _ j
              (λ y _, disconnect_joint_unwinds y) Hj E) as (w1 & w2 & _ & Ebody & [_ Hc]).
  apply disconnect_joint_Ok in Ebody as [_ Hnone].
  destruct (conns w' !! (j, a)) as [s|] eqn:Hs; [|done].
  apply Hc in Hs. by rewrite Hnone in Hs.
Qed.

Lemma skeleton_Ok w w' joints :
  Rig.skeleton w = (w', Ok joints) →
  w' = w ∧ joints ≠ []
  ∧ ∃ group, cmds.attr w Rig.rig_node "skeleton_group" = Some (VStr group)
             ∧ ∀ j, j ∈ joints ↔ j ∈ cmds.descendants w group.
Proof.
  intros E. pose proof (readonly_eq _ _ _ _ readonly_skeleton E) as ->.
  split; [done|]. unfold Rig.skeleton in E.
  apply bind_Ok in E as (w1 & group & [-> Hgroup]%get_name_Ok & E).
  apply bind_Ok in E as (w1 & rel & Erel & E).
  unfold cmds.listRelatives_allDescendents in Erel.
  destruct (dag w !! group); [|done]. injection Erel as <- <-.
  destruct (cmds.descendants w group) as [|x l] eqn:Hd; [done|].
  injection E as <-. split.
  - intros Hnil. apply (f_equal length) in Hnil.
    rewrite length_reverse in Hnil. done.
  - exists group. split; [done|]. intros j. by rewrite elem_of_reverse, Hd.
Qed.

Lemma attr_unwinds w w' n v :
  unwinds w w' → cmds.attr w' n "skeleton_group" = Some v →
  cmds.attr w n "skeleton_group" = Some v.
Proof.
  intros [Hu _]. unfold cmds.attr.
  destruct (dag w' !! n) as [nd'|] eqn:Hn; [|done].
  destruct (Hu n nd' Hn) as (nd & -> & _ & <-). done.
Qed.

Lemma unbuild_inv_joints svc w w2 :
  Rig.unbuild svc w = (w2, Ok tt) →
  ∃ wa wb wcap joints wdis wc,
    run_scripts svc "pre_unbuild" w = (wa, Ok tt)
    ∧ Rig.reset_pose svc wa = (wb, Ok tt)
    ∧ unwinds wb wcap
    ∧ Rig.skeleton wcap = (wcap, Ok joints)
    ∧ for_each joints Rig.disconnect_joint wcap = (wdis, Ok tt)
    ∧ unwinds wdis wc
    ∧ ∃ wd, unwinds wc wd ∧ run_scripts svc "post_unbuild" wd = (w2, Ok tt).
Proof.
  unfold Rig.unbuild. intros E.
  apply bind_Ok in E as (wa & [] & Epre & E).
  apply bind_Ok in E as (wb & [] & Ereset & E).
  apply bind_Ok in E as (wc & [] & Epurge & E).
  apply bind_Ok in E as (wd & [] & Eflags & Epost).
  unfold Rig.unbuild_purge in Epurge.
  apply bind_Ok in Epurge as (w1 & msb & Emsb & Epurge).
  pose proof (readonly_eq _ _ _ _ (readonly_rig_modules svc) Emsb) as ->.
  apply bind_Ok in Epurge as (wcap & [] & Ecap & Epurge).
  apply bind_Ok in Epurge as (w1 & joints & Ejoints & Epurge).
  pose proof (readonly_eq _ _ _ _ readonly_skeleton Ejoints) as ->.
  apply bind_Ok in Epurge as (wdis & [] & Edis & Epurge).
  apply bind_Ok in Epurge as (w1 & nodes & Enodes & Edel).
  pose proof (readonly_eq _ _ _ _ readonly_build_nodes Enodes) as ->.
  exists wa, wb, wcap, joints, wdis, wc. split_conj; try done.
  - eapply preserves_for_each; [apply _| |exact Ecap].
    intros m _. apply capture_module_unwinds.
  - by eapply preserves_delete_unwinds.
  - exists wd. split; [|done]. by eapply unbuild_flags_unwinds.
Qed.

Lemma unbuild_undriven svc w w2 group j a :
  preserves unwinds (run_scripts svc "post_unbuild") →
  Rig.unbuild svc w = (w2, Ok tt) →
  cmds.attr w2 Rig.rig_node "skeleton_group" = Some (VStr group) →
  j ∈ cmds.descendants w2 group → a ∈ channels →
  conns w2 !! (j, a) = None.
Proof.
  intros Hpost E Hgroup Hj Ha.
  apply unbuild_inv_joints in E as (wa & wb & wcap & joints & wdis & wc &
    _ & _ & _ & Ejoints & Eloop & Hdel & wd & Hflags & Epost).
  apply Hpost in Epost.
  assert (unwinds wdis w2) as Htail by (etrans; [exact Hdel|]; by etrans).
  assert (unwinds wcap w2) as Hall.
  { etrans; [|exact Htail]. eapply preserves_for_each; [apply _| |exact Eloop].
    intros y _. apply disconnect_joint_unwinds. }
  apply skeleton_Ok in Ejoints as (_ & _ & group' & Hgroup' & Hin).
  assert (group' = group) as ->.
  { apply (attr_unwinds _ _ _ _ Hall) in Hgroup. congruence. }
  apply (descendants_unwinds _ _ _ _ Hall), Hin in Hj.
  pose proof (disconnect_loop_undriven _ _ _ Eloop j a Hj Ha) as Hnone.
  destruct (conns w2 !! (j, a)) as [s|] eqn:Hs; [|done].
  apply Htail in Hs. by rewrite Hnone in Hs.
Qed.

(** X12. After a completed [unbuild], nothing drives the translate, rotate
    or scale of any node under the skeleton group.  The [post_unbuild]
    scripts are assumed to add no node and no connection and to reparent
    nothing. *)
Theorem unbuild_leaves_joints_undriven svc w w2 group :
  preserves unwinds (run_scripts svc "post_unbuild") →
  Rig.unbuild svc w = (w2, Ok tt) →
  cmds.attr w2 Rig.rig_node "skeleton_group" = Some (VStr group) →
  ∀ j a, j ∈ cmds.descendants w2 group → a ∈ channels → conns w2 !! (j, a) = None.
Proof. intros Hpost E Hgroup j a Hj Ha. by eapply unbuild_undriven. Qed.

(** X13. [unbuild] never completes twice in a row: after a completed
    [unbuild] the next [unbuild] raises, on the first joint of the skeleton,
    which nothing drives any more.  The unbuild scripts and [reset_node]
    are assumed to add no node and no connection and to reparent
    nothing. *)
Theorem unbuild_never_completes_twice svc w w2 :
  preserves unwinds (run_scripts svc "pre_unbuild") →
  preserves unwinds (run_scripts svc "post_unbuild") →
  (∀ ctl, preserves unwinds (reset_node svc ctl)) →
  Rig.unbuild svc w = (w2, Ok tt) →
  ∀ w3, Rig.unbuild svc w2 ≠ (w3, Ok tt).
Proof.
  intros Hpre Hpost Hreset E w3 E2.
  apply unbuild_inv_joints in E2 as (ua & ub & ucap & joints & udis & uc &
    Epre & Ereset & Hcap & Ejoints & Eloop & _).
  assert (unwinds w2 ucap) as Hu.
  { etrans; [by eapply Hpre|]. etrans; [|exact Hcap].
    by eapply reset_pose_unwinds. }
  apply skeleton_Ok in Ejoints as (_ & Hne & group & Hgroup & Hin).
  destruct joints as [|j joints]; [done|].
  rewrite for_each_cons in Eloop. apply bind_Ok in Eloop as (w1 & [] & Ej & _).
  apply disconnect_joint_Ok in Ej as [[s Hs] _].
  apply Hu in Hs.
  rewrite (unbuild_undriven svc w w2 group j "translate") in Hs; [done|done|done| | |].
  - by eapply attr_unwinds.
  - eapply descendants_unwinds; [exact Hu|]. apply Hin. by left.
  - unfold channels. in_list.
Qed.

Lemma unbuild_leaves_joints_undriven_witness :
  let built := (Rig.build Studio.services Studio.scene).1 in
  let unbuilt := (Rig.unbuild Studio.services built).1 in
  is_Some (conns built !! ("arm_jnt", "rotate"))
  ∧ conns unbuilt !! ("arm_jnt", "rotate") = None.
Proof.
  intros built unbuilt. split; [vm_compute; eexists; reflexivity|].
  apply (unbuild_leaves_joints_undriven Studio.services built unbuilt "SKELETON").
  - intros w w' r [= <- <-]. reflexivity.
  - apply (run_Ok (Rig.unbuild Studio.services) built tt). by_run.
  - by_run.
  - replace (cmds.descendants unbuilt "SKELETON")
      with ["spine_jnt"; "arm_jnt"; "root_jnt"] by by_run.
    in_list.
  - unfold channels. in_list.
Defined.

Lemma unbuild_never_completes_twice_witness :
  let built := (Rig.build Studio.services Studio.scene).1 in
  let unbuilt := (Rig.unbuild Studio.services built).1 in
  (Rig.unbuild Studio.services built).2 = Ok tt
  ∧ match (Rig.unbuild Studio.services unbuilt).2 with
    | Ok _ => False
    | Raise _ => True
    end.
Proof.
  intros built unbuilt.
  assert ((Rig.unbuild Studio.services built).2 = Ok tt) as Hfirst by by_run.
  split; [exact Hfirst|].
  pose proof (unbuild_never_completes_twice Studio.services built unbuilt) as Hnever.
  destruct (Rig.unbuild Studio.services unbuilt) as [w3 [[]|e]]; simpl; [|exact I].
  refine (Hnever _ _ _ _ w3 eq_refl).
  - intros w w' r [= <- <-]. reflexivity.
  - intros w w' r [= <- <-]. reflexivity.
  - intros ctl. apply preserves_setAttr_unwinds. intros [=].
  - exact (run_Ok (Rig.unbuild Studio.services) built tt Hfirst).
Defined.

(** ** Publishing *)

#[global] Instance keeps_log_preorder : PreOrder keeps_log.
Proof. split; [done|]. intros x y z Hxy Hyz. unfold keeps_log in *. congruence. Qed.

Lemma preserves_setAttr_keeps_attr n a v b :
  a ≠ b → preserves (keeps_attr b) (cmds.setAttr n a v).
Proof.
  intros Hab w w' r [[-> _]|(_ & -> & _)]%setAttr_run; [done|].
  intros x. apply attr_write_attr_ne. by right.
Qed.

Lemma logger_keeps_attr lv msg a : preserves (keeps_attr a) (logger lv msg).
Proof. by intros w w' r [= <- <-] n. Qed.

Lemma publish_loop_log svc modules w w' :
  (∀ m, preserves keeps_log (module_publish svc m)) →
  for_each modules (λ module,
    logger INFO ("Publishing: " ++ module);; module_publish svc module) w = (w', Ok tt) →
  log w' = log w ++ publishing modules.
Proof.
  intros Hmod. revert w. induction modules as [|m modules IH]; intros w.
  - intros [= <-]. by rewrite app_nil_r.
  - rewrite for_each_cons. intros (w1 & [] & E1 & E2)%bind_Ok.
    apply bind_Ok in E1 as (wl & [] & [= <-] & Em).
    apply Hmod in Em. apply IH in E2. rewrite E2, Em. simpl.
    by rewrite <- app_assoc.
Qed.

Lemma publish_inv svc w w' :
  Rig.publish svc w = (w', Ok tt) →
  ∃ w0 group modules wm,
    run_scripts svc "pre_publish" w = (w0, Ok tt)
    ∧ cmds.attr w0 Rig.rig_node "skeleton_group" = Some (VStr group)
    ∧ is_Some (cmds.attr w0 group "visibility")
    ∧ let hidden := cmds.write_attr group "visibility" (VBool false) w0 in
      Rig.rig_modules svc hidden = (hidden, Ok modules)
      ∧ for_each modules (λ module,
          logger INFO ("Publishing: " ++ module);; module_publish svc module) hidden
        = (wm, Ok tt)
      ∧ run_scripts svc "post_publish" wm = (w', Ok tt).
Proof.
  unfold Rig.publish. intros E.
  apply bind_Ok in E as (w0 & [] & Epre & E).
  apply bind_Ok in E as (w1 & group & [-> Hgroup]%get_name_Ok & E).
  apply bind_Ok in E as (hidden & [] & [Hvis ->]%setAttr_Ok & E).
  apply bind_Ok in E as (w1 & modules & Emods & E).
  pose proof (readonly_eq _ _ _ _ (readonly_rig_modules svc) Emods) as ->.
  apply bind_Ok in E as (wm & [] & Eloop & Epost).
  by exists w0, group, modules, wm.
Qed.

(** X14. A completed [publish] leaves the skeleton group hidden and the
    built flag of the rig as it found it, whatever its value.  The scripts
    and the modules' publish routines are assumed to leave these two
    attributes alone. *)
Theorem publish_hides_skeleton svc w w' :
  preserves (keeps_attr "is_built") (run_scripts svc "pre_publish") →
  (∀ a, a = "visibility" ∨ a = "is_built" →
     (∀ m, preserves (keeps_attr a) (module_publish svc m))
     ∧ preserves (keeps_attr a) (run_scripts svc "post_publish")) →
  Rig.publish svc w = (w', Ok tt) →
  ∃ w0 group,
    run_scripts svc "pre_publish" w = (w0, Ok tt)
    ∧ cmds.attr w0 Rig.rig_node "skeleton_group" = Some (VStr group)
    ∧ cmds.attr w' group "visibility" = Some (VBool false)
    ∧ cmds.attr w' Rig.rig_node "is_built" = cmds.attr w Rig.rig_node "is_built".
Proof.
  intros Hpre Hrest E.
  apply publish_inv in E as (w0 & group & modules & wm & Epre & Hgroup & Hvis & E).
  simpl in E. destruct E as (_ & Eloop & Epost).
  exists w0, group. split_conj; try done.
  - destruct (Hrest "visibility") as [Hmod Hpost]; [by left|].
    rewrite (Hpost _ _ _ Epost group).
    assert (keeps_attr "visibility"
              (cmds.write_attr group "visibility" (VBool false) w0) wm) as ->.
    { eapply preserves_for_each; [apply _| |exact Eloop]. intros m _.
      apply preserves_bind; [apply _|apply logger_keeps_attr|intros _; apply Hmod]. }
    apply attr_write_attr_eq. by eapply attr_is_Some_node.
  - destruct (Hrest "is_built") as [Hmod Hpost]; [by right|].
    rewrite (Hpost _ _ _ Epost Rig.rig_node).
    assert (keeps_attr "is_built"
              (cmds.write_attr group "visibility" (VBool false) w0) wm) as ->.
    { eapply preserves_for_each; [apply _| |exact Eloop]. intros m _.
      apply preserves_bind; [apply _|apply logger_keeps_attr|intros _; apply Hmod]. }
    rewrite attr_write_attr_ne by (right; intros [=]).
    apply (Hpre _ _ _ Epre).
Qed.

Lemma publish_hides_skeleton_witness :
  let published := (Rig.publish Studio.services Studio.scene).1 in
  cmds.attr Studio.scene "SKELETON" "visibility" = Some (VBool true)
  ∧ cmds.attr published "SKELETON" "visibility" = Some (VBool false)
  ∧ cmds.attr published Rig.rig_node "is_built" = Some (VBool false).
Proof.
  intros published.
  destruct (publish_hides_skeleton Studio.services Studio.scene published)
    as (w0 & group & Epre & Hgroup & Hvis & Hflag).
  - intros w w' r [= <- <-]. reflexivity.
  - intros a _. split; [intros m|]; intros w w' r [= <- <-]; reflexivity.
  - apply (run_Ok (Rig.publish Studio.services) Studio.scene tt). by_run.
  - injection Epre as <-.
    assert (group = "SKELETON") as -> by (vm_compute in Hgroup; congruence).
    split_conj; [by_run|exact Hvis|].
    rewrite Hflag. by_run.
Defined.

(** X15. A completed [publish] writes one line per module, in the order of
    [rig_modules] as read once after the skeleton is hidden, and nothing
    else, when the scripts and the modules' publish routines do not log. *)
Theorem publish_logs_in_module_order svc w w' :
  preserves keeps_log (run_scripts svc "pre_publish") →
  (∀ m, preserves keeps_log (module_publish svc m)) →
  preserves keeps_log (run_scripts svc "post_publish") →
  Rig.publish svc w = (w', Ok tt) →
  ∃ w0 group modules,
    run_scripts svc "pre_publish" w = (w0, Ok tt)
    ∧ cmds.attr w0 Rig.rig_node "skeleton_group" = Some (VStr group)
    ∧ (Rig.rig_modules svc (cmds.write_attr group "visibility" (VBool false) w0)).2
      = Ok modules
    ∧ log w' = log w ++ publishing modules.
Proof.
  intros Hpre Hmod Hpost E.
  apply publish_inv in E as (w0 & group & modules & wm & Epre & Hgroup & Hvis & E).
  simpl in E. destruct E as (Emods & Eloop & Epost).
  exists w0, group, modules. split_conj; try done.
  - by rewrite Emods.
  - rewrite (Hpost _ _ _ Epost), (publish_loop_log _ _ _ _ Hmod Eloop). simpl.
    by rewrite (Hpre _ _ _ Epre).
Qed.

Lemma publish_logs_in_module_order_witness :
  log (Rig.publish Studio.services Studio.scene).1
  = log Studio.scene ++ publishing ["root"; "spine"; "arm"].
Proof.
  destruct (publish_logs_in_module_order Studio.services Studio.scene
              (Rig.publish Studio.services Studio.scene).1)
    as (w0 & group & modules & Epre & Hgroup & Hmods & Hlog).
  - intros w w' r [= <- <-]. reflexivity.
  - intros m w w' r [= <- <-]. reflexivity.
  - intros w w' r [= <- <-]. reflexivity.
  - apply (run_Ok (Rig.publish Studio.services) Studio.scene tt). by_run.
  - injection Epre as <-.
    assert (group = "SKELETON") as -> by (vm_compute in Hgroup; congruence).
    assert (modules = ["root"; "spine"; "arm"]) as ->
      by (vm_compute in Hmods; congruence).
    exact Hlog.
Defined.

(** ** Construction of the rig *)

Lemma get_name_attr n a w s :
  cmds.attr w n a = Some (VStr s) → field.get_name n a w = (w, Ok s).
Proof.
  intros H. unfold field.get_name, field.get_object, cmds.getAttr.
  unfold mbind, M_bind, bind. by rewrite H.
Qed.

Lemma create_group_present name fld w :
  is_Some (dag w !! name) → RigSetup.create_group name fld w = (w, Ok tt).
Proof.
  intros H. unfold RigSetup.create_group, cmds.objExists, mbind, M_bind, bind.
  by rewrite bool_decide_eq_true_2.
Qed.

Lemma create_group_absent name fld w :
  dag w !! name = None → name ≠ Rig.rig_node →
  let w1 := {| dag := <[name := {| n_parent := None;
                                   n_attrs := {["visibility" := VBool true]} |}]> (dag w);
               conns := conns w; log := log w |} in
  match cmds.attr w Rig.rig_node fld with
  | None => ∃ e, RigSetup.create_group name fld w = (w1, Raise e)
  | Some _ =>
    RigSetup.create_group name fld w
    = ({| dag := <[name := {| n_parent := Some Rig.rig_node;
                              n_attrs := {["visibility" := VBool true]} |}]>
                   (dag (cmds.write_attr Rig.rig_node fld (VStr name) w));
          conns := conns w; log := log w |}, Ok tt)
  end.
Proof.
  intros Hfree Hne w1.
  assert (cmds.attr w1 Rig.rig_node fld = cmds.attr w Rig.rig_node fld) as Hattr.
  { unfold cmds.attr, w1. simpl. by rewrite lookup_insert_ne. }
  assert (RigSetup.create_group name fld w
          = (field.set_object Rig.rig_node fld (Some name);;
             group ← field.get_name Rig.rig_node fld;
             cmds_edit.parent group Rig.rig_node) w1) as ->.
  { unfold RigSetup.create_group, cmds.objExists, cmds_edit.createNode,
      cmds_edit.unique_name. unfold mbind at 1 2, M_bind, bind.
    rewrite !bool_decide_eq_false_2 by (rewrite Hfree; by intros [? ?]). done. }
  unfold field.set_object.
  destruct (cmds.attr w Rig.rig_node fld) as [v|] eqn:Hv.
  - unfold mbind at 1, M_bind, bind. rewrite setAttr_Some by (rewrite Hattr; eauto).
    assert (is_Some (dag w1 !! Rig.rig_node)) as Hrig.
    { eapply attr_is_Some_node. rewrite Hattr. eauto. }
    unfold mbind, M_bind, bind.
    rewrite (get_name_attr _ _ _ name) by by apply attr_write_attr_eq.
    unfold cmds_edit.parent.
    assert (dag (cmds.write_attr Rig.rig_node fld (VStr name) w1) !! name
            = Some {| n_parent := None; n_attrs := {["visibility" := VBool true]} |}) as ->.
    { unfold cmds.write_attr, w1. simpl. rewrite lookup_alter_ne by done.
      apply lookup_insert_eq. }
    destruct Hrig as [nd Hnd].
    assert (is_Some (dag (cmds.write_attr Rig.rig_node fld (VStr name) w1) !! Rig.rig_node))
      as [nd' ->].
    { apply (attr_is_Some_node _ _ fld). rewrite attr_write_attr_eq; eauto. }
    rewrite decide_False by done. simpl. f_equal. f_equal.
    unfold w1. simpl.
    apply map_eq. intros k. destruct (decide (k = name)) as [->|Hk].
    + by rewrite !lookup_insert_eq.
    + rewrite !lookup_insert_ne by done.
      destruct (decide (Rig.rig_node = k)) as [<-|Hr].
      * rewrite !lookup_alter_eq. by rewrite lookup_insert_ne.
      * rewrite !lookup_alter_ne by done. by rewrite lookup_insert_ne.
  - unfold mbind at 1, M_bind, bind. unfold cmds.setAttr. rewrite Hattr.
    eexists. reflexivity.
Qed.

Lemma create_group_step name fld w w' r :
  name ≠ Rig.rig_node → RigSetup.create_group name fld w = (w', r) →
  (∀ n, n ≠ name → n_parent <$> dag w' !! n = n_parent <$> dag w !! n)
  ∧ (∀ n a, n ≠ name → n ≠ Rig.rig_node ∨ a ≠ fld → cmds.attr w' n a = cmds.attr w n a)
  ∧ (is_Some (dag w !! name) → w' = w)
  ∧ (r = Ok tt → is_Some (dag w' !! name))
  ∧ (r = Ok tt → dag w !! name = None →
     cmds.attr w' Rig.rig_node fld = Some (VStr name)
     ∧ n_parent <$> dag w' !! name = Some (Some Rig.rig_node)).
Proof.
  intros Hne E. destruct (dag w !! name) as [nd|] eqn:Hname.
  - rewrite create_group_present in E by (rewrite Hname; eauto).
    injection E as <- <-. split_conj; done.
  - pose proof (create_group_absent name fld w Hname Hne) as Hrun. simpl in Hrun.
    destruct (cmds.attr w Rig.rig_node fld) as [v|] eqn:Hv.
    + rewrite Hrun in E. injection E as <- <-. split_conj.
      * intros n Hn. simpl. rewrite lookup_insert_ne by done.
        destruct (decide (Rig.rig_node = n)) as [<-|Hr].
        -- rewrite lookup_alter_eq. by destruct (dag w !! Rig.rig_node).
        -- by rewrite lookup_alter_ne.
      * intros n a Hn Hna. unfold cmds.attr at 1. simpl.
        rewrite lookup_insert_ne by done.
        change (cmds.attr (cmds.write_attr Rig.rig_node fld (VStr name) w) n a
                = cmds.attr w n a).
        apply attr_write_attr_ne. destruct Hna; [left|right]; done.
      * by intros [? ?].
      * intros _. simpl. rewrite lookup_insert_eq. eauto.
      * intros _ _. split.
        -- unfold cmds.attr at 1. simpl. rewrite lookup_insert_ne by done.
           change (cmds.attr (cmds.write_attr Rig.rig_node fld (VStr name) w)
                     Rig.rig_node fld = Some (VStr name)).
           apply attr_write_attr_eq. eapply attr_is_Some_node. rewrite Hv. eauto.
        -- simpl. by rewrite lookup_insert_eq.
    + destruct Hrun as [e Hrun]. rewrite Hrun in E. injection E as <- <-.
      split_conj; try done.
      * intros n Hn. simpl. by rewrite lookup_insert_ne.
      * intros n a Hn _. unfold cmds.attr. simpl. by rewrite lookup_insert_ne.
Qed.

Lemma create_groups_spec l w w' :
  NoDup l.*1 → NoDup l.*2 → Rig.rig_node ∉ l.*1 →
  for_each l (λ g, RigSetup.create_group g.1 g.2) w = (w', Ok tt) →
  (∀ n, is_Some (dag w' !! n) ↔ is_Some (dag w !! n) ∨ n ∈ l.*1)
  ∧ (∀ n, n ∉ l.*1 →
       n_parent <$> dag w' !! n = n_parent <$> dag w !! n
       ∧ ∀ a, n ≠ Rig.rig_node ∨ a ∉ l.*2 → cmds.attr w' n a = cmds.attr w n a)
  ∧ (∀ name fld, (name, fld) ∈ l →
       match dag w !! name with
       | Some _ => cmds.attr w' Rig.rig_node fld = cmds.attr w Rig.rig_node fld
                   ∧ n_parent <$> dag w' !! name = n_parent <$> dag w !! name
       | None => cmds.attr w' Rig.rig_node fld = Some (VStr name)
                 ∧ n_parent <$> dag w' !! name = Some (Some Rig.rig_node)
       end).
Proof.
  revert w. induction l as [|[name fld] l IH]; intros w Hnames Hflds Hrig.
  - intros [= <-]. split_conj.
    + intros n. split; [by left|]. intros [H|H]; [done|]. by apply elem_of_nil in H.
    + done.
    + intros name fld H. by apply elem_of_nil in H.
  - rewrite for_each_cons. intros (w1 & [] & E1 & E2)%bind_Ok. simpl in *.
    apply NoDup_cons in Hnames as [Hname Hnames].
    apply NoDup_cons in Hflds as [Hfld Hflds].
    apply not_elem_of_cons in Hrig as [Hne Hrig].
    apply create_group_step in E1 as (Hpar & Hattr & Hsame & Hnew & Hset); [|done].
    destruct (IH w1 Hnames Hflds Hrig E2) as (Hdom & Hframe & Hgroups).
    split_conj.
    + intros n. rewrite Hdom, elem_of_cons. destruct (decide (n = name)) as [->|Hn].
      * split; [|intros _; left; by apply Hnew]. intros _. right. by left.
      * rewrite <- !(fmap_is_Some n_parent), (Hpar n Hn). split.
        -- intros [H|H]; [by left|]. right. by right.
        -- intros [H|[H|H]]; [by left|done|by right].
    + intros n [Hn Hnl]%not_elem_of_cons. destruct (Hframe n Hnl) as [Hp Ha]. split.
      * by rewrite Hp, Hpar.
      * intros a Hna. rewrite Ha, Hattr; [done|done| |].
        -- destruct Hna as [?|[? ?]%not_elem_of_cons]; [by left|by right].
        -- destruct Hna as [?|[? ?]%not_elem_of_cons]; [by left|by right].
    + intros name' fld' [[= -> ->]|Hin]%elem_of_cons.
      * destruct (Hframe name Hname) as [Hp _].
        destruct (Hframe Rig.rig_node Hrig) as [_ Ha].
        rewrite (Ha fld) by (by right).
        destruct (dag w !! name) as [nd|] eqn:Hw.
        -- rewrite Hp. assert (w1 = w) as -> by (apply Hsame; eauto). by rewrite Hw.
        -- rewrite Hp. by apply Hset.
      * assert (name' ≠ name) as Hn'.
        { intros ->. apply Hname. apply list_elem_of_fmap. by exists (name, fld'). }
        assert (fld' ≠ fld) as Hf'.
        { intros ->. apply Hfld. apply list_elem_of_fmap. by exists (name', fld). }
        specialize (Hgroups name' fld' Hin).
        pose proof (Hpar name' Hn') as Hp'.
        rewrite <- (Hattr Rig.rig_node fld') by (done || by right).
        destruct (dag w !! name'), (dag w1 !! name'); try done.
        destruct Hgroups as [-> ->]. by rewrite Hp'.
Qed.

Lemma create_basic_hierarchy_loop w :
  RigSetup._create_basic_hierarchy w
  = for_each groups (λ g, RigSetup.create_group g.1 g.2) w.
Proof.
  unfold RigSetup._create_basic_hierarchy, groups. rewrite !for_each_cons.
  unfold mbind, M_bind, bind. simpl.
  destruct (RigSetup.create_group "MODULES" "modules_group" w) as [w1 [[]|e]]; [|done].
  destruct (RigSetup.create_group "EXTRAS" "extras_group" w1) as [w2 [[]|e]]; [|done].
  by destruct (RigSetup.create_group "SKELETON" "skeleton_group" w2) as [w3 [[]|e]].
Qed.

Lemma groups_distinct :
  NoDup groups.*1 ∧ NoDup groups.*2 ∧ Rig.rig_node ∉ groups.*1.
Proof.
  split_conj.
  - apply (bool_decide_unpack _). by_run.
  - apply (bool_decide_unpack _). by_run.
  - apply (bool_decide_unpack _). by_run.
Qed.

(** X16. A completed [_create_basic_hierarchy] leaves exactly the old nodes
    and the three groups.  A group whose name was free is created under the
    rig and referenced by its field; a name that was taken is left where it
    was, and the field is not written: the test is on the name, not on the
    field.  Running it again changes nothing. *)
Theorem create_basic_hierarchy_once w w' :
  RigSetup._create_basic_hierarchy w = (w', Ok tt) →
  (∀ n, is_Some (dag w' !! n) ↔ is_Some (dag w !! n) ∨ n ∈ groups.*1)
  ∧ (∀ name fld, (name, fld) ∈ groups →
       match dag w !! name with
       | Some _ => cmds.attr w' Rig.rig_node fld = cmds.attr w Rig.rig_node fld
                   ∧ n_parent <$> dag w' !! name = n_parent <$> dag w !! name
       | None => cmds.attr w' Rig.rig_node fld = Some (VStr name)
                 ∧ n_parent <$> dag w' !! name = Some (Some Rig.rig_node)
       end)
  ∧ RigSetup._create_basic_hierarchy w' = (w', Ok tt).
Proof.
  rewrite create_basic_hierarchy_loop. intros E.
  destruct groups_distinct as (Hnames & Hflds & Hrig).
  destruct (create_groups_spec _ _ _ Hnames Hflds Hrig E) as (Hdom & _ & Hgroups).
  split_conj; [done|done|].
  assert (∀ n, n ∈ groups.*1 → is_Some (dag w' !! n)) as Hall
    by (intros n Hn; apply Hdom; by right).
  unfold RigSetup._create_basic_hierarchy, mbind, M_bind, bind.
  rewrite !create_group_present; [done| | |]; apply Hall; unfold groups; simpl; in_list.
Qed.

Lemma create_basic_hierarchy_once_witness :
  let w' := (RigSetup._create_basic_hierarchy clash_scene).1 in
  cmds.attr w' Rig.rig_node "modules_group" = Some (VStr "MODULES")
  ∧ n_parent <$> dag w' !! "MODULES" = Some (Some Rig.rig_node)
  ∧ cmds.attr w' Rig.rig_node "skeleton_group" = Some VNone
  ∧ n_parent <$> dag w' !! "SKELETON" = Some None
  ∧ RigSetup._create_basic_hierarchy w' = (w', Ok tt).
Proof.
  intros w'.
  destruct (create_basic_hierarchy_once clash_scene w') as (_ & Hgroups & Hagain).
  { apply (run_Ok RigSetup._create_basic_hierarchy clash_scene tt). by_run. }
  pose proof (Hgroups "MODULES" "modules_group") as Hm.
  pose proof (Hgroups "SKELETON" "skeleton_group") as Hs.
  replace (dag clash_scene !! "MODULES") with (@None Node) in Hm by by_run.
  replace (dag clash_scene !! "SKELETON")
    with (Some (Studio.transform None [])) in Hs by by_run.
  destruct Hm as [Hm1 Hm2]; [unfold groups; in_list|].
  destruct Hs as [Hs1 Hs2]; [unfold groups; in_list|].
  split_conj; [exact Hm1|exact Hm2| | |exact Hagain].
  - rewrite Hs1. by_run.
  - rewrite Hs2. by_run.
Defined.

Lemma add_module_Ok svc module_type args kwargs w w' m :
  Rig.add_module svc module_type args kwargs w = (w', Ok m) →
  (∃ built, cmds.attr w Rig.rig_node "is_built" = Some built ∧ truthy built = false)
  ∧ is_Some (all_rig_modules svc !! module_type).
Proof.
  unfold Rig.add_module. intros (w1 & built & Eb & E)%bind_Ok.
  unfold cmds.getAttr in Eb.
  destruct (cmds.attr w Rig.rig_node "is_built") as [v|] eqn:Hv; [|done].
  injection Eb as <- <-. destruct (truthy v) eqn:Ht; [done|].
  split; [by exists v|]. by destruct (all_rig_modules svc !! module_type).
Qed.

(** X17. [_add_default_modules] completes only when every configured module
    type is registered and, unless the configuration is empty, the rig was
    not built when it started. *)
Theorem default_modules_are_registered svc default_modules w w' :
  RigSetup._add_default_modules svc default_modules w = (w', Ok tt) →
  (∀ default, default ∈ default_modules →
     is_Some (all_rig_modules svc !! default.1))
  ∧ (default_modules ≠ [] →
     ∃ built, cmds.attr w Rig.rig_node "is_built" = Some built ∧ truthy built = false).
Proof.
  unfold RigSetup._add_default_modules. intros E. split.
  - revert w E. induction default_modules as [|d l IH]; intros w E default Hin.
    + by apply elem_of_nil in Hin.
    + rewrite for_each_cons in E. apply bind_Ok in E as (w1 & [] & E1 & E2).
      apply bind_Ok in E1 as (w2 & m & [_ Hreg]%add_module_Ok & [= <-]).
      apply elem_of_cons in Hin as [->|Hin]; [done|]. by eapply IH.
  - destruct default_modules as [|d l]; [done|]. intros _.
    rewrite for_each_cons in E. apply bind_Ok in E as (w1 & [] & E1 & E2).
    by apply bind_Ok in E1 as (w2 & m & [Hbuilt _]%add_module_Ok & _).
Qed.

(** X18. After a completed construction the rig is initialised, so that
    constructing it again does what the base constructor does and nothing
    more, as long as the base constructor leaves the flag as it is. *)
Theorem init_runs_once svc icarus_node_init default_modules w w' :
  RigSetup.__init__ svc icarus_node_init default_modules w = (w', Ok tt) →
  (∃ v, cmds.attr w' Rig.rig_node "is_initialized" = Some v ∧ truthy v = true)
  ∧ ∀ w'' r, icarus_node_init Rig.rig_node w' = (w'', r) →
      cmds.attr w'' Rig.rig_node "is_initialized"
      = cmds.attr w' Rig.rig_node "is_initialized" →
      RigSetup.__init__ svc icarus_node_init default_modules w' = (w'', r).
Proof.
  intros E.
  assert (∃ v, cmds.attr w' Rig.rig_node "is_initialized" = Some v ∧ truthy v = true)
    as (v & Hv & Ht).
  { unfold RigSetup.__init__ in E.
    apply bind_Ok in E as (w1 & [] & _ & E).
    apply bind_Ok in E as (w2 & v & Ev & E). unfold cmds.getAttr in Ev.
    destruct (cmds.attr w1 Rig.rig_node "is_initialized") as [v'|] eqn:Hv; [|done].
    injection Ev as <- <-. destruct (truthy v') eqn:Ht.
    - injection E as <-. by exists v'.
    - apply bind_Ok in E as (w2 & [] & _ & E).
      apply bind_Ok in E as (w3 & [] & _ & E).
      apply setAttr_Ok in E as [Hsome ->]. exists (VBool true). split; [|done].
      apply attr_write_attr_eq. by eapply attr_is_Some_node. }
  split; [by exists v|]. intros w'' r Ebase Hkeep.
  unfold RigSetup.__init__, mbind, M_bind, bind. rewrite Ebase.
  destruct r as [[]|e]; [|done].
  unfold cmds.getAttr. rewrite Hkeep, Hv. by rewrite Ht.
Qed.

Lemma default_modules_are_registered_witness :
  let default_modules : list (string * gmap string value) :=
    [("chain", {["name" := VStr "leg"]}); ("chain", {["name" := VStr "tail"]})] in
  (RigSetup._add_default_modules Studio.services default_modules Studio.scene).2 = Ok tt
  ∧ is_Some (all_rig_modules Studio.services !! "chain")
  ∧ ∃ built, cmds.attr Studio.scene Rig.rig_node "is_built" = Some built
             ∧ truthy built = false.
Proof.
  intros default_modules.
  assert ((RigSetup._add_default_modules Studio.services default_modules Studio.scene).2
          = Ok tt) as Hrun by by_run.
  split; [exact Hrun|].
  destruct (default_modules_are_registered Studio.services default_modules Studio.scene
              (RigSetup._add_default_modules Studio.services default_modules
                 Studio.scene).1) as [Hreg Hbuilt].
  { exact (run_Ok (RigSetup._add_default_modules Studio.services default_modules)
             Studio.scene tt Hrun). }
  split.
  - apply (Hreg ("chain", {["name" := VStr "leg"]})). unfold default_modules. in_list.
  - apply Hbuilt. discriminate.
Defined.

Lemma init_runs_once_witness :
  let default_modules : list (string * gmap string value) :=
    [("chain", {["name" := VStr "root"]})] in
  let init := RigSetup.__init__ Studio.services (λ _, ret tt) default_modules in
  let w' := (init bare_scene).1 in
  is_Some (dag w' !! "root") ∧ init w' = (w', Ok tt).
Proof.
  intros default_modules init w'.
  split; [vm_compute; eexists; reflexivity|].
  destruct (init_runs_once Studio.services (λ _, ret tt) default_modules bare_scene w')
    as [_ Hagain].
  { apply (run_Ok init bare_scene tt). by_run. }
  apply (Hagain w' (Ok tt)); reflexivity.
Defined.

(** * The GUI commands *)

Lemma append_String c s t : String c s +:+ t = String c (s +:+ t).
Proof. reflexivity. Qed.

Lemma prefix_app term s :
  String.prefix term s = true ↔ ∃ post, s = term +:+ post.
Proof.
  revert s. induction term as [|c term IH]; intros s.
  - split; [intros _; by exists s|]. intros _. by destruct s.
  - destruct s as [|c' s]; simpl.
    + split; [done|]. intros [post H]. rewrite append_String in H. discriminate.
    + destruct (Ascii.ascii_dec c c') as [->|Hc].
      * rewrite IH. split; intros [post H]; exists post.
        -- rewrite append_String. congruence.
        -- rewrite append_String in H. congruence.
      * split; [done|]. intros [post H]. rewrite append_String in H. congruence.
Qed.

(** [contains] is the substring test. *)
Lemma contains_spec term s :
  commands.contains term s = true ↔ ∃ pre post, s = pre +:+ term +:+ post.
Proof.
  induction s as [|c s IH].
  - change (commands.contains term "") with (String.prefix term "" || false).
    rewrite orb_false_r, prefix_app. split.
    + intros [post ->]. by exists "", post.
    + intros (pre & post & H). destruct pre as [|c pre]; [by exists post|].
      rewrite append_String in H. discriminate.
  - change (commands.contains term (String c s))
      with (String.prefix term (String c s) || commands.contains term s).
    rewrite orb_true_iff, prefix_app, IH. split.
    + intros [[post ->]|(pre & post & ->)].
      * by exists "", post.
      * by exists (String c pre), post.
    + intros (pre & post & H). destruct pre as [|c' pre].
      * left. by exists post.
      * right. exists pre, post. rewrite append_String in H. congruence.
Qed.

Lemma append_if_found_any terms module mop_modules :
  commands.append_if_found terms module mop_modules
  = if existsb (λ term, commands.contains term module) terms
    then mop_modules ++ [module] else mop_modules.
Proof.
  induction terms as [|term terms IH]; simpl; [done|].
  by destruct (commands.contains term module).
Qed.

Lemma collect_filter modules mop_modules :
  commands.collect modules mop_modules
  = mop_modules ++ filter (λ module, commands.mop_module module = true) modules.
Proof.
  revert mop_modules. induction modules as [|module modules IH]; intros mop_modules.
  - simpl. by rewrite app_nil_r.
  - change (commands.collect (module :: modules) mop_modules)
      with (commands.collect modules
              (commands.append_if_found commands.search module mop_modules)).
    rewrite IH, append_if_found_any.
    change (existsb (λ term, commands.contains term module) commands.search)
      with (commands.mop_module module).
    rewrite filter_cons. destruct (commands.mop_module module).
    + rewrite decide_True by done. by rewrite <- app_assoc.
    + by rewrite decide_False by done.
Qed.

Lemma del_modules_Ok {V U} (mop_modules : list string) (s : commands.Session V U) :
  NoDup mop_modules →
  (∀ module, module ∈ mop_modules → is_Some (commands.sys_modules s !! module)) →
  ∃ modules,
    commands.del_modules mop_modules s
    = ({| commands.sys_modules := modules; commands.ui := commands.ui s;
          commands.out := commands.out s |}, Ok tt)
    ∧ ∀ module, modules !! module
        = if decide (module ∈ mop_modules) then None
          else commands.sys_modules s !! module.
Proof.
  revert s. induction mop_modules as [|m l IH]; intros s Hnd Hin.
  - exists (commands.sys_modules s). split; [by destruct s|].
    intros module. rewrite decide_False; [done|]. apply not_elem_of_nil.
  - apply NoDup_cons in Hnd as [Hm Hnd].
    destruct (Hin m) as [v Hv]; [by left|].
    destruct (IH {| commands.sys_modules := delete m (commands.sys_modules s);
                    commands.ui := commands.ui s; commands.out := commands.out s |}
                Hnd) as (modules & Erun & Hlook).
    { intros module Hl. simpl. rewrite lookup_delete_ne; [apply Hin; by right|].
      by intros ->. }
    exists modules. split.
    + simpl. unfold commands.and_then, commands.del_module. rewrite Hv. exact Erun.
    + intros module. rewrite Hlook. simpl.
      destruct (decide (module = m)) as [->|Hne].
      * rewrite decide_False by done. rewrite decide_True by (by left).
        apply lookup_delete_eq.
      * rewrite lookup_delete_ne by done.
        destruct (decide (module ∈ l)).
        -- rewrite decide_True; [done|by right].
        -- rewrite decide_False; [done|]. by intros [?|?]%elem_of_cons.
Qed.

Lemma purge_modules {V U} (s : commands.Session V U) :
  commands.del_modules
    (commands.collect (map_to_list (commands.sys_modules s)).*1 []) s
  = (commands.purged s, Ok tt).
Proof.
  rewrite collect_filter. simpl.
  destruct (del_modules_Ok
              (filter (λ module, commands.mop_module module = true)
                 (map_to_list (commands.sys_modules s)).*1) s)
    as (modules & -> & Hlook).
  - apply NoDup_filter, NoDup_fst_map_to_list.
  - intros module [_ Hin]%list_elem_of_filter.
    apply list_elem_of_fmap in Hin as ([k v] & -> & Hin).
    apply elem_of_map_to_list in Hin. simpl. eauto.
  - f_equal. unfold commands.purged. f_equal. apply map_eq. intros module.
    rewrite Hlook. destruct (commands.sys_modules s !! module) as [v|] eqn:Hv.
    + destruct (commands.mop_module module) eqn:Hmop.
      * rewrite decide_True.
        -- symmetry. apply map_lookup_filter_None_2. right. intros x _. simpl.
           by rewrite Hmop.
        -- apply list_elem_of_filter. split; [done|].
           apply list_elem_of_fmap. exists (module, v). split; [done|].
           by apply elem_of_map_to_list.
      * rewrite decide_False.
        -- symmetry. by apply map_lookup_filter_Some_2.
        -- intros [Hm _]%list_elem_of_filter. congruence.
    + assert (filter (λ entry : string * V, commands.mop_module entry.1 = false)
                (commands.sys_modules s) !! module = None) as ->.
      { apply map_lookup_filter_None_2. by left. }
      by destruct (decide _).
Qed.

(** X19. [reload_mop] never fails on its own deletions: once the GUI
    package is imported, asked and closed, the two loops remove from
    [sys.modules] exactly the modules in whose name a search term occurs,
    each one once, and what is left of the command is to show the window
    again, if it was running, and to log. *)
Theorem reload_mop_purges {V U} import_ui is_running close show
    (s s1 s2 s3 : commands.Session V U) running :
  import_ui s = (s1, Ok tt) →
  is_running s1 = (s2, Ok running) →
  close s2 = (s3, Ok tt) →
  commands.reload_mop import_ui is_running close show s
  = commands.and_then (if running then show else λ s, (s, Ok tt))
      (λ _, commands.info "Reloaded mop modules.") (commands.purged s3).
Proof.
  intros Eimport Erunning Eclose. unfold commands.reload_mop.
  unfold commands.and_then at 1. rewrite Eimport.
  unfold commands.and_then at 1. rewrite Erunning.
  unfold commands.and_then at 1. rewrite Eclose.
  unfold commands.and_then at 1 2. by rewrite purge_modules.
Qed.

Lemma reload_mop_purges_witness :
  let reloaded :=
    (commands.reload_mop (λ s, (s, Ok tt)) commands.window_is_running
       (commands.window false) (commands.window true) commands.session).1 in
  (map_to_list (commands.sys_modules reloaded)).*1 ≡ₚ ["os"; "json"; "maya.cmds"; "desktop"]
  ∧ commands.ui reloaded = true.
Proof.
  intros reloaded. unfold reloaded.
  rewrite (reload_mop_purges (λ s, (s, Ok tt)) commands.window_is_running
             (commands.window false) (commands.window true) commands.session
             commands.session commands.session
             (commands.window false commands.session).1 true);
    [|reflexivity|reflexivity|reflexivity].
  split; [|reflexivity].
  apply (bool_decide_unpack _). by_run.
Defined.
